(** * ClawX main process: credential store and update controller

    A shallow embedding of [electron/utils/secure-storage.ts] and
    [electron/main/updater.ts], with the properties of the design
    document stated and proved over it.

    Definitions:
    - [Node]    the parts of the JavaScript runtime the two modules call
                (strings as UTF-16 code units, [Buffer], UTF-8, base64,
                plain objects with the members they inherit);
    - [Js]      a state-and-exception monad for [async] functions with
                [try]/[catch];
    - [SecureStorage]  the credential store;
    - [Updater]        the update controller and its IPC handlers;
    - [Fixtures]       sample data;
    - [Environment]    changes of the platform around the store;
    - [ProvidersSettings], [Ipc], [UpdateStore], [UpdateSettings]
                       what reaches the renderer and what it shows.

    Properties:
    - [NodeFacts]          the codecs invert each other; lookups in
                           plain objects;
    - [SecureStorageSpec]  claims C1, C3, C5, C6, C7, C9;
    - [UpdaterSpec]        claims C2, C4, C8, C10;
    - [SecureStorageMore], [UpdaterMore], [UpdateStoreSpec]
                           further properties of the same code. *)

From Stdlib Require Import NArith ZArith Lia String.
From Stdlib.Strings Require Import Byte.
From stdpp Require Import gmap list.

Ltac Zify.zify_post_hook ::= Z.to_euclidean_division_equations.

(* ===================================================================== *)
(** ** The runtime                                                        *)
(* ===================================================================== *)

Module Node.
Local Open Scope N_scope.

(** A JavaScript string is a sequence of UTF-16 code units; [length],
    [substring] and [repeat] count code units.  A [Buffer] is a sequence
    of bytes. *)
Abbreviation jsstring := (list N).
Abbreviation Buffer := (list byte).

(** Literals: the code units of an ASCII text. *)
Definition js (s : string) : jsstring := map Byte.to_N (list_byte_of_string s).

Definition byte_of_N (n : N) : byte :=
  match Byte.of_N (n mod 256) with Some b => b | None => "000"%byte end.

(** *** [buf.toString('base64')] and [Buffer.from(s, 'base64')] *)

Definition b64_char (v : N) : N :=
  if v <? 26 then 65 + v            (* A-Z *)
  else if v <? 52 then 71 + v       (* a-z *)
  else if v <? 62 then v - 4        (* 0-9 *)
  else if v =? 62 then 43           (* + *)
  else 47.                          (* / *)

(** The decoder also accepts the URL-safe [-] and [_]. *)
Definition b64_value (c : N) : option N :=
  if (65 <=? c) && (c <=? 90) then Some (c - 65)
  else if (97 <=? c) && (c <=? 122) then Some (c - 71)
  else if (48 <=? c) && (c <=? 57) then Some (c + 4)
  else if (c =? 43) || (c =? 45) then Some 62
  else if (c =? 47) || (c =? 95) then Some 63
  else None.

Definition b64_pad : N := 61.       (* = *)

Fixpoint base64_encode (b : Buffer) : jsstring :=
  match b with
  | [] => []
  | [x] =>
      let n := Byte.to_N x in
      [b64_char (n / 4); b64_char ((n mod 4) * 16); b64_pad; b64_pad]
  | [x; y] =>
      let n := Byte.to_N x * 256 + Byte.to_N y in
      [b64_char (n / 1024); b64_char ((n / 16) mod 64);
       b64_char ((n mod 16) * 4); b64_pad]
  | x :: y :: z :: rest =>
      let n := Byte.to_N x * 65536 + Byte.to_N y * 256 + Byte.to_N z in
      b64_char (n / 262144) :: b64_char ((n / 4096) mod 64)
        :: b64_char ((n / 64) mod 64) :: b64_char (n mod 64)
        :: base64_encode rest
  end.

(** Decoding is forgiving: it stops at the first padding character and
    skips every character outside the alphabet. *)
Fixpoint base64_sextets (s : jsstring) : list N :=
  match s with
  | [] => []
  | c :: rest =>
      if c =? b64_pad then []
      else match b64_value c with
           | Some v => v :: base64_sextets rest
           | None => base64_sextets rest
           end
  end.

Fixpoint sextets_to_bytes (v : list N) : Buffer :=
  match v with
  | a :: b :: c :: d :: rest =>
      let n := a * 262144 + b * 4096 + c * 64 + d in
      byte_of_N (n / 65536) :: byte_of_N ((n / 256) mod 256)
        :: byte_of_N (n mod 256) :: sextets_to_bytes rest
  | [a; b; c] =>
      let n := a * 4096 + b * 64 + c in
      [byte_of_N (n / 1024); byte_of_N ((n / 4) mod 256)]
  | [a; b] => [byte_of_N ((a * 64 + b) / 16)]
  | _ => []
  end.

Definition base64_decode (s : jsstring) : Buffer :=
  sextets_to_bytes (base64_sextets s).

(** *** [Buffer.from(s)] (UTF-8) and [buf.toString('utf-8')] *)

Definition high_surrogate (u : N) : bool := (55296 <=? u) && (u <=? 56319).
Definition low_surrogate (u : N) : bool := (56320 <=? u) && (u <=? 57343).

(** U+FFFD, which replaces what cannot be encoded or decoded. *)
Definition replacement_unit : N := 65533.
Definition replacement_bytes : Buffer := ["239"; "191"; "189"]%byte.

Definition utf8_of_code_point (cp : N) : Buffer :=
  if cp <? 128 then [byte_of_N cp]
  else if cp <? 2048 then
    [byte_of_N (192 + cp / 64); byte_of_N (128 + cp mod 64)]
  else if cp <? 65536 then
    [byte_of_N (224 + cp / 4096); byte_of_N (128 + (cp / 64) mod 64);
     byte_of_N (128 + cp mod 64)]
  else
    [byte_of_N (240 + cp / 262144); byte_of_N (128 + (cp / 4096) mod 64);
     byte_of_N (128 + (cp / 64) mod 64); byte_of_N (128 + cp mod 64)].

(** A surrogate pair is one code point; an unpaired surrogate is written
    as U+FFFD. *)
Fixpoint utf8_encode (s : jsstring) : Buffer :=
  match s with
  | [] => []
  | u :: rest =>
      if high_surrogate u then
        match rest with
        | l :: rest' =>
            if low_surrogate l then
              utf8_of_code_point (65536 + (u - 55296) * 1024 + (l - 56320))
                ++ utf8_encode rest'
            else replacement_bytes ++ utf8_encode rest
        | [] => replacement_bytes
        end
      else if low_surrogate u then replacement_bytes ++ utf8_encode rest
      else utf8_of_code_point u ++ utf8_encode rest
  end.

Definition continuation (b : byte) : bool :=
  (128 <=? Byte.to_N b) && (Byte.to_N b <=? 191).

Definition utf16_of_code_point (cp : N) : jsstring :=
  if cp <? 65536 then [cp]
  else [55296 + (cp - 65536) / 1024; 56320 + (cp - 65536) mod 1024].

(** The second byte a lead byte of a three- or four-byte sequence admits
    (Unicode, table 3-7); the other continuation bytes range over
    [80..BF]. *)
Definition second (n0 : N) (b : byte) : bool :=
  let n := Byte.to_N b in
  if n0 =? 224 then (160 <=? n) && (n <=? 191)
  else if n0 =? 237 then (128 <=? n) && (n <=? 159)
  else if n0 =? 240 then (144 <=? n) && (n <=? 191)
  else if n0 =? 244 then (128 <=? n) && (n <=? 143)
  else continuation b.

(** An ill-formed sequence yields one U+FFFD for its longest prefix that
    starts a well-formed sequence (a byte that starts none counts alone),
    and decoding resumes at the byte after that prefix.  So does a
    sequence cut off by the end of the buffer. *)
Fixpoint utf8_decode (b : Buffer) : jsstring :=
  match b with
  | [] => []
  | b0 :: rest =>
      let n0 := Byte.to_N b0 in
      if n0 <? 128 then n0 :: utf8_decode rest
      else if (194 <=? n0) && (n0 <=? 223) then
        match rest with
        | b1 :: rest1 =>
            if continuation b1 then
              ((n0 - 192) * 64 + (Byte.to_N b1 - 128)) :: utf8_decode rest1
            else replacement_unit :: utf8_decode rest
        | [] => [replacement_unit]
        end
      else if (224 <=? n0) && (n0 <=? 239) then
        match rest with
        | b1 :: rest1 =>
            if second n0 b1 then
              match rest1 with
              | b2 :: rest2 =>
                  if continuation b2 then
                    ((n0 - 224) * 4096 + (Byte.to_N b1 - 128) * 64
                     + (Byte.to_N b2 - 128)) :: utf8_decode rest2
                  else replacement_unit :: utf8_decode rest1
              | [] => [replacement_unit]
              end
            else replacement_unit :: utf8_decode rest
        | [] => [replacement_unit]
        end
      else if (240 <=? n0) && (n0 <=? 244) then
        match rest with
        | b1 :: rest1 =>
            if second n0 b1 then
              match rest1 with
              | b2 :: rest2 =>
                  if continuation b2 then
                    match rest2 with
                    | b3 :: rest3 =>
                        if continuation b3 then
                          utf16_of_code_point
                            ((n0 - 240) * 262144 + (Byte.to_N b1 - 128) * 4096
                             + (Byte.to_N b2 - 128) * 64
                             + (Byte.to_N b3 - 128))
                            ++ utf8_decode rest3
                        else replacement_unit :: utf8_decode rest2
                    | [] => [replacement_unit]
                    end
                  else replacement_unit :: utf8_decode rest1
              | [] => [replacement_unit]
              end
            else replacement_unit :: utf8_decode rest
        | [] => [replacement_unit]
        end
      else replacement_unit :: utf8_decode rest
  end.

(** Well-formed UTF-16: code units below 2^16, every surrogate paired. *)
Fixpoint well_formed (s : jsstring) : bool :=
  match s with
  | [] => true
  | u :: rest =>
      if high_surrogate u then
        match rest with
        | l :: rest' => low_surrogate l && well_formed rest'
        | [] => false
        end
      else negb (low_surrogate u) && (u <? 65536) && well_formed rest
  end.

(** *** Plain objects used as dictionaries

    An object read from a store is a plain object: its own entries, kept
    here as a finite map, and behind them the members every object
    inherits from [Object.prototype].  The order in which [Object.keys]
    and [Object.values] list the own entries (integer-like names first,
    then the others as they were created) is not kept: the lists are in
    the order of the map. *)

(** [Object.getOwnPropertyNames(Object.prototype)]. *)
Definition Object_prototype : list jsstring :=
  map js ["constructor"; "__defineGetter__"; "__defineSetter__";
          "hasOwnProperty"; "__lookupGetter__"; "__lookupSetter__";
          "isPrototypeOf"; "propertyIsEnumerable"; "toString"; "valueOf";
          "__proto__"; "toLocaleString"]%string.

Definition inherited (name : jsstring) : bool :=
  bool_decide (name ∈ Object_prototype).

(** A value found under a name: an own entry, or the inherited member of
    that name (a function, or for [__proto__] the prototype itself). *)
Inductive Value (A : Type) : Type :=
| own (a : A)
| member (name : jsstring).
Arguments own {A} a.
Arguments member {A} name.

(** [o[name]]; [None] is [undefined]. *)
Definition get {A} (o : gmap jsstring A) (name : jsstring)
    : option (Value A) :=
  match o !! name with
  | Some a => Some (own a)
  | None => if inherited name then Some (member name) else None
  end.

(** [name in o]. *)
Definition has {A} (o : gmap jsstring A) (name : jsstring) : bool :=
  bool_decide (is_Some (o !! name)) || inherited name.

(** [o[name] = a], as far as it shows once [o] has been stored: the
    entry is written, except that with no own entry of that name
    [__proto__] is the inherited accessor, which for a string does
    nothing and for an object swaps the prototype of [o], and a
    prototype is not stored. *)
Definition assign {A} (name : jsstring) (a : A) (o : gmap jsstring A)
    : gmap jsstring A :=
  if bool_decide (name = js "__proto__")
     && negb (bool_decide (is_Some (o !! name)))
  then o
  else <[name := a]> o.

(** [Object.keys(o)] and [Object.values(o)]. *)
Definition Object_keys {A} (o : gmap jsstring A) : list jsstring :=
  map fst (map_to_list o).
Definition Object_values {A} (o : gmap jsstring A) : list A :=
  map snd (map_to_list o).

(** *** String primitives used for the masked key *)

(** [s.substring(i, j)] for [0 <= i <= j]; [j] beyond the end is clamped. *)
Definition substring (i j : nat) (s : jsstring) : jsstring :=
  take (j - i)%nat (drop i s).

(** [s.substring(i)]. *)
Definition substring_from (i : nat) (s : jsstring) : jsstring := drop i s.

(** ['*'.repeat(n)]. *)
Definition asterisks (n : nat) : jsstring := replicate n 42.

End Node.

(* ===================================================================== *)
(** ** Functions that change state and may throw                          *)
(* ===================================================================== *)

Module Js.

(** A thrown [Error] object. *)
Record JsError := mkError { message : string }.

Inductive Result (A : Type) : Type :=
| Ok (a : A)
| Throw (e : JsError).
Arguments Ok {A} a.
Arguments Throw {A} e.

(** A function body over a state [S]: it returns or throws, and the state
    it leaves behind is kept either way. *)
Definition M (S A : Type) : Type := S → Result A * S.

Section Monad.
Context {S : Type}.

Definition ret {A} (a : A) : M S A := fun s => (Ok a, s).

Definition throw {A} (e : JsError) : M S A := fun s => (Throw e, s).

Definition bind {A B} (m : M S A) (k : A → M S B) : M S B :=
  fun s =>
    match m s with
    | (Ok a, s') => k a s'
    | (Throw e, s') => (Throw e, s')
    end.

(** [try { body } catch (error) { handler }] *)
Definition try_catch {A} (body : M S A) (handler : JsError → M S A) : M S A :=
  fun s =>
    match body s with
    | (Ok a, s') => (Ok a, s')
    | (Throw e, s') => handler e s'
    end.

Definition gets {A} (f : S → A) : M S A := fun s => (Ok (f s), s).

Definition modify (f : S → S) : M S unit := fun s => (Ok tt, f s).

(** The value of an expression that may throw. *)
Definition lift {A} (r : Result A) : M S A := fun s => (r, s).

(** [for (const x of xs) { body }], collecting what each round yields. *)
Fixpoint for_of {A B} (xs : list A) (body : A → M S B) : M S (list B) :=
  match xs with
  | [] => ret []
  | x :: xs' => bind (body x) (fun y =>
                bind (for_of xs' body) (fun ys => ret (y :: ys)))
  end.
End Monad.

Definition returns {A} (r : Result A) : bool :=
  match r with Ok _ => true | Throw _ => false end.

Declare Scope js_scope.
Delimit Scope js_scope with js.
Notation "x <- m ;; k" := (bind m (fun x => k))
  (at level 100, m at next level, right associativity) : js_scope.
Notation "m ;; k" := (bind m (fun _ => k))
  (at level 100, right associativity) : js_scope.

End Js.

(* ===================================================================== *)
(** ** electron/utils/secure-storage.ts                                   *)
(* ===================================================================== *)

Module SecureStorage.
Import Node Js.
Local Open Scope js_scope.

Inductive ProviderType :=
| anthropic | openai | google | openrouter | ollama | custom.

Record ProviderConfig := {
  id : jsstring;
  name : jsstring;
  type : ProviderType;
  baseUrl : option jsstring;
  model : option jsstring;
  enabled : bool;
  createdAt : jsstring;
  updatedAt : jsstring;
}.

(** What [getProviderWithKeyInfo] hands to the UI:
    [ProviderConfig & { hasKey; keyMasked }]. *)
Record ProviderWithKeyInfo := {
  provider : ProviderConfig;
  hasKey : bool;
  keyMasked : option jsstring;
}.

(** [{ ...provider, hasKey, keyMasked }]: for a config the record above;
    for an inherited member, which has nothing to spread, the two key
    fields alone. *)
Inductive KeyInfo :=
| for_config (shown : ProviderWithKeyInfo)
| for_member (key : bool) (masked : option jsstring).

(** Its fields [hasKey] and [keyMasked]. *)
Definition has_key (info : KeyInfo) : bool :=
  match info with
  | for_config shown => hasKey shown
  | for_member key _ => key
  end.

Definition key_masked (info : KeyInfo) : option jsstring :=
  match info with
  | for_config shown => keyMasked shown
  | for_member _ masked => masked
  end.

Inductive LogEntry :=
| console_warn (text : string)
| console_error (text : string) (error : JsError).

(** The module's variables and everything it reaches outside itself.

    [store] and [providerStore] say whether the lazily created
    electron-store handles exist.  [encryptedKeys], [providers] and
    [defaultProvider] are what the two stores persist; a handle reads the
    persisted value afresh on every [get], so an object obtained from
    [get] is the caller's own copy until it is [set] back.  The two
    objects are plain objects used as dictionaries
    ([Record<string, _>]): what is persisted are their own entries, and
    what a lookup finds is given by [Node.get] and [Node.has].

    Creating a handle and every [get], [set] and [delete] on one touch the
    file system and may throw.  [faults] is what the file system will do:
    each such operation takes the head of the list and throws when it is
    [true]; with the list used up nothing fails. *)
Record World := {
  store : bool;
  providerStore : bool;
  encryptedKeys : gmap jsstring jsstring;
  providers : gmap jsstring ProviderConfig;
  defaultProvider : option jsstring;
  encryptionAvailable : bool;
  faults : list bool;
  console : list LogEntry;
}.

Definition with_store (b : bool) (w : World) : World :=
  {| store := b; providerStore := providerStore w;
     encryptedKeys := encryptedKeys w; providers := providers w;
     defaultProvider := defaultProvider w;
     encryptionAvailable := encryptionAvailable w;
     faults := faults w; console := console w |}.

Definition with_providerStore (b : bool) (w : World) : World :=
  {| store := store w; providerStore := b;
     encryptedKeys := encryptedKeys w; providers := providers w;
     defaultProvider := defaultProvider w;
     encryptionAvailable := encryptionAvailable w;
     faults := faults w; console := console w |}.

Definition with_encryptedKeys (k : gmap jsstring jsstring) (w : World) : World :=
  {| store := store w; providerStore := providerStore w;
     encryptedKeys := k; providers := providers w;
     defaultProvider := defaultProvider w;
     encryptionAvailable := encryptionAvailable w;
     faults := faults w; console := console w |}.

Definition with_providers (p : gmap jsstring ProviderConfig) (w : World) : World :=
  {| store := store w; providerStore := providerStore w;
     encryptedKeys := encryptedKeys w; providers := p;
     defaultProvider := defaultProvider w;
     encryptionAvailable := encryptionAvailable w;
     faults := faults w; console := console w |}.

Definition with_defaultProvider (d : option jsstring) (w : World) : World :=
  {| store := store w; providerStore := providerStore w;
     encryptedKeys := encryptedKeys w; providers := providers w;
     defaultProvider := d;
     encryptionAvailable := encryptionAvailable w;
     faults := faults w; console := console w |}.

Definition with_faults (f : list bool) (w : World) : World :=
  {| store := store w; providerStore := providerStore w;
     encryptedKeys := encryptedKeys w; providers := providers w;
     defaultProvider := defaultProvider w;
     encryptionAvailable := encryptionAvailable w;
     faults := f; console := console w |}.

Definition with_console (c : list LogEntry) (w : World) : World :=
  {| store := store w; providerStore := providerStore w;
     encryptedKeys := encryptedKeys w; providers := providers w;
     defaultProvider := defaultProvider w;
     encryptionAvailable := encryptionAvailable w;
     faults := faults w; console := c |}.

(** The state right after launch, on a machine with the given persisted
    data. *)
Definition launch (keys : gmap jsstring jsstring)
    (configs : gmap jsstring ProviderConfig) (default : option jsstring)
    (encryption : bool) (fs : list bool) : World :=
  {| store := false; providerStore := false;
     encryptedKeys := keys; providers := configs; defaultProvider := default;
     encryptionAvailable := encryption; faults := fs; console := [] |}.

(** One file-system operation. *)
Definition io : M World unit :=
  fun w =>
    match faults w with
    | [] => (Ok tt, w)
    | false :: fs => (Ok tt, with_faults fs w)
    | true :: fs => (Throw (mkError "file system error"), with_faults fs w)
    end.

Definition warn (text : string) : M World unit :=
  modify (fun w => with_console (console w ++ [console_warn text]) w).

Definition log_error (text : string) (error : JsError) : M World unit :=
  modify (fun w => with_console (console w ++ [console_error text error]) w).

(** electron's [safeStorage.encryptString] and [decryptString]; what they
    compute belongs to the platform. *)
Record SafeStorage := {
  encryptString : jsstring → Result Buffer;
  decryptString : Buffer → Result jsstring;
}.

(** JavaScript truthiness of a [string | undefined | null]. *)
Definition truthy (v : option jsstring) : bool :=
  match v with
  | Some (_ :: _) => true
  | _ => false
  end.

(** Truthiness of what a lookup in the key object found: an inherited
    member is a function or an object. *)
Definition truthy_value (v : option (Value jsstring)) : bool :=
  match v with
  | Some (own (_ :: _)) | Some (member _) => true
  | _ => false
  end.

(** The [TypeError] of [Buffer.from] for a first argument that is
    neither a string nor a buffer nor an array. *)
Definition TypeError_first_argument (received : string) : JsError :=
  mkError ("The first argument must be of type string or an instance of "
           ++ "Buffer, ArrayBuffer, or Array or an Array-like Object."
           ++ received).

(** [Buffer.from(v, 'base64')] for what a lookup in the key object
    found. *)
Definition Buffer_from_base64 (v : option (Value jsstring)) : Result Buffer :=
  match v with
  | Some (own s) => Ok (base64_decode s)
  | Some (member name) =>
      Throw (TypeError_first_argument
               (if bool_decide (name = js "__proto__")
                then " Received an instance of Object"
                else if bool_decide (name = js "constructor")
                then " Received function Object"
                else " Received function "
                     ++ string_of_list_byte (map byte_of_N name)))
  | None => Throw (TypeError_first_argument " Received undefined")
  end.

Section Functions.
Variable safeStorage : SafeStorage.

Definition getStore : M World unit :=
  s <- gets store ;;
  if negb s then (io ;; modify (with_store true)) else ret tt.

Definition getProviderStore : M World unit :=
  s <- gets providerStore ;;
  if negb s then (io ;; modify (with_providerStore true)) else ret tt.

(** [s.get('encryptedKeys')], [s.set('encryptedKeys', keys)] and the
    like on the two handles. *)
Definition get_encryptedKeys : M World (gmap jsstring jsstring) :=
  io ;; gets encryptedKeys.
Definition set_encryptedKeys (keys : gmap jsstring jsstring) : M World unit :=
  io ;; modify (with_encryptedKeys keys).
Definition get_providers : M World (gmap jsstring ProviderConfig) :=
  io ;; gets providers.
Definition set_providers (p : gmap jsstring ProviderConfig) : M World unit :=
  io ;; modify (with_providers p).
Definition get_defaultProvider : M World (option jsstring) :=
  io ;; gets defaultProvider.
Definition set_defaultProvider (providerId : jsstring) : M World unit :=
  io ;; modify (with_defaultProvider (Some providerId)).
Definition delete_defaultProvider : M World unit :=
  io ;; modify (with_defaultProvider None).

Definition isEncryptionAvailable : M World bool := gets encryptionAvailable.

Definition storeApiKey (providerId apiKey : jsstring) : M World bool :=
  try_catch
    (getStore ;;
     available <- isEncryptionAvailable ;;
     if negb available then
       warn "Encryption not available, storing key in plain text" ;;
       keys <- get_encryptedKeys ;;
       set_encryptedKeys
         (assign providerId (base64_encode (utf8_encode apiKey)) keys) ;;
       ret true
     else
       encrypted <- lift (encryptString safeStorage apiKey) ;;
       keys <- get_encryptedKeys ;;
       set_encryptedKeys (assign providerId (base64_encode encrypted) keys) ;;
       ret true)
    (fun error => log_error "Failed to store API key:" error ;; ret false).

Definition getApiKey (providerId : jsstring) : M World (option jsstring) :=
  try_catch
    (getStore ;;
     keys <- get_encryptedKeys ;;
     let encryptedBase64 := get keys providerId in
     if negb (truthy_value encryptedBase64) then ret None
     else
       available <- isEncryptionAvailable ;;
       if negb available then
         buffer <- lift (Buffer_from_base64 encryptedBase64) ;;
         ret (Some (utf8_decode buffer))
       else
         encrypted <- lift (Buffer_from_base64 encryptedBase64) ;;
         plain <- lift (decryptString safeStorage encrypted) ;;
         ret (Some plain))
    (fun error => log_error "Failed to retrieve API key:" error ;; ret None).

Definition deleteApiKey (providerId : jsstring) : M World bool :=
  try_catch
    (getStore ;;
     keys <- get_encryptedKeys ;;
     set_encryptedKeys (delete providerId keys) ;;
     ret true)
    (fun error => log_error "Failed to delete API key:" error ;; ret false).

Definition hasApiKey (providerId : jsstring) : M World bool :=
  getStore ;;
  keys <- get_encryptedKeys ;;
  ret (has keys providerId).

Definition listStoredKeyIds : M World (list jsstring) :=
  getStore ;;
  keys <- get_encryptedKeys ;;
  ret (Object_keys keys).

Definition saveProvider (config : ProviderConfig) : M World unit :=
  getProviderStore ;;
  ps <- get_providers ;;
  set_providers (assign (id config) config ps).

(** [providers[providerId] || null]: what the lookup finds is a config
    or an inherited member, both truthy. *)
Definition getProvider (providerId : jsstring)
    : M World (option (Value ProviderConfig)) :=
  getProviderStore ;;
  ps <- get_providers ;;
  ret (get ps providerId).

Definition getAllProviders : M World (list ProviderConfig) :=
  getProviderStore ;;
  ps <- get_providers ;;
  ret (Object_values ps).

Definition deleteProvider (providerId : jsstring) : M World bool :=
  try_catch
    (deleteApiKey providerId ;;
     getProviderStore ;;
     ps <- get_providers ;;
     set_providers (delete providerId ps) ;;
     d <- get_defaultProvider ;;
     (if bool_decide (d = Some providerId) then delete_defaultProvider
      else ret tt) ;;
     ret true)
    (fun error => log_error "Failed to delete provider:" error ;; ret false).

Definition setDefaultProvider (providerId : jsstring) : M World unit :=
  getProviderStore ;;
  set_defaultProvider providerId.

Definition getDefaultProvider : M World (option jsstring) :=
  getProviderStore ;;
  get_defaultProvider.

(** The block both [...WithKeyInfo] functions run on the retrieved key:
    [let keyMasked = null; if (apiKey) { if (apiKey.length > 12) ... }]. *)
Definition mask (apiKey : option jsstring) : option jsstring :=
  if truthy apiKey then
    let apiKey := default [] apiKey in
    if (12 <? length apiKey)%nat then
      Some (substring 0 4 apiKey
            ++ asterisks (length apiKey - 8)
            ++ substring_from (length apiKey - 4) apiKey)
    else Some (asterisks (length apiKey))
  else None.

Definition getProviderWithKeyInfo (providerId : jsstring)
    : M World (option KeyInfo) :=
  p <- getProvider providerId ;;
  match p with
  | None => ret None
  | Some p =>
      apiKey <- getApiKey providerId ;;
      ret (Some match p with
                | own p => for_config {| provider := p;
                                         hasKey := truthy apiKey;
                                         keyMasked := mask apiKey |}
                | member _ => for_member (truthy apiKey) (mask apiKey)
                end)
  end.

Definition getAllProvidersWithKeyInfo : M World (list ProviderWithKeyInfo) :=
  ps <- getAllProviders ;;
  for_of ps (fun p =>
    apiKey <- getApiKey (id p) ;;
    ret {| provider := p; hasKey := truthy apiKey;
           keyMasked := mask apiKey |}).

End Functions.

(** *** Vocabulary for the properties below *)

(** The platform cipher handles the plaintext [s]: encryption yields a
    ciphertext, which is not empty and decrypts to [s]. *)
Definition cipher_ok (safeStorage : SafeStorage) (s : jsstring) : Prop :=
  ∃ c, encryptString safeStorage s = Ok c ∧ c ≠ []
       ∧ decryptString safeStorage c = Ok s.

(** Decrypting what encryption made of [s] does not yield anything but
    [s]. *)
Definition cipher_sound (safeStorage : SafeStorage) (s : jsstring) : Prop :=
  ∀ c p, encryptString safeStorage s = Ok c →
         decryptString safeStorage c = Ok p → p = s.

(** What [getApiKey] makes of the value stored for an id when nothing
    fails on the way to it. *)
Definition retrieved (ss : SafeStorage) (w : World) (providerId : jsstring)
    : option jsstring :=
  let encryptedBase64 := encryptedKeys w !! providerId in
  if negb (truthy encryptedBase64) then None
  else if negb (encryptionAvailable w) then
    Some (utf8_decode (base64_decode (default [] encryptedBase64)))
  else match decryptString ss (base64_decode (default [] encryptedBase64)) with
       | Ok plain => Some plain
       | Throw _ => None
       end.

(** The record the UI gets for a config and what is stored for an id. *)
Definition key_info (ss : SafeStorage) (w : World) (p : ProviderConfig)
    (providerId : jsstring) : ProviderWithKeyInfo :=
  {| provider := p;
     hasKey := truthy (retrieved ss w providerId);
     keyMasked := mask (retrieved ss w providerId) |}.

(** What [getProviderWithKeyInfo] makes of an id when nothing fails. *)
Definition shown_for (ss : SafeStorage) (w : World) (providerId : jsstring)
    : option KeyInfo :=
  match get (providers w) providerId with
  | Some (own p) => Some (for_config (key_info ss w p providerId))
  | Some (member _) =>
      Some (for_member (truthy (retrieved ss w providerId))
              (mask (retrieved ss w providerId)))
  | None => None
  end.

(** One of the next [n] operations on the file system fails. *)
Definition fails (n : nat) (w : World) : bool :=
  bool_decide (true ∈ take n (faults w)).

(** The operations it takes to have a store handle: one when it is yet
    to be created. *)
Definition opening (handle : bool) : nat := if handle then 0 else 1.

(** Storing and then reading back yields what was stored. *)
Definition round_trip (ss : SafeStorage) (w : World)
    (providerId apiKey : jsstring) : Prop :=
  fst (getApiKey ss providerId (snd (storeApiKey ss providerId apiKey w)))
  = Ok (Some apiKey).

(** [w'] is [w] up to the store handles and the console: nothing
    persisted differs, and neither do the platform and the pending
    faults. *)
Definition unchanged (w w' : World) : Prop :=
  encryptedKeys w' = encryptedKeys w ∧ providers w' = providers w
  ∧ defaultProvider w' = defaultProvider w
  ∧ encryptionAvailable w' = encryptionAvailable w
  ∧ faults w' = faults w.

End SecureStorage.

(* ===================================================================== *)
(** ** electron/main/updater.ts                                           *)
(* ===================================================================== *)

Module Updater.
Import Js.
Local Open Scope js_scope.
#[local] Set Implicit Arguments.

(** The [status] field of [UpdateStatus]; ['not-available'] and ['error']
    are spelled [not_available] and [errored]. *)
Inductive Status :=
| idle | checking | available | not_available
| downloading | downloaded | errored.

Inductive Channel := stable | beta | dev.

Section Controller.
(** Types of electron-updater.  [UpdateDownloadedEvent] extends
    [UpdateInfo]; [event_info] is that upcast.  [UpdateCheckResult] has
    a field [updateInfo]. *)
Variables UpdateInfo ProgressInfo UpdateDownloadedEvent UpdateCheckResult : Type.
Variable event_info : UpdateDownloadedEvent → UpdateInfo.
Variable updateInfo : UpdateCheckResult → UpdateInfo.

Record UpdateStatus := {
  status : Status;
  info : option UpdateInfo;
  progress : option ProgressInfo;
  error : option string;
}.

(** [Partial<UpdateStatus>]: [None] is a property the object literal
    does not have. *)
Record PartialUpdateStatus := {
  new_status : option Status;
  new_info : option UpdateInfo;
  new_progress : option ProgressInfo;
  new_error : option string;
}.

(** [{ ...old, ...new }] *)
Definition spread (old : UpdateStatus) (new : PartialUpdateStatus) : UpdateStatus :=
  {| status := default (status old) (new_status new);
     info := match new_info new with Some i => Some i | None => info old end;
     progress := match new_progress new with
                 | Some p => Some p
                 | None => progress old
                 end;
     error := match new_error new with Some e => Some e | None => error old end |}.

(** What [autoUpdater] emits. *)
Inductive UpdaterEvent :=
| checking_for_update
| update_available (i : UpdateInfo)
| update_not_available (i : UpdateInfo)
| download_progress (p : ProgressInfo)
| update_downloaded (e : UpdateDownloadedEvent)
| error_event (e : JsError).

Record BrowserWindow := { isDestroyed : bool }.

Inductive Payload :=
| no_payload
| status_payload (s : UpdateStatus)
| info_payload (i : UpdateInfo)
| progress_payload (p : ProgressInfo)
| downloaded_payload (e : UpdateDownloadedEvent)
| text_payload (s : string).

(** What a step makes visible outside the controller. *)
Inductive Output :=
| send (channel : string) (data : Payload)   (* webContents.send *)
| emit (e : UpdaterEvent)                    (* this.emit *)
| log (text : string) (e : JsError).         (* console.error *)

(** The [AppUpdater] instance, the settings of [autoUpdater] it writes,
    and the outputs so far. *)
Record AppUpdater := {
  mainWindow : option BrowserWindow;
  current : UpdateStatus;
  autoDownload : bool;
  autoInstallOnAppQuit : bool;
  channel : option Channel;
  version : string;
  outputs : list Output;
}.

Definition with_mainWindow (w : option BrowserWindow) (u : AppUpdater) : AppUpdater :=
  {| mainWindow := w; current := current u; autoDownload := autoDownload u;
     autoInstallOnAppQuit := autoInstallOnAppQuit u; channel := channel u;
     version := version u; outputs := outputs u |}.

Definition with_current (s : UpdateStatus) (u : AppUpdater) : AppUpdater :=
  {| mainWindow := mainWindow u; current := s; autoDownload := autoDownload u;
     autoInstallOnAppQuit := autoInstallOnAppQuit u; channel := channel u;
     version := version u; outputs := outputs u |}.

Definition with_autoDownload (b : bool) (u : AppUpdater) : AppUpdater :=
  {| mainWindow := mainWindow u; current := current u; autoDownload := b;
     autoInstallOnAppQuit := autoInstallOnAppQuit u; channel := channel u;
     version := version u; outputs := outputs u |}.

Definition with_channel (c : Channel) (u : AppUpdater) : AppUpdater :=
  {| mainWindow := mainWindow u; current := current u;
     autoDownload := autoDownload u;
     autoInstallOnAppQuit := autoInstallOnAppQuit u; channel := Some c;
     version := version u; outputs := outputs u |}.

Definition output (o : Output) : M AppUpdater unit :=
  modify (fun u =>
    {| mainWindow := mainWindow u; current := current u;
       autoDownload := autoDownload u;
       autoInstallOnAppQuit := autoInstallOnAppQuit u; channel := channel u;
       version := version u;
       outputs := outputs u ++ [o] |}).

(** [new AppUpdater()] in an application of version [v]. *)
Definition constructor (v : string) : AppUpdater :=
  {| mainWindow := None;
     current := {| status := idle; info := None; progress := None;
                   error := None |};
     autoDownload := false; autoInstallOnAppQuit := true; channel := None;
     version := v; outputs := [] |}.

Definition setMainWindow (window : BrowserWindow) : M AppUpdater unit :=
  modify (with_mainWindow (Some window)).

Definition getStatus : M AppUpdater UpdateStatus := gets current.

Definition sendToRenderer (channel : string) (data : Payload) : M AppUpdater unit :=
  w <- gets mainWindow ;;
  match w with
  | Some window =>
      if negb (isDestroyed window) then output (send channel data) else ret tt
  | None => ret tt
  end.

Definition updateStatus (newStatus : PartialUpdateStatus) : M AppUpdater unit :=
  modify (fun u => with_current (spread (current u) newStatus) u) ;;
  s <- gets current ;;
  sendToRenderer "update:status-changed" (status_payload s).

Definition just (s : Status) : PartialUpdateStatus :=
  {| new_status := Some s; new_info := None; new_progress := None;
     new_error := None |}.

(** The listeners [setupListeners] installs on [autoUpdater], by event.
    [this.emit] hands the event to the listeners that
    [registerUpdateHandlers] attaches ([forward] below) and returns.
    Before they are attached, [this.emit('error', error)] finds no
    listener and throws [error], after the status record was updated;
    that throw is not part of the model. *)
Definition listener (e : UpdaterEvent) : M AppUpdater unit :=
  match e with
  | checking_for_update =>
      updateStatus (just checking) ;; output (emit e)
  | update_available i =>
      updateStatus {| new_status := Some available; new_info := Some i;
                      new_progress := None; new_error := None |} ;;
      output (emit e)
  | update_not_available i =>
      updateStatus {| new_status := Some not_available; new_info := Some i;
                      new_progress := None; new_error := None |} ;;
      output (emit e)
  | download_progress p =>
      updateStatus {| new_status := Some downloading; new_info := None;
                      new_progress := Some p; new_error := None |} ;;
      output (emit e)
  | update_downloaded ev =>
      updateStatus {| new_status := Some downloaded;
                      new_info := Some (event_info ev);
                      new_progress := None; new_error := None |} ;;
      output (emit e)
  | error_event err =>
      updateStatus {| new_status := Some errored; new_info := None;
                      new_progress := None;
                      new_error := Some (message err) |} ;;
      output (emit e)
  end.

(** One call into [autoUpdater] as the controller sees it: the events
    emitted while the call is pending, then the value the promise
    resolves with or the error it rejects with. *)
Record Call (A : Type) := {
  emitted : list UpdaterEvent;
  settled : Result A;
}.

Definition await {A} (c : Call A) : M AppUpdater A :=
  for_of (emitted c) listener ;; lift (settled c).

Definition checkForUpdates (c : Call (option UpdateCheckResult))
    : M AppUpdater (option UpdateInfo) :=
  try_catch
    (result <- await c ;;
     ret (option_map updateInfo result))
    (fun error =>
       output (log "[Updater] Check for updates failed:" error) ;;
       ret None).

Definition downloadUpdate (c : Call unit) : M AppUpdater unit :=
  try_catch
    (await c)
    (fun error =>
       output (log "[Updater] Download update failed:" error) ;;
       throw error).

(** [autoUpdater.quitAndInstall()] may emit events before it returns
    (an [error] when no update has been downloaded); whether the
    application then quits is the updater's business. *)
Definition quitAndInstall (c : Call unit) : M AppUpdater unit := await c.

Definition setChannel (c : Channel) : M AppUpdater unit :=
  modify (with_channel c).

Definition setAutoDownload (enable : bool) : M AppUpdater unit :=
  modify (with_autoDownload enable).

Definition getCurrentVersion : M AppUpdater string := gets version.

(** *** [registerUpdateHandlers]

    It attaches the window, installs the handlers of the request channel
    ([handle] below, by request) and the listeners that forward the
    controller's events to the renderer ([forward] below, by event). *)

Definition registerUpdateHandlers (mainWindow : BrowserWindow)
    : M AppUpdater unit :=
  setMainWindow mainWindow.

Inductive Request :=
| update_status
| update_version
| update_check (c : Call (option UpdateCheckResult))
| update_download (c : Call unit)
| update_install (c : Call unit)
| update_setChannel (c : Channel)
| update_setAutoDownload (enable : bool).

Inductive Reply :=
| reply_status (s : UpdateStatus)
| reply_version (v : string)
| reply_check (success : bool) (i : option UpdateInfo)  (* { success, info } *)
| reply_done (success : bool)                           (* { success } *)
| reply_failed (success : bool) (e : JsError).          (* { success, error } *)

Definition success (r : Reply) : option bool :=
  match r with
  | reply_check s _ | reply_done s | reply_failed s _ => Some s
  | _ => None
  end.

Definition handle (r : Request) : M AppUpdater Reply :=
  match r with
  | update_status => s <- getStatus ;; ret (reply_status s)
  | update_version => v <- getCurrentVersion ;; ret (reply_version v)
  | update_check c =>
      try_catch
        (i <- checkForUpdates c ;; ret (reply_check true i))
        (fun error => ret (reply_failed false error))
  | update_download c =>
      try_catch
        (downloadUpdate c ;; ret (reply_done true))
        (fun error => ret (reply_failed false error))
  | update_install c => quitAndInstall c ;; ret (reply_done true)
  | update_setChannel c => setChannel c ;; ret (reply_done true)
  | update_setAutoDownload enable =>
      setAutoDownload enable ;; ret (reply_done true)
  end.

(** The listeners [registerUpdateHandlers] installs on the controller:
    what an emitted event becomes on the notification channel. *)
Definition forward (mainWindow : BrowserWindow) (e : UpdaterEvent)
    : option Output :=
  if isDestroyed mainWindow then None
  else Some match e with
            | checking_for_update => send "update:checking" no_payload
            | update_available i => send "update:available" (info_payload i)
            | update_not_available i =>
                send "update:not-available" (info_payload i)
            | download_progress p =>
                send "update:progress" (progress_payload p)
            | update_downloaded ev =>
                send "update:downloaded" (downloaded_payload ev)
            | error_event err =>
                send "update:error" (text_payload (message err))
            end.

(** The controller after a run of events, from the listeners alone. *)
Definition after (events : list UpdaterEvent) (u : AppUpdater) : AppUpdater :=
  snd (for_of events listener u).

(** There is a window to send to. *)
Definition live (u : AppUpdater) : bool :=
  match mainWindow u with
  | Some window => negb (isDestroyed window)
  | None => false
  end.

(** The latest progress payload in a run of events, if any. *)
Definition last_progress (events : list UpdaterEvent) : option ProgressInfo :=
  fold_left (fun acc e => match e with
                          | download_progress p => Some p
                          | _ => acc
                          end) events None.

(** The statuses a run of events goes through, one per event. *)
Fixpoint visited (events : list UpdaterEvent) (u : AppUpdater) : list Status :=
  match events with
  | [] => []
  | e :: events' =>
      let u' := snd (listener e u) in
      status (current u') :: visited events' u'
  end.

(** The events [autoUpdater] emits while a request is served. *)
Definition events_of (r : Request) : list UpdaterEvent :=
  match r with
  | update_check c => emitted c
  | update_download c => emitted c
  | update_install c => emitted c
  | _ => []
  end.

(** *** The state machine of the design document

    Written from section 4.2 of the document, to be compared with the
    listeners above. *)

Inductive Trigger :=
| check | found_update | none_found | download_requested
| progress_events | complete | failure.

Inductive specified : Status → Trigger → Status → Prop :=
| idle_check : specified idle check checking
| not_available_check : specified not_available check checking
| error_check : specified errored check checking
| checking_found : specified checking found_update available
| checking_none : specified checking none_found not_available
| available_download : specified available download_requested downloading
| downloading_progress : specified downloading progress_events downloading
| downloading_complete : specified downloading complete downloaded
| any_failure s : specified s failure errored.

(** What the document calls each event. *)
Definition trigger_of (e : UpdaterEvent) : Trigger :=
  match e with
  | checking_for_update => check
  | update_available _ => found_update
  | update_not_available _ => none_found
  | download_progress _ => progress_events
  | update_downloaded _ => complete
  | error_event _ => failure
  end.

End Controller.

Arguments checking_for_update {UpdateInfo ProgressInfo UpdateDownloadedEvent}.
Arguments error_event {UpdateInfo ProgressInfo UpdateDownloadedEvent} e.
Arguments download_progress {UpdateInfo ProgressInfo UpdateDownloadedEvent} p.
Arguments update_downloaded {UpdateInfo ProgressInfo UpdateDownloadedEvent} e.
Arguments update_available {UpdateInfo ProgressInfo UpdateDownloadedEvent} i.
Arguments update_not_available {UpdateInfo ProgressInfo UpdateDownloadedEvent} i.
Arguments no_payload {UpdateInfo ProgressInfo UpdateDownloadedEvent}.
Arguments text_payload {UpdateInfo ProgressInfo UpdateDownloadedEvent} s.
Arguments status_payload {UpdateInfo ProgressInfo UpdateDownloadedEvent} s.
Arguments send {UpdateInfo ProgressInfo UpdateDownloadedEvent} channel data.
Arguments log {UpdateInfo ProgressInfo UpdateDownloadedEvent} text e.
Arguments constructor {UpdateInfo ProgressInfo UpdateDownloadedEvent} v.
Arguments just {UpdateInfo ProgressInfo} s.
Arguments update_status {UpdateInfo ProgressInfo UpdateDownloadedEvent UpdateCheckResult}.
Arguments update_version {UpdateInfo ProgressInfo UpdateDownloadedEvent UpdateCheckResult}.
Arguments update_install {UpdateInfo ProgressInfo UpdateDownloadedEvent UpdateCheckResult} c.
Arguments update_setChannel {UpdateInfo ProgressInfo UpdateDownloadedEvent UpdateCheckResult} c.
Arguments update_setAutoDownload {UpdateInfo ProgressInfo UpdateDownloadedEvent UpdateCheckResult} enable.
Arguments update_download {UpdateInfo ProgressInfo UpdateDownloadedEvent UpdateCheckResult} c.
Arguments reply_version {UpdateInfo ProgressInfo} v.
Arguments reply_done {UpdateInfo ProgressInfo} success.
Arguments reply_failed {UpdateInfo ProgressInfo} success e.
Arguments reply_check {UpdateInfo ProgressInfo} success i.

End Updater.

(* ===================================================================== *)
(** ** Sample data                                                        *)
(* ===================================================================== *)

Module Fixtures.
Import Node Js.
Local Open Scope string_scope.

(** A stand-in for the platform cipher: a version byte, then the UTF-8
    text; anything without the version byte fails to decrypt. *)
Definition cipher : SecureStorage.SafeStorage :=
  {| SecureStorage.encryptString := fun s => Ok ("118"%byte :: utf8_encode s);
     SecureStorage.decryptString := fun b =>
       match b with
       | "118"%byte :: rest => Ok (utf8_decode rest)
       | _ => Throw (mkError "Error while decrypting the ciphertext")
       end |}.

Definition anthropic_1 : SecureStorage.ProviderConfig :=
  {| SecureStorage.id := js "anthropic-1";
     SecureStorage.name := js "Anthropic";
     SecureStorage.type := SecureStorage.anthropic;
     SecureStorage.baseUrl := None;
     SecureStorage.model := None;
     SecureStorage.enabled := true;
     SecureStorage.createdAt := js "2026-01-01T00:00:00.000Z";
     SecureStorage.updatedAt := js "2026-01-01T00:00:00.000Z" |}.

(** A fresh installation, with and without platform encryption. *)
Definition fresh (encryption : bool) : SecureStorage.World :=
  SecureStorage.launch ∅ ∅ None encryption [].

(** One configured provider, which is the default, and its key
    ["sk-test-1234567890"] in the base64 fallback. *)
Definition configured (fs : list bool) : SecureStorage.World :=
  SecureStorage.launch
    {[ js "anthropic-1" := js "c2stdGVzdC0xMjM0NTY3ODkw" ]}
    {[ js "anthropic-1" := anthropic_1 ]}
    (Some (js "anthropic-1")) false fs.

(** electron-updater's types, cut down to what the samples need: an
    [UpdateInfo] is its version, a [ProgressInfo] its percentage, an
    [UpdateDownloadedEvent] the version downloaded, an [UpdateCheckResult]
    the version found. *)
Definition controller (window : option Updater.BrowserWindow)
    (s : Updater.UpdateStatus string N)
    : Updater.AppUpdater string N string :=
  Updater.with_current s
    (Updater.with_mainWindow window (Updater.constructor "0.1.0")).

Definition open_window : Updater.BrowserWindow :=
  {| Updater.isDestroyed := false |}.
Definition closed_window : Updater.BrowserWindow :=
  {| Updater.isDestroyed := true |}.

Definition at_status (s : Updater.Status) : Updater.UpdateStatus string N :=
  {| Updater.status := s; Updater.info := None; Updater.progress := None;
     Updater.error := None |}.

(** A download that fails at once. *)
Definition failing_download : Updater.Call string N string unit :=
  {| Updater.emitted := [Updater.error_event (mkError "net::ERR_FAILED")];
     Updater.settled := Throw (mkError "net::ERR_FAILED") |}.

(** A download served from the cache: no progress is reported. *)
Definition cached_download : Updater.Call string N string unit :=
  {| Updater.emitted := [Updater.update_downloaded "0.2.0"];
     Updater.settled := Ok tt |}.

(** An install requested with no update downloaded: the updater reports
    an error and returns. *)
Definition premature_install : Updater.Call string N string unit :=
  {| Updater.emitted :=
       [Updater.error_event
          (mkError "No valid update available, can't quit and install")];
     Updater.settled := Ok tt |}.

(** A check that fails. *)
Definition failing_check : Updater.Call string N string (option string) :=
  {| Updater.emitted := [Updater.checking_for_update;
                         Updater.error_event (mkError "net::ERR_FAILED")];
     Updater.settled := Throw (mkError "net::ERR_FAILED") |}.

End Fixtures.

(* ===================================================================== *)
(** ** The key shown on a provider card                                   *)
(* ===================================================================== *)

(** The settings page of the renderer (ProvidersSettings), as far as it
    renders what [getProviderWithKeyInfo] returned. *)
Module ProvidersSettings.
Import Node SecureStorage.

Definition shortenKeyDisplay (masked : option jsstring) : jsstring :=
  if negb (truthy masked) then js "No key"
  else
    let masked := default [] masked in
    if (12 <? length masked)%nat then
      let prefix := substring 0 4 masked in
      let suffix := substring_from (length masked - 4) masked in
      prefix ++ js "..." ++ suffix
    else masked.

(** [provider.hasKey ? shortenKeyDisplay(provider.keyMasked)
                     : 'No API key set'] *)
Definition key_label (provider : KeyInfo) : jsstring :=
  if has_key provider then shortenKeyDisplay (key_masked provider)
  else js "No API key set".

End ProvidersSettings.

(** What surrounds the credential store and may change between two
    calls. *)
Module Environment.
Import Js SecureStorage.


(** What the two stores persist. *)
Definition persisted (w : World)
    : gmap Node.jsstring Node.jsstring
      * gmap Node.jsstring ProviderConfig * option Node.jsstring :=
  (encryptedKeys w, providers w, defaultProvider w).

(** Every config is stored under its own id. *)
Definition own_ids (w : World) : Prop :=
  ∀ k p, providers w !! k = Some p → id p = k.

(** A cipher that fails to encrypt. *)
Definition failing_cipher : SafeStorage :=
  {| encryptString := fun _ => Throw (mkError "Error while encrypting");
     decryptString := fun _ => Throw (mkError "Error while decrypting") |}.

End Environment.

(* ===================================================================== *)
(** ** What reaches the renderer                                          *)
(* ===================================================================== *)

(** The controller with the listeners of [registerUpdateHandlers]
    attached.  [this.emit] runs the listeners registered for the event at
    once: an emitted event becomes what [forward] makes of it.  What
    [console.error] prints stays in the main process. *)
Module Ipc.
Import Js Updater.
#[local] Set Implicit Arguments.

Section Dispatch.
Variables UpdateInfo ProgressInfo UpdateDownloadedEvent : Type.

(** The calls of [webContents.send], in order, among the outputs of a
    controller registered with [window]. *)
Definition sent (window : BrowserWindow)
    (outs : list (Output UpdateInfo ProgressInfo UpdateDownloadedEvent))
    : list (Output UpdateInfo ProgressInfo UpdateDownloadedEvent) :=
  flat_map (fun o => match o with
                     | send _ _ => [o]
                     | emit e => option_list (forward window e)
                     | log _ _ => []
                     end) outs.

(** The latest error message in a run of events, if any. *)
Definition last_error (events : list (UpdaterEvent UpdateInfo ProgressInfo
                                        UpdateDownloadedEvent))
    (before : option string) : option string :=
  fold_left (fun acc e => match e with
                          | error_event err => Some (message err)
                          | _ => acc
                          end) events before.

End Dispatch.

Section Info.
Variables UpdateInfo ProgressInfo UpdateDownloadedEvent : Type.
Variable event_info : UpdateDownloadedEvent → UpdateInfo.

(** The latest update info in a run of events, if any. *)
Definition last_info (events : list (UpdaterEvent UpdateInfo ProgressInfo
                                       UpdateDownloadedEvent))
    (before : option UpdateInfo) : option UpdateInfo :=
  fold_left (fun acc e => match e with
                          | update_available i => Some i
                          | update_not_available i => Some i
                          | update_downloaded ev => Some (event_info ev)
                          | _ => acc
                          end) events before.

(** What a run of events sends to an open window: for each event the
    merged status record, then the event itself. *)
Fixpoint notified (window : BrowserWindow)
    (events : list (UpdaterEvent UpdateInfo ProgressInfo
                      UpdateDownloadedEvent))
    (u : AppUpdater UpdateInfo ProgressInfo UpdateDownloadedEvent)
    : list (Output UpdateInfo ProgressInfo UpdateDownloadedEvent) :=
  match events with
  | [] => []
  | e :: events' =>
      let u' := snd (listener event_info e u) in
      send "update:status-changed" (status_payload (current u'))
        :: option_list (forward window e) ++ notified window events' u'
  end.

End Info.

(** What a request leaves on the console when the call it makes into
    [autoUpdater] rejects. *)
Definition failure_log {UpdateInfo ProgressInfo UpdateDownloadedEvent
                        UpdateCheckResult}
    (r : Request UpdateInfo ProgressInfo UpdateDownloadedEvent
           UpdateCheckResult)
    : list (Output UpdateInfo ProgressInfo UpdateDownloadedEvent) :=
  match r with
  | update_check c =>
      match settled c with
      | Throw e => [log "[Updater] Check for updates failed:" e]
      | Ok _ => []
      end
  | update_download c =>
      match settled c with
      | Throw e => [log "[Updater] Download update failed:" e]
      | Ok _ => []
      end
  | _ => []
  end.

End Ipc.

(* ===================================================================== *)
(** ** The update store of the renderer                                   *)
(* ===================================================================== *)

(** The zustand store [useUpdateStore]: the state the settings page
    renders, the listeners [init] installs on the notification channel
    and the actions that send a request.  What the store prints with
    [console.error] is left out. *)
Module UpdateStore.
Import Js.
#[local] Set Implicit Arguments.

Section Store.
Variables UpdateInfo ProgressInfo UpdateDownloadedEvent : Type.
(** [UpdateDownloadedEvent] read as an [UpdateInfo]. *)
Variable event_info : UpdateDownloadedEvent → UpdateInfo.
(** [String(error)]. *)
Variable String_of : JsError → string.

Record UpdateState := {
  status : Updater.Status;
  currentVersion : string;
  updateInfo : option UpdateInfo;
  progress : option ProgressInfo;
  error : option string;
  isInitialized : bool;
}.

(** [set({ field: v })], field by field. *)
Definition with_status (v : Updater.Status) (s : UpdateState) : UpdateState :=
  {| status := v; currentVersion := currentVersion s;
     updateInfo := updateInfo s; progress := progress s; error := error s;
     isInitialized := isInitialized s |}.

Definition with_currentVersion (v : string) (s : UpdateState) : UpdateState :=
  {| status := status s; currentVersion := v;
     updateInfo := updateInfo s; progress := progress s; error := error s;
     isInitialized := isInitialized s |}.

Definition with_updateInfo (v : option UpdateInfo) (s : UpdateState) : UpdateState :=
  {| status := status s; currentVersion := currentVersion s;
     updateInfo := v; progress := progress s; error := error s;
     isInitialized := isInitialized s |}.

Definition with_progress (v : option ProgressInfo) (s : UpdateState) : UpdateState :=
  {| status := status s; currentVersion := currentVersion s;
     updateInfo := updateInfo s; progress := v; error := error s;
     isInitialized := isInitialized s |}.

Definition with_error (v : option string) (s : UpdateState) : UpdateState :=
  {| status := status s; currentVersion := currentVersion s;
     updateInfo := updateInfo s; progress := progress s; error := v;
     isInitialized := isInitialized s |}.

Definition with_isInitialized (v : bool) (s : UpdateState) : UpdateState :=
  {| status := status s; currentVersion := currentVersion s;
     updateInfo := updateInfo s; progress := progress s; error := error s;
     isInitialized := v |}.

(** The state the store is created with. *)
Definition initial : UpdateState :=
  {| status := Updater.idle; currentVersion := "0.0.0"; updateInfo := None;
     progress := None; error := None; isInitialized := false |}.

(** [text || null]: the empty string is falsy. *)
Definition or_null (text : option string) : option string :=
  match text with
  | Some EmptyString => None
  | _ => text
  end.

(** [text || fallback]. *)
Definition or_else (text : option string) (fallback : string) : string :=
  match text with
  | Some (String c rest) => String c rest
  | _ => fallback
  end.

(** What [init] and the listener of [update:status-changed] do with a
    status record of the main process. *)
Definition mirror (record : Updater.UpdateStatus UpdateInfo ProgressInfo)
    (s : UpdateState) : UpdateState :=
  with_status (Updater.status record)
    (with_updateInfo (Updater.info record)
       (with_progress (Updater.progress record)
          (with_error (or_null (Updater.error record)) s))).

(** The listeners [init] installs, by channel.  The data is what the
    main process sends on the channel; a listener given data of another
    shape is outside this model ([None]).  A channel without a listener
    changes nothing. *)
Definition receive (channel : string)
    (data : Updater.Payload UpdateInfo ProgressInfo UpdateDownloadedEvent)
    (s : UpdateState) : option UpdateState :=
  if String.eqb channel "update:status-changed" then
    match data with
    | Updater.status_payload record => Some (mirror record s)
    | _ => None
    end
  else if String.eqb channel "update:checking" then
    Some (with_status Updater.checking (with_error None s))
  else if String.eqb channel "update:available" then
    match data with
    | Updater.info_payload _ _ i =>
        Some (with_status Updater.available (with_updateInfo (Some i) s))
    | _ => None
    end
  else if String.eqb channel "update:not-available" then
    Some (with_status Updater.not_available s)
  else if String.eqb channel "update:progress" then
    match data with
    | Updater.progress_payload _ _ p =>
        Some (with_status Updater.downloading (with_progress (Some p) s))
    | _ => None
    end
  else if String.eqb channel "update:downloaded" then
    match data with
    | Updater.downloaded_payload _ _ ev =>
        Some (with_status Updater.downloaded
                (with_updateInfo (Some (event_info ev))
                   (with_progress None s)))
    | _ => None
    end
  else if String.eqb channel "update:error" then
    match data with
    | Updater.text_payload text =>
        Some (with_status Updater.errored
                (with_error (Some text) (with_progress None s)))
    | _ => None
    end
  else Some s.

(** Messages arriving in order.  The listeners are installed in the
    step of [init] that sets [isInitialized]; before that a message finds
    no listener. *)
Fixpoint receive_all
    (messages : list (Updater.Output UpdateInfo ProgressInfo
                        UpdateDownloadedEvent))
    (s : UpdateState) : option UpdateState :=
  match messages with
  | [] => Some s
  | Updater.send channel data :: rest =>
      if isInitialized s then
        match receive channel data s with
        | Some s' => receive_all rest s'
        | None => None
        end
      else receive_all rest s
  | _ :: rest => receive_all rest s
  end.

(** [init], given how the two requests it sends are settled.  A reply
    of another shape than the handler's is outside this model. *)
Definition init
    (version status : Result (Updater.Reply UpdateInfo ProgressInfo))
    (s : UpdateState) : option UpdateState :=
  if isInitialized s then Some s
  else
    let s1 := match version with
              | Ok (Updater.reply_version v) => Some (with_currentVersion v s)
              | Ok _ => None
              | Throw _ => Some s
              end in
    let s2 := match s1, status with
              | Some s1, Ok (Updater.reply_status record) =>
                  Some (mirror record s1)
              | Some s1, Throw _ => Some s1
              | _, _ => None
              end in
    option_map (with_isInitialized true) s2.

(** [result.success], as a condition. *)
Definition result_success (result : Updater.Reply UpdateInfo ProgressInfo)
    : bool :=
  match Updater.success result with
  | Some b => b
  | None => false
  end.

(** [result.error]: the handlers put [String(error)] there. *)
Definition result_error (result : Updater.Reply UpdateInfo ProgressInfo)
    : option string :=
  match result with
  | Updater.reply_failed _ e => Some (String_of e)
  | Updater.reply_status record => Updater.error record
  | _ => None
  end.

(** What [checkForUpdates] and [downloadUpdate] do once the request is
    settled. *)
Definition settle (fallback : string)
    (result : Result (Updater.Reply UpdateInfo ProgressInfo))
    (s : UpdateState) : UpdateState :=
  match result with
  | Ok result =>
      if negb (result_success result) then
        with_status Updater.errored
          (with_error (Some (or_else (result_error result) fallback)) s)
      else s
  | Throw e =>
      with_status Updater.errored (with_error (Some (String_of e)) s)
  end.

(** The actions that wait for a reply.  [invoke] is the request: while
    it is pending the listeners above may run, then it is settled. *)
Definition checkForUpdates
    (invoke : UpdateState
              → Result (Updater.Reply UpdateInfo ProgressInfo) * UpdateState)
    (s : UpdateState) : UpdateState :=
  let s := with_status Updater.checking (with_error None s) in
  let (result, s) := invoke s in
  settle "Failed to check for updates" result s.

Definition downloadUpdate
    (invoke : UpdateState
              → Result (Updater.Reply UpdateInfo ProgressInfo) * UpdateState)
    (s : UpdateState) : UpdateState :=
  let s := with_status Updater.downloading (with_error None s) in
  let (result, s) := invoke s in
  settle "Failed to download update" result s.

Definition clearError (s : UpdateState) : UpdateState :=
  with_status Updater.idle (with_error None s).

(** The state after an event, as the theorems below give it: the record
    of the main process, with the progress cleared by a finished or
    failed download and the error cleared by a check. *)
Definition shown
    (e : Updater.UpdaterEvent UpdateInfo ProgressInfo UpdateDownloadedEvent)
    (record : Updater.UpdateStatus UpdateInfo ProgressInfo)
    (s : UpdateState) : UpdateState :=
  {| status := Updater.status record;
     currentVersion := currentVersion s;
     updateInfo := Updater.info record;
     progress := match e with
                 | Updater.update_downloaded _ | Updater.error_event _ => None
                 | _ => Updater.progress record
                 end;
     error := match e with
              | Updater.checking_for_update => None
              | Updater.error_event err => Some (message err)
              | _ => or_null (Updater.error record)
              end;
     isInitialized := isInitialized s |}.

End Store.

Arguments initial {UpdateInfo ProgressInfo}.

End UpdateStore.

(* ===================================================================== *)
(** ** The update page                                                    *)
(* ===================================================================== *)

(** The component [UpdateSettings], as far as it decides what to show
    from the state of the store. *)
Module UpdateSettings.
Import Js UpdateStore.
#[local] Set Implicit Arguments.

Section Page.
Variables UpdateInfo ProgressInfo : Type.
(** The field [version] of an [UpdateInfo]. *)
Variable version_of : UpdateInfo → string.

(** [`v${updateInfo?.version}`] *)
Definition version_text (i : option UpdateInfo) : string :=
  ("v" ++ match i with
          | Some i => version_of i
          | None => "undefined"
          end)%string.

Definition renderStatusText (s : UpdateState UpdateInfo ProgressInfo)
    : string :=
  match status s with
  | Updater.checking => "Checking for updates..."
  | Updater.downloading => "Downloading update..."
  | Updater.available =>
      ("Update available: " ++ version_text (updateInfo s))%string
  | Updater.downloaded =>
      ("Ready to install: " ++ version_text (updateInfo s))%string
  | Updater.errored => or_else (error s) "Update check failed"
  | Updater.not_available => "You have the latest version"
  | Updater.idle => "Check for updates to get the latest features"
  end.

(** The progress the page shows, if it shows the progress panel:
    [status === 'downloading' && progress]. *)
Definition progress_panel (s : UpdateState UpdateInfo ProgressInfo)
    : option ProgressInfo :=
  match status s with
  | Updater.downloading => progress s
  | _ => None
  end.

(** The text of the error panel, if it is shown:
    [status === 'error' && error]. *)
Definition error_panel (s : UpdateState UpdateInfo ProgressInfo)
    : option string :=
  match status s with
  | Updater.errored => or_null (error s)
  | _ => None
  end.

End Page.

End UpdateSettings.

(* ===================================================================== *)
(** ** Facts about the runtime                                            *)
(* ===================================================================== *)

Module NodeFacts.
Import Node.
Local Open Scope N_scope.


Lemma byte_of_to_N (b : byte) : byte_of_N (Byte.to_N b) = b.
Proof.
  unfold byte_of_N. pose proof (Byte.to_N_bounded b).
  rewrite N.mod_small by lia. by rewrite Byte.of_to_N.
Qed.

Lemma to_N_byte_of_N (n : N) : n < 256 → Byte.to_N (byte_of_N n) = n.
Proof.
  intros Hn. unfold byte_of_N. rewrite N.mod_small by lia.
  destruct (Byte.of_N n) as [b|] eqn:E.
  - by apply Byte.to_of_N.
  - pose proof (Byte.to_of_N_option_map n) as H. rewrite E in H. simpl in H.
    destruct (N.leb_spec n 255); [done | lia].
Qed.

Lemma byte_of_N_eq (n : N) (b : byte) : n = Byte.to_N b → byte_of_N n = b.
Proof. intros ->. apply byte_of_to_N. Qed.

Ltac split_tests :=
  repeat (match goal with
          | |- context [?a <? ?b] => destruct (N.ltb_spec a b)
          | |- context [?a <=? ?b] => destruct (N.leb_spec a b)
          | |- context [?a =? ?b] => destruct (N.eqb_spec a b)
          end; simpl; try lia).

Lemma b64_value_char (v : N) : v < 64 → b64_value (b64_char v) = Some v.
Proof.
  intros Hv. unfold b64_char. split_tests.
  all: unfold b64_value; split_tests; f_equal; lia.
Qed.

Lemma b64_char_not_pad (v : N) : (b64_char v =? b64_pad) = false.
Proof.
  unfold b64_char, b64_pad. apply N.eqb_neq.
  repeat (match goal with
          | |- context [?a <? ?b] => destruct (N.ltb_spec a b)
          | |- context [?a =? ?b] => destruct (N.eqb_spec a b)
          end; try lia).
Qed.

Lemma base64_sextets_char (v : N) (s : jsstring) :
  v < 64 → base64_sextets (b64_char v :: s) = v :: base64_sextets s.
Proof.
  intros Hv. cbn [base64_sextets].
  by rewrite b64_char_not_pad, b64_value_char.
Qed.

Lemma base64_sextets_pad (s : jsstring) : base64_sextets (b64_pad :: s) = [].
Proof. reflexivity. Qed.

Lemma base64_decode_encode_bounded (n : nat) (b : Buffer) :
  (length b ≤ n)%nat → base64_decode (base64_encode b) = b.
Proof.
  revert b. induction n as [|n IH]; intros b Hlen.
  - destruct b; [reflexivity | simpl in Hlen; lia].
  - destruct b as [|x [|y [|z rest]]]; [reflexivity | | | ].
    + pose proof (Byte.to_N_bounded x). unfold base64_decode. cbn [base64_encode].
      rewrite !base64_sextets_char, base64_sextets_pad by lia.
      cbn [sextets_to_bytes]. f_equal. apply byte_of_N_eq. lia.
    + pose proof (Byte.to_N_bounded x). pose proof (Byte.to_N_bounded y).
      unfold base64_decode. cbn [base64_encode].
      rewrite !base64_sextets_char, base64_sextets_pad by lia.
      cbn [sextets_to_bytes]. repeat f_equal; apply byte_of_N_eq; lia.
    + pose proof (Byte.to_N_bounded x). pose proof (Byte.to_N_bounded y).
      pose proof (Byte.to_N_bounded z).
      unfold base64_decode in *. cbn [base64_encode].
      rewrite !base64_sextets_char by lia.
      cbn [sextets_to_bytes].
      rewrite IH by (simpl in Hlen; lia).
      repeat f_equal; apply byte_of_N_eq; lia.
Qed.

Lemma base64_decode_encode (b : Buffer) : base64_decode (base64_encode b) = b.
Proof. by apply (base64_decode_encode_bounded (length b)). Qed.

Lemma base64_encode_nil (b : Buffer) : base64_encode b = [] ↔ b = [].
Proof.
  split; [|by intros ->].
  by destruct b as [|x [|y [|z rest]]].
Qed.


(** Settle the comparisons of the goal one by one. *)
Ltac settle_tests :=
  repeat (match goal with
          | |- context [?a <? ?b] =>
              first [ rewrite (proj2 (N.ltb_lt a b)) by lia
                    | rewrite (proj2 (N.ltb_ge a b)) by lia ]
          | |- context [?a <=? ?b] =>
              first [ rewrite (proj2 (N.leb_le a b)) by lia
                    | rewrite (proj2 (N.leb_gt a b)) by lia ]
          end; cbn [andb negb]).

Ltac to_N_of_N :=
  repeat rewrite to_N_byte_of_N by lia.

Lemma utf8_decode_1 (u : N) (rest : Buffer) :
  u < 128 →
  utf8_decode (utf8_of_code_point u ++ rest) = u :: utf8_decode rest.
Proof.
  intros Hu. unfold utf8_of_code_point. settle_tests.
  cbn [app utf8_decode]. to_N_of_N. by settle_tests.
Qed.

Lemma utf8_decode_2 (u : N) (rest : Buffer) :
  128 ≤ u → u < 2048 →
  utf8_decode (utf8_of_code_point u ++ rest) = u :: utf8_decode rest.
Proof.
  intros Hl Hu. unfold utf8_of_code_point. settle_tests.
  cbn [app utf8_decode]. unfold continuation. to_N_of_N. settle_tests.
  f_equal. lia.
Qed.

(** The second byte of an encoded code point is one its lead byte
    admits. *)
Lemma second_3 (u : N) :
  2048 ≤ u → u < 65536 → ¬ (55296 ≤ u ≤ 57343) →
  second (224 + u / 4096) (byte_of_N (128 + (u / 64) mod 64)) = true.
Proof.
  intros Hl Hu Hs. unfold second, continuation. to_N_of_N.
  destruct (N.eqb_spec (224 + u / 4096) 224).
  { apply andb_true_iff. rewrite !N.leb_le. lia. }
  destruct (N.eqb_spec (224 + u / 4096) 237).
  { apply andb_true_iff. rewrite !N.leb_le. lia. }
  destruct (N.eqb_spec (224 + u / 4096) 240); [lia|].
  destruct (N.eqb_spec (224 + u / 4096) 244); [lia|].
  apply andb_true_iff. rewrite !N.leb_le. lia.
Qed.

Lemma second_4 (cp : N) :
  65536 ≤ cp → cp ≤ 1114111 →
  second (240 + cp / 262144) (byte_of_N (128 + (cp / 4096) mod 64)) = true.
Proof.
  intros Hl Hu. unfold second, continuation. to_N_of_N.
  destruct (N.eqb_spec (240 + cp / 262144) 224); [lia|].
  destruct (N.eqb_spec (240 + cp / 262144) 237); [lia|].
  destruct (N.eqb_spec (240 + cp / 262144) 240).
  { apply andb_true_iff. rewrite !N.leb_le. lia. }
  destruct (N.eqb_spec (240 + cp / 262144) 244).
  { apply andb_true_iff. rewrite !N.leb_le. lia. }
  apply andb_true_iff. rewrite !N.leb_le. lia.
Qed.

Lemma utf8_decode_3 (u : N) (rest : Buffer) :
  2048 ≤ u → u < 65536 → ¬ (55296 ≤ u ≤ 57343) →
  utf8_decode (utf8_of_code_point u ++ rest) = u :: utf8_decode rest.
Proof.
  intros Hl Hu Hs. unfold utf8_of_code_point. settle_tests.
  cbn [app utf8_decode].
  rewrite (to_N_byte_of_N (224 + u / 4096)) by lia. settle_tests.
  rewrite second_3 by done.
  unfold continuation. to_N_of_N. settle_tests.
  f_equal. lia.
Qed.

Lemma utf8_decode_4 (cp : N) (rest : Buffer) :
  65536 ≤ cp → cp ≤ 1114111 →
  utf8_decode (utf8_of_code_point cp ++ rest)
  = utf16_of_code_point cp ++ utf8_decode rest.
Proof.
  intros Hl Hu. unfold utf8_of_code_point. settle_tests.
  cbn [app utf8_decode].
  rewrite (to_N_byte_of_N (240 + cp / 262144)) by lia. settle_tests.
  rewrite second_4 by done.
  unfold continuation. to_N_of_N. settle_tests.
  f_equal. f_equal. lia.
Qed.

Lemma high_surrogate_spec (u : N) :
  high_surrogate u = true ↔ 55296 ≤ u ∧ u ≤ 56319.
Proof. unfold high_surrogate. rewrite andb_true_iff, !N.leb_le. tauto. Qed.

Lemma low_surrogate_spec (u : N) :
  low_surrogate u = true ↔ 56320 ≤ u ∧ u ≤ 57343.
Proof. unfold low_surrogate. rewrite andb_true_iff, !N.leb_le. tauto. Qed.

Lemma utf8_decode_encode_bounded (n : nat) (s : jsstring) :
  (length s ≤ n)%nat → well_formed s = true →
  utf8_decode (utf8_encode s) = s.
Proof.
  revert s. induction n as [|n IH]; intros s Hlen Hwf.
  - destruct s; [reflexivity | simpl in Hlen; lia].
  - destruct s as [|u rest]; [reflexivity|].
    cbn [utf8_encode well_formed] in *.
    destruct (high_surrogate u) eqn:Hh.
    + destruct rest as [|l rest']; [done|].
      apply andb_true_iff in Hwf as [Hlow Hwf]. rewrite Hlow.
      apply high_surrogate_spec in Hh. apply low_surrogate_spec in Hlow.
      rewrite utf8_decode_4 by lia.
      rewrite IH by (simpl in Hlen; lia || done).
      unfold utf16_of_code_point.
      destruct (N.ltb_spec (65536 + (u - 55296) * 1024 + (l - 56320)) 65536);
        [lia|].
      cbn [app]. f_equal; [|f_equal]; lia.
    + apply andb_true_iff in Hwf as [Hwf Hrest].
      apply andb_true_iff in Hwf as [Hlow Hu].
      apply negb_true_iff in Hlow. rewrite Hlow.
      apply N.ltb_lt in Hu.
      assert (Hns : ¬ (55296 ≤ u ≤ 57343)).
      { intros [? ?]. destruct (N.le_gt_cases u 56319).
        - assert (high_surrogate u = true) by (apply high_surrogate_spec; lia).
          congruence.
        - assert (low_surrogate u = true) by (apply low_surrogate_spec; lia).
          congruence. }
      assert (Hrec : utf8_decode (utf8_encode rest) = rest)
        by (apply IH; [simpl in Hlen; lia | done]).
      destruct (N.ltb_spec u 128); [by rewrite utf8_decode_1, Hrec|].
      destruct (N.ltb_spec u 2048); [by rewrite utf8_decode_2, Hrec|].
      by rewrite utf8_decode_3, Hrec.
Qed.

Lemma utf8_decode_encode (s : jsstring) :
  well_formed s = true → utf8_decode (utf8_encode s) = s.
Proof. by apply (utf8_decode_encode_bounded (length s)). Qed.

Lemma utf8_encode_nil (s : jsstring) : utf8_encode s = [] ↔ s = [].
Proof.
  split; [|by intros ->].
  destruct s as [|u rest]; [done|]. cbn [utf8_encode].
  assert (Hcp : ∀ cp r, utf8_of_code_point cp ++ r ≠ []).
  { intros cp r. unfold utf8_of_code_point.
    repeat (match goal with |- context [?a <? ?b] => destruct (a <? b) end);
      done. }
  destruct (high_surrogate u).
  - destruct rest as [|l rest']; [done|].
    destruct (low_surrogate l); [intros H; by apply Hcp in H | done].
  - destruct (low_surrogate u); [done | intros H; by apply Hcp in H].
Qed.

(** *** Plain objects *)

Lemma assign_spec {A} (name : jsstring) (a : A) (o : gmap jsstring A) :
  assign name a o = <[name := a]> o
  ∨ (name = js "__proto__" ∧ o !! name = None ∧ assign name a o = o).
Proof.
  unfold assign. case_bool_decide as Hname; [|by left].
  case_bool_decide as Hown; [by left|]. right.
  split; [done|]. split; [|done].
  destruct (o !! name) eqn:E; [|done]. exfalso. apply Hown. by eexists.
Qed.

Lemma assign_insert {A} (name : jsstring) (a : A) (o : gmap jsstring A) :
  name ≠ js "__proto__" → assign name a o = <[name := a]> o.
Proof. intros Hname. unfold assign. by rewrite bool_decide_eq_false_2. Qed.

Lemma lookup_assign_ne {A} (name other : jsstring) (a : A)
    (o : gmap jsstring A) :
  other ≠ name → assign name a o !! other = o !! other.
Proof.
  intros Hne. destruct (assign_spec name a o) as [-> | (_ & _ & ->)]; [|done].
  by rewrite lookup_insert_ne.
Qed.

Lemma lookup_assign_eq {A} (name : jsstring) (a : A) (o : gmap jsstring A) :
  name ≠ js "__proto__" → assign name a o !! name = Some a.
Proof. intros Hname. by rewrite assign_insert, lookup_insert_eq. Qed.

Lemma has_assign {A} (name : jsstring) (a : A) (o : gmap jsstring A) :
  has (assign name a o) name = true.
Proof.
  unfold has. destruct (assign_spec name a o) as [-> | (-> & _ & ->)].
  - rewrite lookup_insert_eq. by rewrite bool_decide_eq_true_2.
  - by rewrite orb_comm.
Qed.

Lemma has_delete {A} (name : jsstring) (o : gmap jsstring A) :
  has (delete name o) name = inherited name.
Proof.
  unfold has. rewrite lookup_delete_eq.
  rewrite bool_decide_eq_false_2; [done|]. by intros [? ?].
Qed.

Lemma get_delete {A} (name : jsstring) (o : gmap jsstring A) :
  get (delete name o) name
  = if inherited name then Some (member name) else None.
Proof. unfold get. by rewrite lookup_delete_eq. Qed.

Lemma get_own {A} (name : jsstring) (a : A) (o : gmap jsstring A) :
  o !! name = Some a → get o name = Some (own a).
Proof. intros H. unfold get. by rewrite H. Qed.

Lemma elem_of_Object_keys {A} (name : jsstring) (o : gmap jsstring A) :
  name ∈ Object_keys o ↔ is_Some (o !! name).
Proof.
  unfold Object_keys. rewrite list_elem_of_fmap. split.
  - intros ([k v] & -> & Hin). apply elem_of_map_to_list in Hin. by eexists.
  - intros [v Hv]. exists (name, v). split; [done|].
    by apply elem_of_map_to_list.
Qed.

Lemma NoDup_Object_keys {A} (o : gmap jsstring A) : NoDup (Object_keys o).
Proof. apply NoDup_fst_map_to_list. Qed.

End NodeFacts.

(* ===================================================================== *)
(** ** The credential store                                               *)
(* ===================================================================== *)

Module SecureStorageSpec.
Import Node NodeFacts Js SecureStorage Fixtures.

(** Symbolic execution of a function body. *)
Ltac run :=
  cbv [storeApiKey getApiKey deleteApiKey hasApiKey listStoredKeyIds
       saveProvider getProvider getAllProviders deleteProvider
       setDefaultProvider getDefaultProvider getProviderWithKeyInfo
       getStore getProviderStore get_encryptedKeys set_encryptedKeys
       get_providers set_providers get_defaultProvider set_defaultProvider
       delete_defaultProvider isEncryptionAvailable io warn log_error
       try_catch bind ret throw gets modify lift returns
       with_store with_providerStore with_encryptedKeys with_providers
       with_defaultProvider with_faults with_console
       store providerStore encryptedKeys providers defaultProvider
       encryptionAvailable faults console negb fst snd].

Ltac world w :=
  destruct w as [st pst keys provs dflt enc fs con]; simpl in *.

(** *** The handler of a [try] always returns *)

Lemma try_catch_returns {S A} (body : M S A) (handler : JsError → M S A) (s : S) :
  (∀ e s', returns (fst (handler e s')) = true) →
  returns (fst (try_catch body handler s)) = true.
Proof.
  intros Hh. unfold try_catch. destruct (body s) as [[a|e] s']; [done|].
  apply Hh.
Qed.


Lemma getApiKey_returns ss providerId w :
  returns (fst (getApiKey ss providerId w)) = true.
Proof. by apply try_catch_returns. Qed.

Lemma deleteApiKey_returns providerId w :
  returns (fst (deleteApiKey providerId w)) = true.
Proof. by apply try_catch_returns. Qed.


Lemma returns_Ok {A} (r : Result A) : returns r = true → ∃ a, r = Ok a.
Proof. destruct r; [eauto | done]. Qed.

(** *** With no fault pending *)

Lemma unchanged_refl w : unchanged w w.
Proof. by repeat split. Qed.

Lemma unchanged_trans w1 w2 w3 :
  unchanged w1 w2 → unchanged w2 w3 → unchanged w1 w3.
Proof.
  intros (?&?&?&?&?) (?&?&?&?&?). repeat split; congruence.
Qed.

Lemma storeApiKey_fallback ss providerId apiKey w :
  faults w = [] → encryptionAvailable w = false →
  storeApiKey ss providerId apiKey w
  = (Ok true,
     with_encryptedKeys
       (assign providerId (base64_encode (utf8_encode apiKey))
          (encryptedKeys w))
       (with_console
          (console w
           ++ [console_warn "Encryption not available, storing key in plain text"])
          (with_store true w))).
Proof.
  world w. intros -> ->. destruct st; run; reflexivity.
Qed.

Lemma storeApiKey_encrypted ss providerId apiKey c w :
  faults w = [] → encryptionAvailable w = true →
  encryptString ss apiKey = Ok c →
  storeApiKey ss providerId apiKey w
  = (Ok true,
     with_encryptedKeys (assign providerId (base64_encode c) (encryptedKeys w))
       (with_store true w)).
Proof.
  world w. intros -> -> Hc. destruct st; run; rewrite Hc; reflexivity.
Qed.

(** Whatever it returns, [storeApiKey] leaves no fault pending when none
    was, and does not switch the platform. *)
Lemma storeApiKey_env ss providerId apiKey w :
  faults w = [] →
  faults (snd (storeApiKey ss providerId apiKey w)) = []
  ∧ encryptionAvailable (snd (storeApiKey ss providerId apiKey w))
    = encryptionAvailable w.
Proof.
  world w. intros ->.
  destruct st, enc; run; try done;
    destruct (encryptString ss apiKey); done.
Qed.

Lemma getApiKey_healthy ss providerId w :
  faults w = [] →
  ∃ w', getApiKey ss providerId w = (Ok (retrieved ss w providerId), w')
        ∧ unchanged w w'.
Proof.
  world w. intros ->. unfold retrieved. simpl.
  destruct st; run; unfold get;
    (destruct (keys !! providerId) as [[|u v]|]; simpl;
     [ | destruct enc; simpl; [destruct (decryptString ss _); simpl|]
       | destruct (inherited providerId); simpl; [destruct enc; simpl|] ]);
    eexists; (split; [reflexivity | by repeat split]).
Qed.

Lemma retrieved_unchanged ss w w' providerId :
  unchanged w w' → retrieved ss w' providerId = retrieved ss w providerId.
Proof. intros (Hk&_&_&He&_). unfold retrieved. by rewrite Hk, He. Qed.

Lemma deleteApiKey_healthy providerId w :
  faults w = [] →
  deleteApiKey providerId w
  = (Ok true, with_encryptedKeys (delete providerId (encryptedKeys w))
                (with_store true w)).
Proof.
  world w. intros ->. destruct st; run; reflexivity.
Qed.

Lemma hasApiKey_healthy providerId w :
  faults w = [] →
  hasApiKey providerId w
  = (Ok (has (encryptedKeys w) providerId), with_store true w).
Proof.
  world w. intros ->. destruct st; run; reflexivity.
Qed.

Lemma getProvider_healthy providerId w :
  faults w = [] →
  getProvider providerId w = (Ok (get (providers w) providerId),
                              with_providerStore true w).
Proof.
  world w. intros ->. destruct pst; run; reflexivity.
Qed.

(** *** Round trip *)

Lemma round_trip_healthy ss w providerId apiKey :
  faults w = [] →
  providerId ≠ js "__proto__" →
  (if encryptionAvailable w then cipher_ok ss apiKey
   else well_formed apiKey = true ∧ apiKey ≠ []) →
  fst (storeApiKey ss providerId apiKey w) = Ok true
  ∧ round_trip ss w providerId apiKey.
Proof.
  intros Hf Hid Hmode. unfold round_trip.
  destruct (encryptionAvailable w) eqn:He.
  - destruct Hmode as (c & Hc & Hne & Hd).
    rewrite (storeApiKey_encrypted ss providerId apiKey c w Hf He Hc).
    split; [done|]. cbn [snd].
    edestruct (getApiKey_healthy ss providerId) as (w' & -> & _);
      [by destruct w|].
    cbn [fst]. unfold retrieved. destruct w; simpl in *; subst.
    rewrite lookup_assign_eq by done. simpl.
    destruct (base64_encode c) eqn:Hb;
      [by apply base64_encode_nil in Hb|].
    simpl. by rewrite <- Hb, base64_decode_encode, Hd.
  - destruct Hmode as [Hwf Hne].
    rewrite (storeApiKey_fallback ss providerId apiKey w Hf He).
    split; [done|]. cbn [snd].
    edestruct (getApiKey_healthy ss providerId) as (w' & -> & _);
      [by destruct w|].
    cbn [fst]. unfold retrieved. destruct w; simpl in *; subst.
    rewrite lookup_assign_eq by done. simpl.
    destruct (base64_encode (utf8_encode apiKey)) eqn:Hb.
    { apply base64_encode_nil, utf8_encode_nil in Hb. done. }
    simpl. by rewrite <- Hb, base64_decode_encode, utf8_decode_encode.
Qed.

(** C1, as amended.  With no storage fault pending and for every id but
    [__proto__], [storeApiKey] followed by [getApiKey] returns the
    plaintext that was stored: under platform encryption for every
    plaintext the cipher handles, in the base64 fallback for every
    plaintext that is not empty and is well-formed UTF-16.  The same
    holds when another value was stored for the id before: the later
    [storeApiKey] overwrites it. *)
Theorem storeApiKey_getApiKey ss w providerId previous apiKey :
  faults w = [] →
  providerId ≠ js "__proto__" →
  (if encryptionAvailable w then cipher_ok ss apiKey
   else well_formed apiKey = true ∧ apiKey ≠ []) →
  fst (storeApiKey ss providerId apiKey w) = Ok true
  ∧ round_trip ss w providerId apiKey
  ∧ round_trip ss (snd (storeApiKey ss providerId previous w))
      providerId apiKey.
Proof.
  intros Hf Hid Hmode.
  destruct (round_trip_healthy ss w providerId apiKey Hf Hid Hmode)
    as [Hs Hr].
  split; [done|]. split; [done|].
  destruct (storeApiKey_env ss providerId previous w Hf) as [Hf' He'].
  apply round_trip_healthy; [done|done|]. by rewrite He'.
Qed.

Lemma storeApiKey_getApiKey_witness :
  (fst (storeApiKey cipher (js "anthropic-1") (js "sk-test-1234567890")
          (fresh true)) = Ok true
   ∧ round_trip cipher (fresh true) (js "anthropic-1")
       (js "sk-test-1234567890")
   ∧ round_trip cipher
       (snd (storeApiKey cipher (js "anthropic-1") (js "old") (fresh true)))
       (js "anthropic-1") (js "sk-test-1234567890"))
  ∧ (fst (storeApiKey cipher (js "anthropic-1") (js "sk-test-1234567890")
            (fresh false)) = Ok true
     ∧ round_trip cipher (fresh false) (js "anthropic-1")
         (js "sk-test-1234567890")
     ∧ round_trip cipher
         (snd (storeApiKey cipher (js "anthropic-1") (js "old") (fresh false)))
         (js "anthropic-1") (js "sk-test-1234567890")).
Proof.
  split.
  - apply (storeApiKey_getApiKey cipher (fresh true));
      [reflexivity | discriminate |].
    simpl. eexists. split; [reflexivity|]. split; [done|].
    vm_compute. reflexivity.
  - apply (storeApiKey_getApiKey cipher (fresh false));
      [reflexivity | discriminate |].
    simpl. split; [reflexivity | discriminate].
Defined.

(** C1 as stated fails.  In the base64 fallback the empty plaintext is
    stored as the empty string, which [getApiKey] takes for a missing
    entry; and an unpaired surrogate comes back as U+FFFD.  For the id
    [__proto__] the assignment [keys[providerId] = ...] reaches the
    inherited accessor and creates no entry: [storeApiKey] returns true
    with nothing stored, and [getApiKey] finds the prototype, fails to
    decode it, logs the error and returns null. *)
Lemma storeApiKey_getApiKey_counterexample :
  ¬ round_trip cipher (fresh false) (js "anthropic-1") (js "")
  ∧ fst (getApiKey cipher (js "anthropic-1")
           (snd (storeApiKey cipher (js "anthropic-1") (js "") (fresh false))))
    = Ok None
  ∧ ¬ round_trip cipher (fresh false) (js "anthropic-1") [55296%N]
  ∧ (∀ encryption,
       let w := snd (storeApiKey cipher (js "__proto__")
                       (js "sk-test-1234567890") (fresh encryption)) in
       fst (storeApiKey cipher (js "__proto__") (js "sk-test-1234567890")
              (fresh encryption)) = Ok true
       ∧ encryptedKeys w = ∅
       ∧ fst (getApiKey cipher (js "__proto__") w) = Ok None
       ∧ ¬ round_trip cipher (fresh encryption) (js "__proto__")
             (js "sk-test-1234567890")).
Proof.
  split; [|split; [|split]].
  - unfold round_trip. vm_compute. discriminate.
  - vm_compute. reflexivity.
  - unfold round_trip. vm_compute. discriminate.
  - intros [|]; cbn zeta; unfold round_trip; vm_compute;
      (repeat split; try reflexivity); discriminate.
Qed.


(** *** Deleting a key *)

(** One more pending file-system outcome to look at. *)
Ltac next_fault fs := destruct fs as [|[|] fs].

Lemma deleteApiKey_true providerId w w1 :
  deleteApiKey providerId w = (Ok true, w1) →
  encryptedKeys w1 = delete providerId (encryptedKeys w)
  ∧ providers w1 = providers w
  ∧ defaultProvider w1 = defaultProvider w
  ∧ providerStore w1 = providerStore w.
Proof.
  world w. destruct st; next_fault fs; try next_fault fs; try next_fault fs;
    run; intros [= <-]; done.
Qed.

Lemma deleteApiKey_configs providerId w :
  providers (snd (deleteApiKey providerId w)) = providers w
  ∧ defaultProvider (snd (deleteApiKey providerId w)) = defaultProvider w.
Proof.
  world w. destruct st; do 3 (try next_fault fs); run; done.
Qed.



Lemma deleteApiKey_result providerId w :
  fst (deleteApiKey providerId w)
  = Ok (negb (fails (opening (store w) + 2) w)).
Proof.
  world w. unfold fails, opening.
  destruct st; do 3 (try next_fault fs); run; reflexivity.
Qed.



(** C6, as amended.  [deleteApiKey] never throws, on the first call or
    on the second, whatever the store holds and whatever the file system
    does.  It returns true unless one of its operations on the store
    fails, and then false.  With no storage fault pending it reports
    success on the first and on the second call, whether or not a key
    was stored, and the second call changes nothing.  After any call
    that reported success no entry is stored for the id; [hasApiKey] is
    then false, except for an id that names a member of
    [Object.prototype], for which it is true on any store. *)
Theorem deleteApiKey_idempotent providerId :
  (∀ w, returns (fst (deleteApiKey providerId w)) = true
        ∧ returns (fst (deleteApiKey providerId
                          (snd (deleteApiKey providerId w)))) = true)
  ∧ (∀ w, fst (deleteApiKey providerId w)
          = Ok (negb (fails (opening (store w) + 2) w)))
  ∧ (∀ w, faults w = [] →
          let w1 := snd (deleteApiKey providerId w) in
          let w2 := snd (deleteApiKey providerId w1) in
          fst (deleteApiKey providerId w) = Ok true
          ∧ fst (deleteApiKey providerId w1) = Ok true
          ∧ fst (hasApiKey providerId w1) = Ok (inherited providerId)
          ∧ fst (hasApiKey providerId w2) = Ok (inherited providerId)
          ∧ unchanged w1 w2)
  ∧ (∀ w w1, deleteApiKey providerId w = (Ok true, w1) →
             encryptedKeys w1 !! providerId = None
             ∧ (faults w1 = [] →
                fst (hasApiKey providerId w1) = Ok (inherited providerId))).
Proof.
  split; [|split; [|split]].
  - intros w. split; apply deleteApiKey_returns.
  - intros w. apply deleteApiKey_result.
  - intros w Hf. cbn zeta.
    rewrite (deleteApiKey_healthy providerId w Hf). cbn [fst snd].
    set (w1 := with_encryptedKeys _ _).
    assert (Hf1 : faults w1 = []) by (by destruct w).
    rewrite (deleteApiKey_healthy providerId w1 Hf1). cbn [fst snd].
    set (w2 := with_encryptedKeys _ _).
    assert (Hf2 : faults w2 = []) by (by destruct w).
    rewrite (hasApiKey_healthy providerId w1 Hf1).
    rewrite (hasApiKey_healthy providerId w2 Hf2). cbn [fst].
    assert (Hk1 : encryptedKeys w1 = delete providerId (encryptedKeys w))
      by (by destruct w).
    assert (Hk2 : encryptedKeys w2 = encryptedKeys w1).
    { destruct w; simpl. apply delete_id, lookup_delete_eq. }
    split; [done|]. split; [done|]. split.
    { by rewrite Hk1, has_delete. }
    split.
    { by rewrite Hk2, Hk1, has_delete. }
    subst w1 w2. destruct w; by repeat split.
  - intros w w1 H. destruct (deleteApiKey_true _ _ _ H) as (Hk&_).
    split; [rewrite Hk; apply lookup_delete_eq|]. intros Hf1.
    rewrite (hasApiKey_healthy providerId w1 Hf1). cbn [fst].
    by rewrite Hk, has_delete.
Qed.

Lemma deleteApiKey_idempotent_witness :
  (let w1 := snd (deleteApiKey (js "anthropic-1") (configured [])) in
   let w2 := snd (deleteApiKey (js "anthropic-1") w1) in
   fst (deleteApiKey (js "anthropic-1") (configured [])) = Ok true
   ∧ fst (deleteApiKey (js "anthropic-1") w1) = Ok true
   ∧ fst (hasApiKey (js "anthropic-1") w1) = Ok false
   ∧ fst (hasApiKey (js "anthropic-1") w2) = Ok false
   ∧ unchanged w1 w2)
  ∧ encryptedKeys (snd (deleteApiKey (js "anthropic-1") (configured [])))
    !! js "anthropic-1" = None.
Proof.
  destruct (deleteApiKey_idempotent (js "anthropic-1"))
    as (_ & _ & Htwice & Hgone).
  split.
  - apply (Htwice (configured [])). reflexivity.
  - apply (Hgone (configured [])
             (snd (deleteApiKey (js "anthropic-1") (configured [])))).
    reflexivity.
Defined.

(** C6 as stated fails.  [hasApiKey] is [providerId in keys], which also
    finds what every object inherits: after a successful
    [deleteApiKey('toString')], and on a store that never held a key,
    [hasApiKey('toString')] is true.  And a second call does not report
    success when the store cannot be written then. *)
Lemma deleteApiKey_idempotent_counterexample :
  (∀ encryption,
     fst (deleteApiKey (js "toString") (fresh encryption)) = Ok true
     ∧ fst (hasApiKey (js "toString")
              (snd (deleteApiKey (js "toString") (fresh encryption))))
       = Ok true
     ∧ fst (hasApiKey (js "toString") (fresh encryption)) = Ok true)
  ∧ (let w := configured [false; false; false; false; true] in
     fst (deleteApiKey (js "anthropic-1") w) = Ok true
     ∧ fst (deleteApiKey (js "anthropic-1")
              (snd (deleteApiKey (js "anthropic-1") w))) = Ok false).
Proof.
  split.
  - intros [|]; vm_compute; by repeat split.
  - vm_compute. by split.
Qed.

(** *** Failures *)








(** *** Deleting a provider *)

Lemma deleteProvider_true providerId w w' :
  deleteProvider providerId w = (Ok true, w') →
  providers (snd (deleteApiKey providerId w)) = providers w
  ∧ encryptedKeys w' = encryptedKeys (snd (deleteApiKey providerId w))
  ∧ providers w' = delete providerId (providers w)
  ∧ defaultProvider w'
    = (if bool_decide (defaultProvider w = Some providerId) then None
       else defaultProvider w).
Proof.
  intros H.
  destruct (deleteApiKey_configs providerId w) as [Hp Hd].
  pose proof (deleteApiKey_returns providerId w) as Hret.
  unfold deleteProvider, try_catch in H. unfold bind at 1 in H.
  destruct (deleteApiKey providerId w) as [[b|e] w1]; [|done].
  cbn [snd] in *. rewrite <- Hp, <- Hd. clear Hp Hd Hret.
  revert H. world w1.
  destruct pst; do 5 (try next_fault fs); run;
    case_bool_decide; run; intros [= <-]; done.
Qed.

Lemma deleteProvider_healthy providerId w :
  faults w = [] →
  fst (deleteProvider providerId w) = Ok true
  ∧ fst (deleteApiKey providerId w) = Ok true
  ∧ faults (snd (deleteProvider providerId w)) = [].
Proof.
  world w. intros ->.
  destruct st, pst; run; case_bool_decide; run; done.
Qed.

Lemma getDefaultProvider_healthy w :
  faults w = [] → fst (getDefaultProvider w) = Ok (defaultProvider w).
Proof. world w. intros ->. destruct pst; run; done. Qed.

(** What [deleteProvider] does establish.  After it reports success the
    config is gone and the default pointer is cleared if it referenced the
    id and is what it was otherwise.  The key is deleted first, with the
    configs still untouched, and nothing after that step changes the
    stored keys: when that deletion succeeded the key is gone.  With no
    storage fault pending all of it succeeds, and then no key and no
    config is stored for the id ([hasApiKey] is false and [getProvider]
    null, unless the id names a member of [Object.prototype]) and
    [getDefaultProvider] is undefined if the id was the default. *)
Theorem deleteProvider_deletes providerId :
  (∀ w w', deleteProvider providerId w = (Ok true, w') →
           providers w' !! providerId = None
           ∧ (defaultProvider w = Some providerId → defaultProvider w' = None)
           ∧ (defaultProvider w ≠ Some providerId →
              defaultProvider w' = defaultProvider w)
           ∧ providers (snd (deleteApiKey providerId w)) = providers w
           ∧ encryptedKeys w' = encryptedKeys (snd (deleteApiKey providerId w))
           ∧ (fst (deleteApiKey providerId w) = Ok true →
              encryptedKeys w' !! providerId = None))
  ∧ (∀ w, faults w = [] →
          let w' := snd (deleteProvider providerId w) in
          fst (deleteProvider providerId w) = Ok true
          ∧ fst (hasApiKey providerId w') = Ok (inherited providerId)
          ∧ fst (getProvider providerId w')
            = Ok (if inherited providerId then Some (member providerId)
                  else None)
          ∧ fst (getDefaultProvider w')
            = Ok (if bool_decide (defaultProvider w = Some providerId)
                  then None else defaultProvider w)).
Proof.
  assert (Hsucc : ∀ w w', deleteProvider providerId w = (Ok true, w') →
           providers w' !! providerId = None
           ∧ (defaultProvider w = Some providerId → defaultProvider w' = None)
           ∧ (defaultProvider w ≠ Some providerId →
              defaultProvider w' = defaultProvider w)
           ∧ providers (snd (deleteApiKey providerId w)) = providers w
           ∧ encryptedKeys w' = encryptedKeys (snd (deleteApiKey providerId w))
           ∧ (fst (deleteApiKey providerId w) = Ok true →
              encryptedKeys w' !! providerId = None)).
  { intros w w' H.
    destruct (deleteProvider_true _ _ _ H) as (Hp1 & Hk & Hp & Hd).
    split; [rewrite Hp; apply lookup_delete_eq|].
    split; [intros Hd0; rewrite Hd; by rewrite bool_decide_eq_true_2|].
    split; [intros Hd0; rewrite Hd; by rewrite bool_decide_eq_false_2|].
    split; [done|]. split; [done|].
    intros Hkey. rewrite Hk.
    destruct (deleteApiKey providerId w) as [r w1] eqn:E. simpl in *. subst r.
    destruct (deleteApiKey_true _ _ _ E) as (-> & _).
    apply lookup_delete_eq. }
  split; [exact Hsucc|].
  intros w Hf. cbn zeta.
  destruct (deleteProvider_healthy providerId w Hf) as (Hr & Hkey & Hf').
  destruct (deleteProvider providerId w) as [r w'] eqn:E. simpl in *. subst r.
  destruct (Hsucc w w' E) as (Hp & _ & _ & _ & _ & Hk).
  destruct (deleteProvider_true _ _ _ E) as (_ & _ & _ & Hd).
  split; [done|].
  rewrite (hasApiKey_healthy providerId w' Hf').
  rewrite (getProvider_healthy providerId w' Hf').
  rewrite (getDefaultProvider_healthy w' Hf'). cbn [fst].
  unfold has, get. rewrite Hp, Hd, (Hk Hkey).
  rewrite bool_decide_eq_false_2; [done|]. by intros [? ?].
Qed.

Lemma deleteProvider_deletes_witness :
  (let w' := snd (deleteProvider (js "anthropic-1") (configured [])) in
   fst (deleteProvider (js "anthropic-1") (configured [])) = Ok true
   ∧ fst (hasApiKey (js "anthropic-1") w') = Ok false
   ∧ fst (getProvider (js "anthropic-1") w') = Ok None
   ∧ fst (getDefaultProvider w')
     = Ok (if bool_decide (defaultProvider (configured [])
                           = Some (js "anthropic-1"))
           then None else defaultProvider (configured [])))
  ∧ providers (snd (deleteProvider (js "anthropic-1") (configured [])))
    !! js "anthropic-1" = None
  ∧ defaultProvider (snd (deleteProvider (js "anthropic-1") (configured [])))
    = None
  ∧ encryptedKeys (snd (deleteProvider (js "anthropic-1") (configured [])))
    !! js "anthropic-1" = None.
Proof.
  destruct (deleteProvider_deletes (js "anthropic-1")) as (Hsucc & Hall).
  split.
  - apply (Hall (configured [])). reflexivity.
  - destruct (Hsucc (configured [])
                (snd (deleteProvider (js "anthropic-1") (configured []))))
      as (Hp & Hd & _ & _ & _ & Hk); [reflexivity|].
    split; [exact Hp|]. split; [apply Hd; reflexivity|].
    apply Hk. reflexivity.
Defined.

(** C3.  The result of [deleteApiKey] is not looked at.  When the key
    store can be opened and read but the write fails, [deleteApiKey]
    catches the error and returns false; [deleteProvider] goes on, deletes
    the config, clears the default pointer and reports success, and the
    key is still stored: [hasApiKey] is true. *)
Lemma deleteProvider_orphans_key :
  let w := configured [false; false; true] in
  let w' := snd (deleteProvider (js "anthropic-1") w) in
  fst (deleteApiKey (js "anthropic-1") w) = Ok false
  ∧ fst (deleteProvider (js "anthropic-1") w) = Ok true
  ∧ fst (getProvider (js "anthropic-1") w') = Ok None
  ∧ fst (getDefaultProvider w') = Ok None
  ∧ fst (hasApiKey (js "anthropic-1") w') = Ok true
  ∧ encryptedKeys w' !! js "anthropic-1"
    = Some (js "c2stdGVzdC0xMjM0NTY3ODkw").
Proof. vm_compute. repeat split. Qed.

(** *** Key info for display *)

Lemma getProviderWithKeyInfo_healthy ss providerId w :
  faults w = [] →
  ∃ w', getProviderWithKeyInfo ss providerId w
        = (Ok (shown_for ss w providerId), w')
        ∧ unchanged w w'.
Proof.
  intros Hf. unfold getProviderWithKeyInfo, shown_for, bind at 1.
  rewrite (getProvider_healthy providerId w Hf).
  assert (Hw : unchanged w (with_providerStore true w))
    by (destruct w; by repeat split).
  destruct (get (providers w) providerId) as [p|]; simpl.
  - destruct (getApiKey_healthy ss providerId (with_providerStore true w))
      as (w' & Hg & Hu); [by destruct w|].
    unfold bind, ret. rewrite Hg.
    rewrite (retrieved_unchanged ss _ _ providerId Hw).
    eexists. split; [by destruct p|]. by eapply unchanged_trans.
  - eexists. split; [reflexivity|]. done.
Qed.

Lemma shown_for_config ss w providerId cfg :
  providers w !! providerId = Some cfg →
  shown_for ss w providerId = Some (for_config (key_info ss w cfg providerId)).
Proof. intros H. unfold shown_for. by rewrite (get_own _ _ _ H). Qed.

Lemma getAllProvidersWithKeyInfo_loop ss (ps : list ProviderConfig) w :
  faults w = [] →
  ∃ w', for_of ps (fun p =>
          bind (getApiKey ss (id p)) (fun apiKey =>
          ret {| provider := p; hasKey := truthy apiKey;
                 keyMasked := mask apiKey |})) w
        = (Ok (map (fun p => key_info ss w p (id p)) ps), w')
        ∧ unchanged w w'.
Proof.
  revert w. induction ps as [|p ps IH]; intros w Hf.
  - exists w. split; [reflexivity | apply unchanged_refl].
  - destruct (getApiKey_healthy ss (id p) w Hf) as (w1 & Hg & Hu1).
    assert (Hf1 : faults w1 = [])
      by (destruct Hu1 as (_&_&_&_&->); done).
    destruct (IH w1 Hf1) as (w2 & Hloop & Hu2).
    exists w2. split; [|by eapply unchanged_trans].
    cbn [for_of]. unfold bind at 1. unfold bind at 1. rewrite Hg.
    unfold ret at 1. unfold bind at 1. rewrite Hloop. unfold ret.
    do 2 f_equal. cbn [map]. f_equal.
    apply map_ext. intros q. unfold key_info.
    by rewrite (retrieved_unchanged ss w w1 (id q) Hu1).
Qed.

Lemma getAllProvidersWithKeyInfo_healthy ss w :
  faults w = [] →
  ∃ w', getAllProvidersWithKeyInfo ss w
        = (Ok (map (fun p => key_info ss w p (id p))
                 (Object_values (providers w))), w')
        ∧ unchanged w w'.
Proof.
  intros Hf. unfold getAllProvidersWithKeyInfo, bind at 1.
  assert (Hall : getAllProviders w
                 = (Ok (Object_values (providers w)),
                    with_providerStore true w)).
  { destruct w as [st pst keys provs dflt enc fs con]; simpl in *; subst.
    destruct pst; run; reflexivity. }
  rewrite Hall.
  destruct (getAllProvidersWithKeyInfo_loop ss
              (Object_values (providers w))
              (with_providerStore true w)) as (w' & Hloop & Hu);
    [by destruct w|].
  assert (Hw : unchanged w (with_providerStore true w))
    by (destruct w; by repeat split).
  exists w'. split; [|by eapply unchanged_trans].
  rewrite Hloop. reflexivity.
Qed.

Lemma mask_nonempty (apiKey : jsstring) :
  apiKey ≠ [] →
  mask (Some apiKey)
  = Some (if (12 <? length apiKey)%nat then
            take 4 apiKey ++ replicate (length apiKey - 8) 42%N
              ++ drop (length apiKey - 4) apiKey
          else replicate (length apiKey) 42%N).
Proof.
  intros Hne. destruct apiKey as [|u rest]; [done|].
  unfold mask, substring, substring_from, asterisks.
  change (truthy (Some (u :: rest))) with true.
  change (default [] (Some (u :: rest))) with (u :: rest).
  cbv iota. by destruct (12 <? length (u :: rest))%nat.
Qed.

(** C5, as amended.  Let a config be saved under its id and let the stored
    key decrypt to a plaintext that is not empty.  With no storage fault
    pending, [getProviderWithKeyInfo] reports [hasKey] and a mask as long
    as the plaintext: for a plaintext longer than 12 its first four code
    units, then asterisks, then its last four; otherwise asterisks only.
    So 16 code units give 4 + 8 asterisks + 4 and 6 give 6 asterisks.
    [getAllProvidersWithKeyInfo] lists the same record.  Neither
    function changes what is stored. *)
Theorem masked_key ss w providerId cfg apiKey :
  faults w = [] →
  providers w !! providerId = Some cfg →
  id cfg = providerId →
  fst (getApiKey ss providerId w) = Ok (Some apiKey) →
  apiKey ≠ [] →
  ∃ keyMasked,
    let shown := {| provider := cfg; hasKey := true;
                    keyMasked := Some keyMasked |} in
    fst (getProviderWithKeyInfo ss providerId w)
    = Ok (Some (for_config shown))
    ∧ (∃ all, fst (getAllProvidersWithKeyInfo ss w) = Ok all ∧ shown ∈ all)
    ∧ unchanged w (snd (getProviderWithKeyInfo ss providerId w))
    ∧ unchanged w (snd (getAllProvidersWithKeyInfo ss w))
    ∧ length keyMasked = length apiKey
    ∧ (12 < length apiKey →
       keyMasked = take 4 apiKey ++ replicate (length apiKey - 8) 42%N
                   ++ drop (length apiKey - 4) apiKey)
    ∧ (length apiKey ≤ 12 → keyMasked = replicate (length apiKey) 42%N)
    ∧ (length apiKey = 16 →
       keyMasked = take 4 apiKey ++ replicate 8 42%N ++ drop 12 apiKey)
    ∧ (length apiKey = 6 → keyMasked = replicate 6 42%N).
Proof.
  intros Hf Hcfg Hid Hkey Hne.
  destruct (getApiKey_healthy ss providerId w Hf) as (w0 & Hg & _).
  rewrite Hg in Hkey. cbn [fst] in Hkey.
  assert (Hret : retrieved ss w providerId = Some apiKey) by congruence.
  destruct (getProviderWithKeyInfo_healthy ss providerId w Hf)
    as (w1 & Hone & Hu1).
  destruct (getAllProvidersWithKeyInfo_healthy ss w Hf) as (w2 & Hall & Hu2).
  rewrite Hone, Hall, (shown_for_config ss w providerId cfg Hcfg).
  cbn [fst snd].
  assert (Hinfo : key_info ss w cfg providerId
                  = {| provider := cfg; hasKey := true;
                       keyMasked := mask (Some apiKey) |}).
  { unfold key_info. rewrite Hret. f_equal. by destruct apiKey. }
  rewrite Hinfo, (mask_nonempty apiKey Hne).
  eexists. cbn zeta.
  split; [reflexivity|]. split.
  { eexists. split; [reflexivity|].
    apply list_elem_of_fmap. exists cfg. split.
    - by rewrite Hid, Hinfo, (mask_nonempty apiKey Hne).
    - apply list_elem_of_fmap. exists (providerId, cfg). split; [done|].
      by apply elem_of_map_to_list. }
  split; [done|]. split; [done|].
  assert (Hlen : ∀ n, (12 <? n)%nat = true ↔ 12 < n)
    by (intros n; apply Nat.ltb_lt).
  split.
  { destruct (12 <? length apiKey)%nat eqn:E.
    - apply Hlen in E.
      rewrite !length_app, length_take, length_replicate, length_drop. lia.
    - by rewrite length_replicate. }
  split.
  { intros H. apply Hlen in H. by rewrite H. }
  split.
  { intros H. destruct (12 <? length apiKey)%nat eqn:E; [|done].
    apply Hlen in E. lia. }
  split.
  { intros H. rewrite H. reflexivity. }
  intros H. rewrite H. reflexivity.
Qed.

Lemma masked_key_witness :
  ∃ keyMasked,
    let shown := {| provider := anthropic_1; hasKey := true;
                    keyMasked := Some keyMasked |} in
    fst (getProviderWithKeyInfo cipher (js "anthropic-1") (configured []))
    = Ok (Some (for_config shown))
    ∧ (∃ all, fst (getAllProvidersWithKeyInfo cipher (configured [])) = Ok all
              ∧ shown ∈ all)
    ∧ unchanged (configured [])
        (snd (getProviderWithKeyInfo cipher (js "anthropic-1") (configured [])))
    ∧ unchanged (configured [])
        (snd (getAllProvidersWithKeyInfo cipher (configured [])))
    ∧ length keyMasked = length (js "sk-test-1234567890")
    ∧ (12 < length (js "sk-test-1234567890") →
       keyMasked = take 4 (js "sk-test-1234567890")
                   ++ replicate (length (js "sk-test-1234567890") - 8) 42%N
                   ++ drop (length (js "sk-test-1234567890") - 4)
                        (js "sk-test-1234567890"))
    ∧ (length (js "sk-test-1234567890") ≤ 12 →
       keyMasked = replicate (length (js "sk-test-1234567890")) 42%N)
    ∧ (length (js "sk-test-1234567890") = 16 →
       keyMasked = take 4 (js "sk-test-1234567890") ++ replicate 8 42%N
                   ++ drop 12 (js "sk-test-1234567890"))
    ∧ (length (js "sk-test-1234567890") = 6 → keyMasked = replicate 6 42%N).
Proof.
  apply (masked_key cipher (configured []) (js "anthropic-1") anthropic_1
           (js "sk-test-1234567890")).
  - reflexivity.
  - reflexivity.
  - reflexivity.
  - vm_compute. reflexivity.
  - discriminate.
Defined.

(** The scenario of the design document. *)
Example masked_key_scenario :
  fst (getProviderWithKeyInfo cipher (js "anthropic-1") (configured []))
  = Ok (Some (for_config {| provider := anthropic_1; hasKey := true;
                            keyMasked := Some (js "sk-t**********7890") |})).
Proof. vm_compute. reflexivity. Qed.

(** C5 as stated fails for the empty plaintext: stored under platform
    encryption it is retrieved as the empty string, and the display then
    has no mask at all instead of a mask of length zero. *)
Lemma masked_key_counterexample :
  let w := snd (storeApiKey cipher (js "anthropic-1") (js "")
                  (with_providers {[ js "anthropic-1" := anthropic_1 ]}
                     (fresh true))) in
  fst (getApiKey cipher (js "anthropic-1") w) = Ok (Some (js ""))
  ∧ fst (getProviderWithKeyInfo cipher (js "anthropic-1") w)
    = Ok (Some (for_config {| provider := anthropic_1; hasKey := false;
                              keyMasked := None |}))
  ∧ None ≠ Some (asterisks (length (js ""))).
Proof. vm_compute. repeat split. discriminate. Qed.

(** *** The empty key *)

(** C9.  After [storeApiKey] has succeeded for the empty plaintext, with
    no storage fault pending and a cipher that does not decrypt to
    something it was not given: [hasApiKey] is true, while
    [getProviderWithKeyInfo] reports no key and no mask; and in the base64
    fallback [getApiKey] returns [null]. *)
Theorem empty_key ss providerId cfg w w1 :
  faults w = [] →
  cipher_sound ss [] →
  providers w !! providerId = Some cfg →
  storeApiKey ss providerId [] w = (Ok true, w1) →
  fst (hasApiKey providerId w1) = Ok true
  ∧ fst (getProviderWithKeyInfo ss providerId w1)
    = Ok (Some (for_config {| provider := cfg; hasKey := false;
                              keyMasked := None |}))
  ∧ (encryptionAvailable w = false →
     fst (getApiKey ss providerId w1) = Ok None).
Proof.
  intros Hf Hsound Hcfg Hstore.
  assert (Hw1 : faults w1 = [] ∧ providers w1 = providers w
                ∧ encryptionAvailable w1 = encryptionAvailable w
                ∧ ∃ v, encryptedKeys w1 = assign providerId v (encryptedKeys w)
                       ∧ (encryptionAvailable w = false → v = [])
                       ∧ (encryptionAvailable w = true →
                          ∃ c, encryptString ss [] = Ok c
                               ∧ v = base64_encode c)).
  { destruct (encryptionAvailable w) eqn:He.
    - destruct (encryptString ss []) as [c|e] eqn:Hc.
      + rewrite (storeApiKey_encrypted ss providerId [] c w Hf He Hc) in Hstore.
        injection Hstore as <-. destruct w; simpl in *.
        repeat split; try done. eexists. split; [reflexivity|].
        split; [done|]. intros _. by exists c.
      + exfalso. revert Hstore. world w. subst.
        destruct st; run; rewrite ?Hc; done.
    - rewrite (storeApiKey_fallback ss providerId [] w Hf He) in Hstore.
      injection Hstore as <-. destruct w; simpl in *.
      repeat split; try done. eexists. split; [reflexivity|].
      split; [done|]. done. }
  destruct Hw1 as (Hf1 & Hp1 & He1 & v & Hv & Hplain & Hcipher).
  assert (Hlook : encryptedKeys w1 !! providerId = Some v
                  ∨ encryptedKeys w1 !! providerId = None).
  { rewrite Hv.
    destruct (assign_spec providerId v (encryptedKeys w))
      as [-> | (_ & Hnone & ->)]; [left; apply lookup_insert_eq | by right]. }
  assert (Hret : truthy (retrieved ss w1 providerId) = false).
  { unfold retrieved. destruct Hlook as [-> | ->]; [|done]. rewrite He1.
    destruct (truthy (Some v)) eqn:Htv; [|done]. cbn [negb].
    change (default [] (Some v)) with v.
    destruct (encryptionAvailable w) eqn:He.
    - destruct (Hcipher eq_refl) as (c & Hc & ->). cbn [negb].
      rewrite base64_decode_encode.
      destruct (decryptString ss c) as [p|] eqn:Hd; [|done].
      by rewrite (Hsound c p Hc Hd).
    - rewrite (Hplain eq_refl) in Htv. done. }
  split; [|split].
  - rewrite (hasApiKey_healthy providerId w1 Hf1). cbn [fst].
    by rewrite Hv, has_assign.
  - destruct (getProviderWithKeyInfo_healthy ss providerId w1 Hf1)
      as (w2 & -> & _).
    rewrite (shown_for_config ss w1 providerId cfg) by (by rewrite Hp1).
    cbn [fst]. unfold key_info.
    do 3 f_equal. f_equal; [done|].
    unfold mask. by rewrite Hret.
  - intros He.
    destruct (getApiKey_healthy ss providerId w1 Hf1) as (w2 & -> & _).
    cbn [fst]. unfold retrieved.
    destruct Hlook as [-> | ->]; [|done]. by rewrite (Hplain He).
Qed.

Lemma empty_key_witness :
  let w1 := snd (storeApiKey cipher (js "anthropic-1") [] (configured [])) in
  fst (hasApiKey (js "anthropic-1") w1) = Ok true
  ∧ fst (getProviderWithKeyInfo cipher (js "anthropic-1") w1)
    = Ok (Some (for_config {| provider := anthropic_1; hasKey := false;
                              keyMasked := None |}))
  ∧ fst (getApiKey cipher (js "anthropic-1") w1) = Ok None.
Proof.
  destruct (empty_key cipher (js "anthropic-1") anthropic_1 (configured [])
              (snd (storeApiKey cipher (js "anthropic-1") [] (configured []))))
    as (Hhas & Hinfo & Hget).
  - reflexivity.
  - intros c p Hc Hd. simpl in Hc. injection Hc as <-. simpl in Hd.
    by injection Hd as <-.
  - reflexivity.
  - reflexivity.
  - split; [exact Hhas|]. split; [exact Hinfo|]. apply Hget. reflexivity.
Defined.

End SecureStorageSpec.

(* ===================================================================== *)
(** ** The update controller                                              *)
(* ===================================================================== *)

Module UpdaterSpec.
Import Js Updater Fixtures.

Section Spec.
Context {UpdateInfo ProgressInfo UpdateDownloadedEvent UpdateCheckResult : Type}.
Variable event_info : UpdateDownloadedEvent → UpdateInfo.
Variable updateInfo : UpdateCheckResult → UpdateInfo.

Abbreviation Controller := (AppUpdater UpdateInfo ProgressInfo UpdateDownloadedEvent).
Abbreviation Event := (UpdaterEvent UpdateInfo ProgressInfo UpdateDownloadedEvent).

(** A listener: the merged status, one notification if the window is
    there, and the event passed on. *)
Lemma listener_runs (e : Event) (u : Controller) :
  ∃ s, listener event_info e u
       = (Ok tt,
          {| mainWindow := mainWindow u; current := s;
             autoDownload := autoDownload u;
             autoInstallOnAppQuit := autoInstallOnAppQuit u;
             channel := channel u; version := version u;
             outputs := outputs u
                        ++ (if live u
                            then [send "update:status-changed"
                                    (status_payload s)]
                            else [])
                        ++ [emit e] |})
       ∧ s = match e with
             | checking_for_update =>
                 {| status := checking; info := info (current u);
                    progress := progress (current u);
                    error := error (current u) |}
             | update_available i =>
                 {| status := available; info := Some i;
                    progress := progress (current u);
                    error := error (current u) |}
             | update_not_available i =>
                 {| status := not_available; info := Some i;
                    progress := progress (current u);
                    error := error (current u) |}
             | download_progress p =>
                 {| status := downloading; info := info (current u);
                    progress := Some p; error := error (current u) |}
             | update_downloaded ev =>
                 {| status := downloaded; info := Some (event_info ev);
                    progress := progress (current u);
                    error := error (current u) |}
             | error_event err =>
                 {| status := errored; info := info (current u);
                    progress := progress (current u);
                    error := Some (message err) |}
             end.
Proof.
  destruct u as [[[[|]]|] cur ad ai ch v outs]; destruct e;
    eexists; (split; [|reflexivity]);
    unfold listener, updateStatus, sendToRenderer, output, bind, modify,
      gets, ret, live; simpl; rewrite <- ?app_assoc; reflexivity.
Qed.

Lemma listener_returns (e : Event) (u : Controller) :
  fst (listener event_info e u) = Ok tt.
Proof. destruct (listener_runs e u) as (s & -> & _). reflexivity. Qed.

Lemma after_nil (u : Controller) : after event_info [] u = u.
Proof. reflexivity. Qed.

Lemma for_of_listener_returns (events : list Event) (u : Controller) :
  ∃ done u', for_of events (listener event_info) u = (Ok done, u').
Proof.
  revert u. induction events as [|e events IH]; intros u.
  - by do 2 eexists.
  - cbn [for_of]. unfold bind at 1.
    destruct (listener_runs e u) as (s & -> & _).
    unfold bind at 1.
    match goal with
    | |- context [for_of events _ ?v] =>
        destruct (IH v) as (done & u' & ->)
    end.
    by do 2 eexists.
Qed.

Lemma for_of_listener (events : list Event) (u : Controller) :
  ∃ done, for_of events (listener event_info) u
          = (Ok done, after event_info events u).
Proof.
  destruct (for_of_listener_returns events u) as (done & u' & H).
  exists done. unfold after. by rewrite H.
Qed.

Lemma after_cons (e : Event) (events : list Event) (u : Controller) :
  after event_info (e :: events) u
  = after event_info events (snd (listener event_info e u)).
Proof.
  unfold after. cbn [for_of]. unfold bind at 1.
  destruct (listener_runs e u) as (s & -> & _).
  unfold bind at 1.
  destruct (for_of_listener events
              {| mainWindow := mainWindow u; current := s;
                 autoDownload := autoDownload u;
                 autoInstallOnAppQuit := autoInstallOnAppQuit u;
                 channel := channel u; version := version u;
                 outputs := outputs u
                            ++ (if live u
                                then [send "update:status-changed"
                                        (status_payload s)]
                                else [])
                            ++ [emit e] |}) as (done & Hrun).
  unfold after in Hrun. by rewrite Hrun.
Qed.

Lemma after_app (es1 es2 : list Event) (u : Controller) :
  after event_info (es1 ++ es2) u
  = after event_info es2 (after event_info es1 u).
Proof.
  revert u. induction es1 as [|e es1 IH]; intros u; [done|].
  cbn [app]. by rewrite !after_cons, IH.
Qed.

(** A request changes the status through the events emitted while it
    is served, and in no other way. *)
Lemma handle_status (r : Request UpdateInfo ProgressInfo UpdateDownloadedEvent
                           UpdateCheckResult) (u : Controller) :
  current (snd (handle event_info updateInfo r u))
  = current (after event_info (events_of r) u)
  ∧ mainWindow (snd (handle event_info updateInfo r u)) = mainWindow u.
Proof.
  assert (Hwin : ∀ events (v : Controller),
             mainWindow (after event_info events v) = mainWindow v).
  { induction events as [|e events IH]; intros v; [done|].
    rewrite after_cons, IH.
    by destruct (listener_runs e v) as (s & -> & _). }
  destruct r as [| |c|c|c| |]; try (split; reflexivity).
  - cbn [handle events_of].
    unfold try_catch, bind, checkForUpdates, try_catch, await, bind.
    destruct (for_of_listener (emitted c) u) as (done & ->).
    unfold lift. destruct (settled c); simpl; split; by rewrite ?Hwin.
  - cbn [handle events_of].
    unfold try_catch, bind, downloadUpdate, try_catch, await, bind.
    destruct (for_of_listener (emitted c) u) as (done & ->).
    unfold lift. destruct (settled c); simpl; split; by rewrite ?Hwin.
  - cbn [handle events_of]. unfold bind, quitAndInstall, await, bind.
    destruct (for_of_listener (emitted c) u) as (done & ->).
    unfold lift. destruct (settled c); simpl; split; by rewrite ?Hwin.
Qed.

(** *** The transitions of the status *)

(** C2, as amended.  Each event of the updater sets the status by its
    kind alone, whatever the status was; so every transition the design
    document gives for an event is taken, and so are the same moves from
    the states the document does not list.  A progress event replaces
    the progress payload and keeps [info] and [error]; a failure stores
    its message.  A request of the UI, the download request included,
    changes the status record only through the events emitted while it
    is served: with no event the record is what it was. *)
Theorem status_transitions :
  (∀ (e : Event) (u : Controller),
     status (current (snd (listener event_info e u)))
     = match e with
       | checking_for_update => checking
       | update_available _ => available
       | update_not_available _ => not_available
       | download_progress _ => downloading
       | update_downloaded _ => downloaded
       | error_event _ => errored
       end)
  ∧ (∀ (e : Event) (u : Controller) s',
       specified (status (current u)) (trigger_of e) s' →
       status (current (snd (listener event_info e u))) = s')
  ∧ (∀ p (u : Controller),
       current (snd (listener event_info (download_progress p) u))
       = {| status := downloading; info := info (current u);
            progress := Some p; error := error (current u) |})
  ∧ (∀ err (u : Controller),
       error (current (snd (listener event_info (error_event err) u)))
       = Some (message err))
  ∧ (∀ r (u : Controller),
       current (snd (handle event_info updateInfo r u))
       = current (after event_info (events_of r) u))
  ∧ (∀ r (u : Controller),
       events_of r = [] →
       current (snd (handle event_info updateInfo r u)) = current u).
Proof.
  assert (Hkind : ∀ (e : Event) (u : Controller),
     status (current (snd (listener event_info e u)))
     = match e with
       | checking_for_update => checking
       | update_available _ => available
       | update_not_available _ => not_available
       | download_progress _ => downloading
       | update_downloaded _ => downloaded
       | error_event _ => errored
       end).
  { intros e u. destruct (listener_runs e u) as (s & -> & ->).
    by destruct e. }
  split; [exact Hkind|]. split.
  { intros e u s' Hspec. rewrite Hkind.
    destruct e; cbn [trigger_of] in Hspec; by inversion Hspec. }
  split.
  { intros p u. by destruct (listener_runs (download_progress p) u)
      as (s & -> & ->). }
  split.
  { intros err u. by destruct (listener_runs (error_event err) u)
      as (s & -> & ->). }
  split.
  { intros r u. apply handle_status. }
  intros r u Hr. destruct (handle_status r u) as [-> _]. by rewrite Hr.
Qed.

(** *** Progress *)

Lemma progress_after (events : list Event) (u : Controller) :
  progress (current (after event_info events u))
  = fold_left (fun acc e => match e with
                            | download_progress p => Some p
                            | _ => acc
                            end) events (progress (current u)).
Proof.
  revert u. induction events as [|e events IH]; intros u; [done|].
  rewrite after_cons, IH. cbn [fold_left]. f_equal.
  destruct (listener_runs e u) as (s & -> & ->). by destruct e.
Qed.

(** C4, as amended.  An update-found event yields the status
    [available] with the info of the event and the progress payload
    that was there before; a failure yields [errored] with the message
    of the error and, again, the progress payload that was there.  The
    payload is never removed: after any run of events from the initial
    state it is the latest one reported, and there is none exactly when
    no progress event has occurred. *)
Theorem progress_is_kept :
  (∀ i (u : Controller),
     let s := current (snd (listener event_info (update_available i) u)) in
     status s = available ∧ info s = Some i
     ∧ progress s = progress (current u))
  ∧ (∀ err (u : Controller),
       let s := current (snd (listener event_info (error_event err) u)) in
       status s = errored ∧ error s = Some (message err)
       ∧ progress s = progress (current u))
  ∧ (∀ v (events : list Event),
       progress (current (after event_info events (constructor v)))
       = last_progress events).
Proof.
  split; [|split].
  - intros i u.
    by destruct (listener_runs (update_available i) u) as (s & -> & ->).
  - intros err u.
    by destruct (listener_runs (error_event err) u) as (s & -> & ->).
  - intros v events. by rewrite progress_after.
Qed.

(** *** Notifications *)

(** C8, as amended.  A listener merges its fields into the one status
    record and, when a window is attached and not destroyed, sends that
    whole merged record on [update:status-changed] in the same step,
    before passing the event on.  With no window, or a destroyed one,
    the record is updated and nothing is sent.  Nothing but a listener
    writes the record. *)
Theorem status_is_notified :
  (∀ (e : Event) (u : Controller),
     live u = true →
     outputs (snd (listener event_info e u))
     = outputs u
       ++ [send "update:status-changed"
             (status_payload (current (snd (listener event_info e u))));
           emit e])
  ∧ (∀ (e : Event) (u : Controller),
       live u = false →
       outputs (snd (listener event_info e u)) = outputs u ++ [emit e])
  ∧ (∀ r (u : Controller),
       current (snd (handle event_info updateInfo r u))
       = current (after event_info (events_of r) u)).
Proof.
  split; [|split].
  - intros e u Hl. destruct (listener_runs e u) as (s & -> & _).
    cbn [snd outputs current]. by rewrite Hl.
  - intros e u Hl. destruct (listener_runs e u) as (s & -> & _).
    cbn [snd outputs current]. by rewrite Hl.
  - intros r u. apply handle_status.
Qed.

(** *** The reply to [update:check] *)

(** C10.  [checkForUpdates] never throws: when the call into the
    updater rejects, it returns [null].  So the handler of
    [update:check] replies [success: true] every time, never with
    [success: false]; the reply to a failed check is the reply to a
    check that found no result.  What the check did to the status is
    what the events emitted during it did. *)
Theorem check_always_succeeds
    (c : Call UpdateInfo ProgressInfo UpdateDownloadedEvent
           (option UpdateCheckResult)) (u : Controller) :
  fst (checkForUpdates event_info updateInfo c u)
  = Ok match settled c with
       | Ok result => option_map updateInfo result
       | Throw _ => None
       end
  ∧ fst (handle event_info updateInfo (update_check c) u)
    = Ok (reply_check true
            match settled c with
            | Ok result => option_map updateInfo result
            | Throw _ => None
            end)
  ∧ (∀ err, fst (handle event_info updateInfo (update_check c) u)
            ≠ Ok (reply_failed false err))
  ∧ returns (fst (handle event_info updateInfo (update_check c) u)) = true
  ∧ current (snd (handle event_info updateInfo (update_check c) u))
    = current (after event_info (emitted c) u).
Proof.
  assert (Hcheck : fst (checkForUpdates event_info updateInfo c u)
                   = Ok match settled c with
                        | Ok result => option_map updateInfo result
                        | Throw _ => None
                        end).
  { unfold checkForUpdates, try_catch, await, bind.
    destruct (for_of_listener (emitted c) u) as (done & ->).
    unfold lift. by destruct (settled c). }
  assert (Hreply : fst (handle event_info updateInfo (update_check c) u)
                   = Ok (reply_check true
                           match settled c with
                           | Ok result => option_map updateInfo result
                           | Throw _ => None
                           end)).
  { cbn [handle]. unfold try_catch at 1. unfold bind at 1.
    destruct (checkForUpdates event_info updateInfo c u) as [r u'] eqn:E.
    cbn [fst] in Hcheck. subst r. reflexivity. }
  split; [done|]. split; [done|]. split; [|split].
  - intros err. by rewrite Hreply.
  - by rewrite Hreply.
  - apply (handle_status (update_check c) u).
Qed.

End Spec.

(** *** Samples *)

Lemma status_transitions_witness :
  status (current (snd (listener id checking_for_update
                          (controller (Some open_window) (at_status idle)))))
  = checking
  ∧ current (snd (handle id id (update_setAutoDownload true)
                    (controller (Some open_window) (at_status downloaded))))
    = current (controller (Some open_window) (at_status downloaded)).
Proof.
  destruct (status_transitions (UpdateInfo := string) (ProgressInfo := N)
              (UpdateDownloadedEvent := string) (UpdateCheckResult := string)
              id id)
    as (_ & Hspec & _ & _ & _ & Hrequest).
  split.
  - apply Hspec. constructor.
  - apply Hrequest. reflexivity.
Defined.

(** C2 as stated fails.  The document moves [available] to [downloading]
    on the download request; the controller does nothing to the status on
    a request, so a download served from the cache goes from [available]
    straight to [downloaded] and a download that fails at once to
    [errored], with [downloading] never visited.  And the controller has
    no guard on the state it leaves: a check observed in [downloaded]
    moves to [checking], which the document does not list. *)
Lemma status_transitions_counterexample :
  let u := controller (Some open_window) (at_status available) in
  specified available download_requested downloading
  ∧ visited (@id string) (events_of (UpdateCheckResult := string)
                            (update_download cached_download)) u
    = [downloaded]
  ∧ status (current (snd (handle id (@id string)
                            (update_download cached_download) u)))
    = downloaded
  ∧ visited (@id string) (events_of (UpdateCheckResult := string)
                            (update_download failing_download)) u
    = [errored]
  ∧ status (current (snd (handle id (@id string)
                            (update_download failing_download) u)))
    = errored
  ∧ status (current (snd (listener id checking_for_update
                            (controller (Some open_window)
                               (at_status downloaded)))))
    = checking
  ∧ ¬ specified downloaded check checking.
Proof.
  cbn zeta. split; [constructor|]. repeat split. intros H. inversion H.
Qed.

(** C4 as stated fails: the progress payload of a download survives the
    failure that ends it, and it survives a later check that finds an
    update. *)
Lemma progress_is_kept_counterexample :
  let failed := after (@id string)
                  [download_progress 40%N;
                   error_event (mkError "net::ERR_FAILED")]
                  (controller (Some open_window) (at_status available)) in
  let found := after (@id string)
                 [download_progress 40%N; checking_for_update;
                  update_available "0.3.0"%string]
                 (controller (Some open_window) (at_status available)) in
  status (current failed) = errored
  ∧ progress (current failed) = Some 40%N
  ∧ status (current found) = available
  ∧ progress (current found) = Some 40%N.
Proof. repeat split. Qed.

Lemma status_is_notified_witness :
  outputs (snd (listener (@id string) (download_progress 40%N)
                  (controller (Some open_window) (at_status available))))
  = outputs (controller (Some open_window) (at_status available))
    ++ [send "update:status-changed"
          (status_payload
             (current (snd (listener (@id string) (download_progress 40%N)
                             (controller (Some open_window)
                                (at_status available))))));
        emit (download_progress 40%N)]
  ∧ outputs (snd (listener (@id string) (download_progress 40%N)
                    (controller (Some closed_window) (at_status available))))
    = outputs (controller (Some closed_window) (at_status available))
      ++ [emit (download_progress 40%N)].
Proof.
  destruct (status_is_notified (UpdateInfo := string) (ProgressInfo := N)
              (UpdateDownloadedEvent := string) (UpdateCheckResult := string)
              id id)
    as (Hlive & Hgone & _).
  split.
  - apply Hlive. reflexivity.
  - apply Hgone. reflexivity.
Defined.

(** C8 as stated fails: once the window is destroyed, and before one is
    attached, an event changes the status record and no
    [update:status-changed] is sent. *)
Lemma status_is_notified_counterexample :
  let closed := controller (Some closed_window) (at_status idle) in
  let unattached : AppUpdater string N string := constructor "0.1.0" in
  status (current (snd (listener id checking_for_update closed))) = checking
  ∧ status (current closed) = idle
  ∧ outputs (snd (listener id checking_for_update closed))
    = [emit checking_for_update]
  ∧ status (current (snd (listener id checking_for_update unattached)))
    = checking
  ∧ outputs (snd (listener id checking_for_update unattached))
    = [emit checking_for_update].
Proof. repeat split. Qed.

(** A failed check: the reply says success; the failure is in the status
    record sent on [update:status-changed] and in the event passed on,
    which the forwarder turns into [update:error]. *)
Example failed_check_reply :
  let r := handle id (@id string) (update_check failing_check)
             (controller (Some open_window) (at_status idle)) in
  let failure := mkError "net::ERR_FAILED" in
  fst r = Ok (reply_check true None)
  ∧ current (snd r)
    = {| status := errored; info := None; progress := None;
         error := Some "net::ERR_FAILED"%string |}
  ∧ outputs (snd r)
    = [send "update:status-changed" (status_payload (at_status checking));
       emit checking_for_update;
       send "update:status-changed" (status_payload (current (snd r)));
       emit (error_event failure);
       log "[Updater] Check for updates failed:" failure]
  ∧ forward open_window (error_event failure)
    = Some (send (UpdateInfo := string) (ProgressInfo := N)
              (UpdateDownloadedEvent := string)
              "update:error" (text_payload "net::ERR_FAILED")).
Proof. repeat split. Qed.

End UpdaterSpec.

(* ===================================================================== *)
(** ** The credential store: further properties                           *)
(* ===================================================================== *)

Module SecureStorageMore.
Import Node NodeFacts Js SecureStorage Fixtures SecureStorageSpec Environment.

(** *** Provider configs *)

Lemma saveProvider_healthy config w :
  faults w = [] →
  saveProvider config w
  = (Ok tt, with_providers (assign (id config) config (providers w))
              (with_providerStore true w)).
Proof. world w. intros ->. destruct pst; run; reflexivity. Qed.

Lemma getAllProviders_healthy w :
  faults w = [] →
  getAllProviders w
  = (Ok (Object_values (providers w)), with_providerStore true w).
Proof. world w. intros ->. destruct pst; run; reflexivity. Qed.

(** X1.  A saved config is stored under its own id: with no storage
    fault pending and an id other than [__proto__], [getProvider] of
    that id returns the config, replacing what was saved under the id
    before, and [getAllProviders] lists it.  For the id [__proto__],
    when no config is stored under it, the assignment reaches the
    inherited accessor: nothing is saved and [getProvider] finds the
    prototype.  Either way every other id, every key and the default
    pointer are as before. *)
Theorem saveProvider_getProvider config other w :
  faults w = [] →
  other ≠ id config →
  let w' := snd (saveProvider config w) in
  fst (saveProvider config w) = Ok tt
  ∧ (id config ≠ js "__proto__" →
     fst (getProvider (id config) w') = Ok (Some (own config))
     ∧ ∃ all, fst (getAllProviders w') = Ok all ∧ config ∈ all)
  ∧ (id config = js "__proto__" → providers w !! id config = None →
     providers w' = providers w
     ∧ fst (getProvider (id config) w') = Ok (Some (member (id config))))
  ∧ fst (getProvider other w') = fst (getProvider other w)
  ∧ encryptedKeys w' = encryptedKeys w
  ∧ defaultProvider w' = defaultProvider w.
Proof.
  intros Hf Hne. cbn zeta. rewrite (saveProvider_healthy config w Hf).
  cbn [fst snd]. set (w' := with_providers _ _).
  assert (Hf' : faults w' = []) by (by destruct w).
  assert (Hp : providers w' = assign (id config) config (providers w))
    by (by destruct w).
  rewrite !(getProvider_healthy _ w' Hf'), (getAllProviders_healthy w' Hf').
  rewrite (getProvider_healthy other w Hf). cbn [fst]. rewrite Hp.
  split; [done|]. split.
  { intros Hid. rewrite (assign_insert _ _ _ Hid). split.
    - by rewrite (get_own _ config) by apply lookup_insert_eq.
    - eexists. split; [reflexivity|].
      apply list_elem_of_fmap. exists (id config, config). split; [done|].
      apply elem_of_map_to_list, lookup_insert_eq. }
  split.
  { intros Hid Hnone.
    destruct (assign_spec (id config) config (providers w))
      as [Hins | (_ & _ & Hsame)].
    - exfalso. revert Hins. unfold assign.
      rewrite bool_decide_eq_true_2 by done.
      rewrite bool_decide_eq_false_2 by (rewrite Hnone; by intros [? ?]).
      cbn [andb negb]. intros Hins.
      assert (H : providers w !! id config = Some config)
        by (rewrite Hins; apply lookup_insert_eq).
      by rewrite Hnone in H.
    - rewrite Hsame. split; [done|]. unfold get. rewrite Hnone, Hid.
      reflexivity. }
  split; [unfold get; by rewrite lookup_assign_ne|].
  by destruct w.
Qed.

Lemma saveProvider_getProvider_witness :
  (let w' := snd (saveProvider anthropic_1 (fresh true)) in
   fst (getProvider (id anthropic_1) w') = Ok (Some (own anthropic_1))
   ∧ ∃ all, fst (getAllProviders w') = Ok all ∧ anthropic_1 ∈ all)
  ∧ (let config := {| id := js "__proto__"; name := js "Anthropic";
                      type := anthropic; baseUrl := None; model := None;
                      enabled := true;
                      createdAt := js "2026-01-01T00:00:00.000Z";
                      updatedAt := js "2026-01-01T00:00:00.000Z" |} in
     let w' := snd (saveProvider config (fresh true)) in
     providers w' = providers (fresh true)
     ∧ fst (getProvider (id config) w') = Ok (Some (member (id config)))).
Proof.
  split.
  - destruct (saveProvider_getProvider anthropic_1 (js "openai-2")
                (fresh true)) as (_ & Hsaved & _);
      [reflexivity | discriminate |].
    apply Hsaved. discriminate.
  - cbn zeta.
    match goal with
    | |- context [saveProvider ?config _] =>
        destruct (saveProvider_getProvider config (js "openai-2")
                    (fresh true)) as (_ & _ & Hproto & _);
          [reflexivity | discriminate |]
    end.
    apply Hproto; reflexivity.
Defined.

(** X2.  The default pointer is whatever id was set last: with no
    storage fault pending, [getDefaultProvider] returns the id given to
    [setDefaultProvider], whether or not a config is saved under it;
    setting it creates no config and touches no key. *)
Theorem setDefaultProvider_getDefaultProvider providerId w :
  faults w = [] →
  let w' := snd (setDefaultProvider providerId w) in
  fst (setDefaultProvider providerId w) = Ok tt
  ∧ fst (getDefaultProvider w') = Ok (Some providerId)
  ∧ fst (getProvider providerId w') = fst (getProvider providerId w)
  ∧ providers w' = providers w
  ∧ encryptedKeys w' = encryptedKeys w.
Proof.
  world w. intros ->. destruct pst; run; done.
Qed.

Lemma setDefaultProvider_getDefaultProvider_witness :
  let w' := snd (setDefaultProvider (js "nobody") (fresh true)) in
  fst (setDefaultProvider (js "nobody") (fresh true)) = Ok tt
  ∧ fst (getDefaultProvider w') = Ok (Some (js "nobody"))
  ∧ fst (getProvider (js "nobody") w')
    = fst (getProvider (js "nobody") (fresh true))
  ∧ providers w' = providers (fresh true)
  ∧ encryptedKeys w' = encryptedKeys (fresh true).
Proof.
  apply (setDefaultProvider_getDefaultProvider (js "nobody") (fresh true)).
  reflexivity.
Defined.

(** *** Stored keys *)

Lemma listStoredKeyIds_healthy w :
  faults w = [] →
  listStoredKeyIds w
  = (Ok (Object_keys (encryptedKeys w)), with_store true w).
Proof. world w. intros ->. destruct st; run; reflexivity. Qed.

(** X3.  [listStoredKeyIds] and [hasApiKey]: with no storage fault
    pending the list holds the ids with a stored entry, each once;
    [hasApiKey] is true for every id in the list, and for an id that is
    not in the list it is true exactly when the id names a member of
    [Object.prototype] (such as [toString]), which [in] also finds. *)
Theorem listStoredKeyIds_hasApiKey providerId w :
  faults w = [] →
  ∃ ids, fst (listStoredKeyIds w) = Ok ids
         ∧ NoDup ids
         ∧ (providerId ∈ ids ↔ is_Some (encryptedKeys w !! providerId))
         ∧ fst (hasApiKey providerId w)
           = Ok (bool_decide (providerId ∈ ids) || inherited providerId)
         ∧ (providerId ∈ ids → fst (hasApiKey providerId w) = Ok true).
Proof.
  intros Hf. rewrite (listStoredKeyIds_healthy w Hf).
  rewrite (hasApiKey_healthy providerId w Hf). cbn [fst].
  eexists. split; [reflexivity|]. split; [apply NoDup_Object_keys|].
  split; [apply elem_of_Object_keys|].
  assert (Hkeys : bool_decide (providerId ∈ Object_keys (encryptedKeys w))
                  = bool_decide (is_Some (encryptedKeys w !! providerId))).
  { apply bool_decide_ext, elem_of_Object_keys. }
  split; [unfold has; by rewrite Hkeys|].
  intros Hin. unfold has. rewrite <- Hkeys.
  by rewrite bool_decide_eq_true_2.
Qed.

Lemma listStoredKeyIds_hasApiKey_witness :
  (∃ ids, fst (listStoredKeyIds (configured [])) = Ok ids
          ∧ js "anthropic-1" ∈ ids
          ∧ fst (hasApiKey (js "anthropic-1") (configured [])) = Ok true)
  ∧ (∃ ids, fst (listStoredKeyIds (fresh true)) = Ok ids
            ∧ (js "toString" ∉ ids)
            ∧ fst (hasApiKey (js "toString") (fresh true)) = Ok true).
Proof.
  split.
  - destruct (listStoredKeyIds_hasApiKey (js "anthropic-1") (configured []))
      as (ids & Hids & _ & Hin & _ & Hhas); [reflexivity|].
    exists ids. split; [exact Hids|].
    assert (Hel : js "anthropic-1" ∈ ids)
      by (apply Hin; eexists; reflexivity).
    split; [exact Hel | exact (Hhas Hel)].
  - destruct (listStoredKeyIds_hasApiKey (js "toString") (fresh true))
      as (ids & Hids & _ & Hin & Hhas & _); [reflexivity|].
    exists ids. split; [exact Hids|].
    assert (Hout : js "toString" ∉ ids).
    { intros Hel. apply Hin in Hel as [v Hv]. discriminate Hv. }
    split; [exact Hout|].
    rewrite Hhas. rewrite bool_decide_eq_false_2 by exact Hout.
    reflexivity.
Defined.

(** X4.  [storeApiKey] and [deleteApiKey] touch the entry of their id and
    nothing else, whatever the file system and the cipher do: the entry
    of every other id, the configs and the default pointer are as before,
    and with no storage fault pending [getApiKey] of another id returns
    what it returned before. *)
Theorem key_writes_are_local ss providerId apiKey other w :
  other ≠ providerId →
  let stored := snd (storeApiKey ss providerId apiKey w) in
  let deleted := snd (deleteApiKey providerId w) in
  encryptedKeys stored !! other = encryptedKeys w !! other
  ∧ providers stored = providers w
  ∧ defaultProvider stored = defaultProvider w
  ∧ encryptedKeys deleted !! other = encryptedKeys w !! other
  ∧ providers deleted = providers w
  ∧ defaultProvider deleted = defaultProvider w
  ∧ (faults w = [] →
     fst (getApiKey ss other stored) = fst (getApiKey ss other w)
     ∧ fst (getApiKey ss other deleted) = fst (getApiKey ss other w)).
Proof.
  intros Hne. cbn zeta.
  assert (Hs : encryptedKeys (snd (storeApiKey ss providerId apiKey w)) !! other
               = encryptedKeys w !! other
               ∧ providers (snd (storeApiKey ss providerId apiKey w))
                 = providers w
               ∧ defaultProvider (snd (storeApiKey ss providerId apiKey w))
                 = defaultProvider w
               ∧ encryptionAvailable (snd (storeApiKey ss providerId apiKey w))
                 = encryptionAvailable w).
  { world w. destruct st, enc; do 3 (try next_fault fs); run;
      try destruct (encryptString ss apiKey); run;
      rewrite ?lookup_assign_ne by done; done. }
  assert (Hd : encryptedKeys (snd (deleteApiKey providerId w)) !! other
               = encryptedKeys w !! other
               ∧ providers (snd (deleteApiKey providerId w)) = providers w
               ∧ defaultProvider (snd (deleteApiKey providerId w))
                 = defaultProvider w
               ∧ encryptionAvailable (snd (deleteApiKey providerId w))
                 = encryptionAvailable w).
  { world w. destruct st; do 3 (try next_fault fs); run;
      rewrite ?lookup_delete_ne by done; done. }
  destruct Hs as (Hs1 & Hs2 & Hs3 & Hs4). destruct Hd as (Hd1 & Hd2 & Hd3 & Hd4).
  repeat (split; [done|]).
  intros Hf.
  destruct (getApiKey_healthy ss other w Hf) as (w0 & -> & _).
  destruct (storeApiKey_env ss providerId apiKey w Hf) as [Hfs _].
  destruct (getApiKey_healthy ss other _ Hfs) as (w1 & -> & _).
  assert (Hfd : faults (snd (deleteApiKey providerId w)) = [])
    by (rewrite (deleteApiKey_healthy providerId w Hf); by destruct w).
  destruct (getApiKey_healthy ss other _ Hfd) as (w2 & -> & _).
  cbn [fst]. unfold retrieved. by rewrite Hs1, Hs4, Hd1, Hd4.
Qed.

Lemma key_writes_are_local_witness :
  let stored := snd (storeApiKey cipher (js "openai-2") (js "sk-2")
                       (configured [])) in
  let deleted := snd (deleteApiKey (js "openai-2") (configured [])) in
  fst (getApiKey cipher (js "anthropic-1") stored)
  = fst (getApiKey cipher (js "anthropic-1") (configured []))
  ∧ fst (getApiKey cipher (js "anthropic-1") deleted)
    = fst (getApiKey cipher (js "anthropic-1") (configured [])).
Proof.
  destruct (key_writes_are_local cipher (js "openai-2") (js "sk-2")
              (js "anthropic-1") (configured []))
    as (_ & _ & _ & _ & _ & _ & Hget); [discriminate|].
  apply Hget. reflexivity.
Defined.


(** *** Reads and failed writes *)

Lemma getApiKey_persisted ss providerId w :
  persisted (snd (getApiKey ss providerId w)) = persisted w.
Proof.
  world w. destruct st; do 2 (try next_fault fs); run; try done;
    destruct (get keys providerId) as [[[|u v]|name]|]; simpl; try done;
    destruct enc; simpl; try done;
    destruct (decryptString ss _); done.
Qed.

Lemma getAllProvidersWithKeyInfo_loop_persisted ss (ps : list ProviderConfig) w :
  persisted (snd (for_of ps (fun p =>
     bind (getApiKey ss (id p)) (fun apiKey =>
     ret {| provider := p; hasKey := truthy apiKey;
            keyMasked := mask apiKey |})) w))
  = persisted w.
Proof.
  revert w. induction ps as [|p ps IH]; intros w; [done|].
  cbn [for_of]. unfold bind at 1. unfold bind at 1.
  pose proof (getApiKey_persisted ss (id p) w) as Hg.
  pose proof (getApiKey_returns ss (id p) w) as Hr.
  destruct (getApiKey ss (id p) w) as [[apiKey|e] w1]; [|done].
  cbn [snd] in Hg. unfold ret at 1. unfold bind at 1.
  pose proof (IH w1) as Hloop.
  destruct (for_of ps _ w1) as [[rs|e] w2]; unfold ret; cbn [snd] in *;
    congruence.
Qed.

(** X5.  Reading never writes: whatever the file system and the cipher
    do, [getApiKey], [hasApiKey], [listStoredKeyIds], [getProvider],
    [getAllProviders], [getDefaultProvider], [getProviderWithKeyInfo] and
    [getAllProvidersWithKeyInfo] leave the stored keys, the configs and
    the default pointer as they were. *)
Theorem reads_do_not_write ss providerId w :
  persisted (snd (getApiKey ss providerId w)) = persisted w
  ∧ persisted (snd (hasApiKey providerId w)) = persisted w
  ∧ persisted (snd (listStoredKeyIds w)) = persisted w
  ∧ persisted (snd (getProvider providerId w)) = persisted w
  ∧ persisted (snd (getAllProviders w)) = persisted w
  ∧ persisted (snd (getDefaultProvider w)) = persisted w
  ∧ persisted (snd (getProviderWithKeyInfo ss providerId w)) = persisted w
  ∧ persisted (snd (getAllProvidersWithKeyInfo ss w)) = persisted w.
Proof.
  assert (Hp : ∀ v, persisted (snd (getProvider providerId v)) = persisted v).
  { intros v. world v. destruct pst; do 2 (try next_fault fs); run; done. }
  assert (Ha : ∀ v, persisted (snd (getAllProviders v)) = persisted v).
  { intros v. world v. destruct pst; do 2 (try next_fault fs); run; done. }
  split; [apply getApiKey_persisted|].
  split; [world w; destruct st; do 2 (try next_fault fs); run; done|].
  split; [world w; destruct st; do 2 (try next_fault fs); run; done|].
  split; [apply Hp|]. split; [apply Ha|].
  split; [world w; destruct pst; do 2 (try next_fault fs); run; done|].
  split.
  - unfold getProviderWithKeyInfo, bind at 1. pose proof (Hp w) as H1.
    destruct (getProvider providerId w) as [[[p|]|e] w1]; cbn [snd] in *;
      try done.
    unfold bind. pose proof (getApiKey_persisted ss providerId w1) as H2.
    destruct (getApiKey ss providerId w1) as [[a|e] w2]; cbn [snd] in *;
      unfold ret; cbn [snd]; congruence.
  - unfold getAllProvidersWithKeyInfo, bind at 1. pose proof (Ha w) as H1.
    destruct (getAllProviders w) as [[ps|e] w1]; cbn [snd] in *; [|done].
    rewrite <- H1. apply getAllProvidersWithKeyInfo_loop_persisted.
Qed.

(** X6.  A write that reports failure has written nothing: when
    [storeApiKey] or [deleteApiKey] returns false, the stored keys, the
    configs and the default pointer are as before the call. *)
Theorem failed_write_changes_nothing ss providerId apiKey w :
  (fst (storeApiKey ss providerId apiKey w) = Ok false →
   persisted (snd (storeApiKey ss providerId apiKey w)) = persisted w)
  ∧ (fst (deleteApiKey providerId w) = Ok false →
     persisted (snd (deleteApiKey providerId w)) = persisted w).
Proof.
  split.
  - world w. destruct st, enc; do 3 (try next_fault fs); run; try done;
      destruct (encryptString ss apiKey); run; done.
  - world w. destruct st; do 3 (try next_fault fs); run; done.
Qed.

Lemma failed_write_changes_nothing_witness :
  persisted (snd (storeApiKey cipher (js "anthropic-1") (js "sk-new")
                    (configured [false; false; true])))
  = persisted (configured [false; false; true])
  ∧ persisted (snd (deleteApiKey (js "anthropic-1")
                      (configured [false; false; true])))
    = persisted (configured [false; false; true]).
Proof.
  destruct (failed_write_changes_nothing cipher (js "anthropic-1")
              (js "sk-new") (configured [false; false; true])) as [Hs Hd].
  split; [apply Hs | apply Hd]; reflexivity.
Defined.

(** X7.  When the platform cipher fails to encrypt, [storeApiKey] does
    not fall back to the plain encoding: with encryption available and
    no storage fault pending it returns false, stores nothing, and logs
    the cipher's error once. *)
Theorem storeApiKey_encryption_failure ss providerId apiKey e w :
  faults w = [] →
  encryptionAvailable w = true →
  encryptString ss apiKey = Throw e →
  fst (storeApiKey ss providerId apiKey w) = Ok false
  ∧ persisted (snd (storeApiKey ss providerId apiKey w)) = persisted w
  ∧ console (snd (storeApiKey ss providerId apiKey w))
    = console w ++ [console_error "Failed to store API key:" e].
Proof.
  world w. intros -> -> He. destruct st; run; rewrite He; done.
Qed.

Lemma storeApiKey_encryption_failure_witness :
  fst (storeApiKey failing_cipher (js "anthropic-1") (js "sk") (fresh true))
  = Ok false
  ∧ persisted (snd (storeApiKey failing_cipher (js "anthropic-1") (js "sk")
                      (fresh true)))
    = persisted (fresh true)
  ∧ console (snd (storeApiKey failing_cipher (js "anthropic-1") (js "sk")
                    (fresh true)))
    = console (fresh true)
      ++ [console_error "Failed to store API key:"
            (mkError "Error while encrypting")].
Proof.
  apply (storeApiKey_encryption_failure failing_cipher (js "anthropic-1")
           (js "sk") (mkError "Error while encrypting") (fresh true));
    reflexivity.
Defined.

(** X8.  What the three key functions log.  A call that succeeds logs no
    error: [deleteApiKey] returning true and [getApiKey] returning a key
    log nothing, [storeApiKey] returning true logs nothing under
    encryption and the one plain-text warning in the fallback.  A
    [storeApiKey] or [deleteApiKey] that returns false has logged exactly
    one error, as the last entry; [getApiKey] logs one error or nothing,
    and after an error it returns null. *)
Theorem what_is_logged ss providerId apiKey :
  (∀ w, fst (deleteApiKey providerId w) = Ok true →
        console (snd (deleteApiKey providerId w)) = console w)
  ∧ (∀ w, fst (deleteApiKey providerId w) = Ok false →
          ∃ e, console (snd (deleteApiKey providerId w))
               = console w ++ [console_error "Failed to delete API key:" e])
  ∧ (∀ w plain, fst (getApiKey ss providerId w) = Ok (Some plain) →
                console (snd (getApiKey ss providerId w)) = console w)
  ∧ (∀ w, console (snd (getApiKey ss providerId w)) = console w
          ∨ (fst (getApiKey ss providerId w) = Ok None
             ∧ ∃ e, console (snd (getApiKey ss providerId w))
                    = console w
                      ++ [console_error "Failed to retrieve API key:" e]))
  ∧ (∀ w, fst (storeApiKey ss providerId apiKey w) = Ok true →
          console (snd (storeApiKey ss providerId apiKey w))
          = console w
            ++ (if encryptionAvailable w then []
                else [console_warn
                        "Encryption not available, storing key in plain text"]))
  ∧ (∀ w, fst (storeApiKey ss providerId apiKey w) = Ok false →
          ∃ e, console (snd (storeApiKey ss providerId apiKey w))
               = console w ++ [console_error "Failed to store API key:" e]
               ∨ console (snd (storeApiKey ss providerId apiKey w))
                 = console w
                   ++ [console_warn
                         "Encryption not available, storing key in plain text";
                       console_error "Failed to store API key:" e]).
Proof.
  assert (Hget : ∀ w, console (snd (getApiKey ss providerId w)) = console w
          ∨ (fst (getApiKey ss providerId w) = Ok None
             ∧ ∃ e, console (snd (getApiKey ss providerId w))
                    = console w
                      ++ [console_error "Failed to retrieve API key:" e])).
  { intros w. world w. destruct st; do 2 (try next_fault fs); run;
      try (right; split; [done|]; by eexists);
      destruct (get keys providerId) as [[[|u v]|name]|]; simpl;
      try (by left);
      destruct enc; simpl; try (by left);
      try destruct (decryptString ss _); simpl;
      first [ by left | right; split; [done|]; by eexists ]. }
  split; [|split; [|split; [|split; [|split]]]].
  - intros w. world w. destruct st; do 3 (try next_fault fs); run;
      rewrite ?app_nil_r; done.
  - intros w. world w. destruct st; do 3 (try next_fault fs); run;
      first [ intros _; by eexists | by intros [=] ].
  - intros w plain Hp. destruct (Hget w) as [H | [H _]]; [done | congruence].
  - exact Hget.
  - intros w. world w. destruct st, enc; do 3 (try next_fault fs); run;
      try destruct (encryptString ss apiKey); run;
      rewrite ?app_nil_r; done.
  - intros w. world w. destruct st, enc; do 3 (try next_fault fs); run;
      try destruct (encryptString ss apiKey); run;
      first [ intros _; eexists; left; reflexivity
            | intros _; eexists; right; rewrite <- app_assoc; reflexivity
            | by intros [=] ].
Qed.

Lemma what_is_logged_witness :
  console (snd (deleteApiKey (js "anthropic-1") (configured [])))
  = console (configured [])
  ∧ (∃ e, console (snd (deleteApiKey (js "anthropic-1") (configured [true])))
          = console (configured [true])
            ++ [console_error "Failed to delete API key:" e])
  ∧ console (snd (getApiKey cipher (js "anthropic-1") (configured [])))
    = console (configured [])
  ∧ console (snd (storeApiKey cipher (js "anthropic-1") (js "sk")
                    (fresh false)))
    = console (fresh false)
      ++ [console_warn "Encryption not available, storing key in plain text"]
  ∧ (∃ e, console (snd (storeApiKey cipher (js "anthropic-1") (js "sk")
                          (configured [true])))
          = console (configured [true])
            ++ [console_error "Failed to store API key:" e]
          ∨ console (snd (storeApiKey cipher (js "anthropic-1") (js "sk")
                            (configured [true])))
            = console (configured [true])
              ++ [console_warn
                    "Encryption not available, storing key in plain text";
                  console_error "Failed to store API key:" e]).
Proof.
  destruct (what_is_logged cipher (js "anthropic-1") (js "sk"))
    as (Hdt & Hdf & Hgs & _ & Hst & Hsf).
  split; [apply Hdt; reflexivity|].
  split; [apply Hdf; reflexivity|].
  split; [apply (Hgs _ (js "sk-test-1234567890")); reflexivity|].
  split; [apply (Hst (fresh false)); reflexivity|].
  apply Hsf. reflexivity.
Defined.


(** *** The keyring comes and goes *)



(** *** Key info *)

(** A mask is as long as its key. *)
Lemma mask_length (apiKey : jsstring) :
  apiKey ≠ [] →
  ∃ m, mask (Some apiKey) = Some m ∧ m ≠ [] ∧ length m = length apiKey.
Proof.
  intros Hne. rewrite (mask_nonempty apiKey Hne).
  eexists. split; [reflexivity|].
  destruct (12 <? length apiKey)%nat eqn:E.
  - apply Nat.ltb_lt in E. split.
    + destruct apiKey; [done|]. simpl. done.
    + rewrite !length_app, length_take, length_replicate, length_drop. lia.
  - rewrite length_replicate. split; [|done].
    destruct apiKey; [done|]. simpl. done.
Qed.

(** With no config and no key under a name every object inherits,
    [getApiKey] finds the inherited member and fails to decode it. *)
Lemma getApiKey_member ss providerId w :
  faults w = [] →
  encryptedKeys w !! providerId = None →
  inherited providerId = true →
  ∃ e, getApiKey ss providerId w
       = (Ok None,
          with_console
            (console w ++ [console_error "Failed to retrieve API key:" e])
            (with_store true w)).
Proof.
  world w. intros -> Hk Hin.
  destruct st, enc; run; unfold get; rewrite Hk, Hin; simpl;
    by eexists.
Qed.

(** X10.  What [getProviderWithKeyInfo] returns is consistent.  With no
    storage fault pending: a record with a config carries the config
    saved under the id, and a record without one is returned only for a
    name every object inherits, with no config saved under it.  Either
    way the record reports a key exactly when it carries a mask; the
    mask is not empty and as long as the key [getApiKey] returns; and
    when it reports a key [hasApiKey] is true. *)
Theorem key_info_is_consistent ss providerId w shown :
  faults w = [] →
  fst (getProviderWithKeyInfo ss providerId w) = Ok (Some shown) →
  match shown with
  | for_config record => providers w !! providerId = Some (provider record)
  | for_member _ _ =>
      providers w !! providerId = None ∧ inherited providerId = true
  end
  ∧ (has_key shown = true ↔ key_masked shown ≠ None)
  ∧ (∀ m, key_masked shown = Some m →
          m ≠ [] ∧ ∃ plain, fst (getApiKey ss providerId w) = Ok (Some plain)
                            ∧ length m = length plain)
  ∧ (has_key shown = true → fst (hasApiKey providerId w) = Ok true).
Proof.
  intros Hf Hshown.
  destruct (getProviderWithKeyInfo_healthy ss providerId w Hf)
    as (w1 & Hone & _).
  rewrite Hone in Hshown. cbn [fst] in Hshown.
  destruct (getApiKey_healthy ss providerId w Hf) as (w2 & -> & _).
  rewrite (hasApiKey_healthy providerId w Hf). cbn [fst].
  assert (Hkey : has_key shown = truthy (retrieved ss w providerId)
                 ∧ key_masked shown = mask (retrieved ss w providerId)
                 ∧ match shown with
                   | for_config record =>
                       providers w !! providerId = Some (provider record)
                   | for_member _ _ =>
                       providers w !! providerId = None
                       ∧ inherited providerId = true
                   end).
  { revert Hshown. unfold shown_for, get.
    destruct (providers w !! providerId) as [p|].
    - by intros [= <-].
    - destruct (inherited providerId); [by intros [= <-] | done]. }
  destruct Hkey as (-> & -> & Hcfg). split; [done|].
  destruct (retrieved ss w providerId) as [[|u plain]|] eqn:Hret.
  - by repeat split.
  - destruct (mask_length (u :: plain)) as (m & -> & Hm & Hlen); [done|].
    split; [done|]. split.
    + intros m' Hm'. injection Hm' as <-. split; [done|]. by eexists.
    + intros _. unfold has. rewrite bool_decide_eq_true_2; [done|].
      unfold retrieved in Hret.
      destruct (encryptedKeys w !! providerId); [by eexists | done].
  - by repeat split.
Qed.

Lemma key_info_is_consistent_witness :
  let record := {| provider := anthropic_1; hasKey := true;
                   keyMasked := Some (js "sk-t**********7890") |} in
  let shown := for_config record in
  providers (configured []) !! js "anthropic-1" = Some (provider record)
  ∧ (has_key shown = true ↔ key_masked shown ≠ None)
  ∧ (∀ m, key_masked shown = Some m →
          m ≠ [] ∧ ∃ plain, fst (getApiKey cipher (js "anthropic-1")
                                   (configured [])) = Ok (Some plain)
                            ∧ length m = length plain)
  ∧ (has_key shown = true
     → fst (hasApiKey (js "anthropic-1") (configured [])) = Ok true).
Proof.
  apply (key_info_is_consistent cipher (js "anthropic-1") (configured [])
           (for_config {| provider := anthropic_1; hasKey := true;
                          keyMasked := Some (js "sk-t**********7890") |})).
  - reflexivity.
  - vm_compute. reflexivity.
Defined.

(** X11.  Without a config.  With no storage fault pending and no config
    saved under the id, [getProviderWithKeyInfo] returns null, even when
    a key is stored for the id, and it does so without opening the key
    store and without logging: unless the id names a member every object
    inherits.  Then [providers[providerId]] finds that member, the key
    store is opened, and what is returned is a record of the two key
    fields without a config; if no key is stored under the name either,
    the fields are false and null and the failed decoding of the
    inherited member is logged. *)
Theorem getProviderWithKeyInfo_unknown ss providerId w :
  faults w = [] →
  providers w !! providerId = None →
  (inherited providerId = false →
   fst (getProviderWithKeyInfo ss providerId w) = Ok None
   ∧ store (snd (getProviderWithKeyInfo ss providerId w)) = store w
   ∧ console (snd (getProviderWithKeyInfo ss providerId w)) = console w)
  ∧ (inherited providerId = true →
     (∃ key masked,
        fst (getProviderWithKeyInfo ss providerId w)
        = Ok (Some (for_member key masked)))
     ∧ store (snd (getProviderWithKeyInfo ss providerId w)) = true
     ∧ (encryptedKeys w !! providerId = None →
        fst (getProviderWithKeyInfo ss providerId w)
        = Ok (Some (for_member false None))
        ∧ ∃ e, console (snd (getProviderWithKeyInfo ss providerId w))
               = console w
                 ++ [console_error "Failed to retrieve API key:" e])).
Proof.
  intros Hf Hp. split.
  - intros Hin. unfold getProviderWithKeyInfo, bind.
    rewrite (getProvider_healthy providerId w Hf). unfold get.
    rewrite Hp, Hin. by destruct w.
  - intros Hin.
    assert (Hrun : getProviderWithKeyInfo ss providerId w
                   = let r := getApiKey ss providerId
                                (with_providerStore true w) in
                     (match fst r with
                      | Ok apiKey =>
                          Ok (Some (for_member (truthy apiKey) (mask apiKey)))
                      | Throw e => Throw e
                      end, snd r)).
    { unfold getProviderWithKeyInfo. unfold bind at 1.
      rewrite (getProvider_healthy providerId w Hf). unfold get.
      rewrite Hp, Hin. unfold bind, ret. cbn zeta.
      by destruct (getApiKey ss providerId (with_providerStore true w))
        as [[apiKey|e] w1]. }
    rewrite Hrun. cbn zeta. cbn [fst snd].
    assert (Hf' : faults (with_providerStore true w) = []) by (by destruct w).
    split; [|split].
    + destruct (getApiKey_healthy ss providerId _ Hf') as (w1 & -> & _).
      by do 2 eexists.
    + pose proof (getApiKey_returns ss providerId
                    (with_providerStore true w)) as Hret.
      revert Hret. world w. subst. destruct st; run; try done;
        destruct (get keys providerId) as [[[|u v]|name]|]; simpl; try done;
        destruct enc; simpl; try done;
        destruct (decryptString ss _); done.
    + intros Hk.
      destruct (getApiKey_member ss providerId (with_providerStore true w))
        as (e & ->); [done | by destruct w | done |].
      cbn [fst snd]. split; [done|]. exists e. by destruct w.
Qed.

Lemma getProviderWithKeyInfo_unknown_witness :
  (let w := with_providers ∅ (configured []) in
   fst (hasApiKey (js "anthropic-1") w) = Ok true
   ∧ fst (getProviderWithKeyInfo cipher (js "anthropic-1") w) = Ok None
   ∧ store (snd (getProviderWithKeyInfo cipher (js "anthropic-1") w))
     = store w
   ∧ console (snd (getProviderWithKeyInfo cipher (js "anthropic-1") w))
     = console w)
  ∧ fst (getProviderWithKeyInfo cipher (js "toString") (fresh true))
    = Ok (Some (for_member false None))
  ∧ store (snd (getProviderWithKeyInfo cipher (js "toString") (fresh true)))
    = true.
Proof.
  split.
  - split; [reflexivity|].
    destruct (getProviderWithKeyInfo_unknown cipher (js "anthropic-1")
                (with_providers ∅ (configured []))) as [Hplain _];
      [reflexivity | reflexivity |].
    apply Hplain. reflexivity.
  - destruct (getProviderWithKeyInfo_unknown cipher (js "toString")
                (fresh true)) as [_ Hmember];
      [reflexivity | reflexivity |].
    destruct Hmember as (_ & Hstore & Hnokey); [reflexivity|].
    split; [|exact Hstore].
    apply Hnokey. reflexivity.
Defined.

(** X12.  Every function of the module keeps each config stored under
    its own id, whatever the file system and the cipher do. *)
Theorem configs_keep_their_ids ss providerId apiKey config w :
  own_ids w →
  own_ids (snd (saveProvider config w))
  ∧ own_ids (snd (deleteProvider providerId w))
  ∧ own_ids (snd (setDefaultProvider providerId w))
  ∧ own_ids (snd (storeApiKey ss providerId apiKey w))
  ∧ own_ids (snd (deleteApiKey providerId w)).
Proof.
  unfold own_ids. intros Hown.
  assert (Hdel : providers (snd (deleteApiKey providerId w)) = providers w)
    by apply deleteApiKey_configs.
  split; [|split; [|split; [|split]]].
  - revert Hown. clear Hdel. world w. intros Hown.
    destruct pst; do 3 (try next_fault fs); run; try done;
      (destruct (assign_spec (id config) config provs)
         as [-> | (_ & _ & ->)]; [|done]);
      intros k p; rewrite lookup_insert; case_decide; naive_solver.
  - unfold deleteProvider, try_catch. unfold bind at 1.
    pose proof (deleteApiKey_returns providerId w) as Hret.
    destruct (deleteApiKey providerId w) as [[b|e] w1]; [|done].
    cbn [snd] in Hdel. rewrite <- Hdel in Hown.
    clear Hdel Hret. revert Hown. world w1. intros Hown.
    destruct pst; do 5 (try next_fault fs); run;
      try case_bool_decide; run; try done;
      intros k p Hk; apply lookup_delete_Some in Hk as [_ Hk]; by apply Hown.
  - revert Hown. clear Hdel. world w. intros Hown.
    destruct pst; do 2 (try next_fault fs); run; done.
  - revert Hown. clear Hdel. world w. intros Hown.
    destruct st, enc; do 3 (try next_fault fs); run;
      try destruct (encryptString ss apiKey); run; done.
  - intros k p. rewrite Hdel. apply Hown.
Qed.

Lemma configs_keep_their_ids_witness :
  own_ids (snd (saveProvider anthropic_1 (configured [])))
  ∧ own_ids (snd (deleteProvider (js "anthropic-1") (configured [])))
  ∧ own_ids (snd (setDefaultProvider (js "anthropic-1") (configured [])))
  ∧ own_ids (snd (storeApiKey cipher (js "anthropic-1") (js "sk")
                    (configured [])))
  ∧ own_ids (snd (deleteApiKey (js "anthropic-1") (configured []))).
Proof.
  apply (configs_keep_their_ids cipher (js "anthropic-1") (js "sk")
           anthropic_1 (configured [])).
  intros k p Hk. unfold configured, launch in Hk. cbn [providers] in Hk.
  apply lookup_singleton_Some in Hk as [<- <-]. reflexivity.
Defined.

(** X13.  [getAllProvidersWithKeyInfo] is [getProviderWithKeyInfo] over
    [getAllProviders]: with no storage fault pending and every config
    stored under its own id, it returns one record per config, the
    configs being those of [getAllProviders] in the same order, and each
    record is what [getProviderWithKeyInfo] returns for its id. *)
Theorem getAllProvidersWithKeyInfo_agrees ss w :
  faults w = [] →
  own_ids w →
  ∃ all, fst (getAllProvidersWithKeyInfo ss w) = Ok all
         ∧ fst (getAllProviders w) = Ok (map provider all)
         ∧ length all = size (providers w)
         ∧ Forall (fun shown =>
                     fst (getProviderWithKeyInfo ss (id (provider shown)) w)
                     = Ok (Some (for_config shown))) all.
Proof.
  intros Hf Hown.
  destruct (getAllProvidersWithKeyInfo_healthy ss w Hf) as (w1 & -> & _).
  rewrite (getAllProviders_healthy w Hf). cbn [fst].
  eexists. split; [reflexivity|]. split.
  { f_equal. rewrite map_map. cbn [provider key_info].
    symmetry. apply map_id. }
  split.
  { unfold Object_values. by rewrite !length_map, length_map_to_list. }
  apply Forall_forall. intros shown Hin.
  apply list_elem_of_fmap in Hin as (p & -> & Hp).
  apply list_elem_of_fmap in Hp as ([k q] & -> & Hq).
  apply elem_of_map_to_list in Hq. cbn [snd key_info provider].
  destruct (getProviderWithKeyInfo_healthy ss (id q) w Hf) as (w2 & -> & _).
  cbn [fst]. rewrite (Hown k q Hq).
  by rewrite (shown_for_config ss w k q Hq).
Qed.

Lemma getAllProvidersWithKeyInfo_agrees_witness :
  ∃ all, fst (getAllProvidersWithKeyInfo cipher (configured [])) = Ok all
         ∧ fst (getAllProviders (configured [])) = Ok (map provider all)
         ∧ length all = size (providers (configured []))
         ∧ Forall (fun shown =>
                     fst (getProviderWithKeyInfo cipher (id (provider shown))
                            (configured []))
                     = Ok (Some (for_config shown))) all.
Proof.
  apply (getAllProvidersWithKeyInfo_agrees cipher (configured [])).
  - reflexivity.
  - intros k p Hk. unfold configured, launch in Hk. cbn [providers] in Hk.
    apply lookup_singleton_Some in Hk as [<- <-]. reflexivity.
Defined.

(** *** Deleting a provider, seen from the others *)

(** X14.  [deleteProvider] touches nothing that belongs to another id,
    whatever the file system does: the config and the key of every other
    id are as before, and a default pointer that does not reference the
    deleted id is as before. *)
Theorem deleteProvider_is_local providerId other w :
  other ≠ providerId →
  let w' := snd (deleteProvider providerId w) in
  providers w' !! other = providers w !! other
  ∧ encryptedKeys w' !! other = encryptedKeys w !! other
  ∧ (defaultProvider w ≠ Some providerId →
     defaultProvider w' = defaultProvider w)
  ∧ (defaultProvider w' = defaultProvider w ∨ defaultProvider w' = None).
Proof.
  intros Hne. cbn zeta.
  remember (snd (deleteProvider providerId w)) as w' eqn:Hw'.
  unfold deleteProvider, try_catch in Hw'. unfold bind at 1 in Hw'.
  pose proof (deleteApiKey_returns providerId w) as Hret.
  destruct (deleteApiKey_configs providerId w) as [Hp Hd].
  assert (Hk : encryptedKeys (snd (deleteApiKey providerId w)) !! other
               = encryptedKeys w !! other).
  { world w. destruct st; do 3 (try next_fault fs); run;
      rewrite ?lookup_delete_ne by done; done. }
  revert Hw'.
  destruct (deleteApiKey providerId w) as [[b|e] w1]; [|done].
  cbn [snd] in *. rewrite <- Hp, <- Hd, <- Hk. clear Hp Hd Hk Hret.
  world w1.
  destruct pst; do 5 (try next_fault fs); run;
    try case_bool_decide; run; intros ->; cbn;
    rewrite ?lookup_delete_ne by done; naive_solver.
Qed.

Lemma deleteProvider_is_local_witness :
  let w := snd (setDefaultProvider (js "anthropic-1")
                  (snd (saveProvider anthropic_1 (configured [])))) in
  let w' := snd (deleteProvider (js "openai-2") w) in
  providers w' !! js "anthropic-1" = providers w !! js "anthropic-1"
  ∧ encryptedKeys w' !! js "anthropic-1" = encryptedKeys w !! js "anthropic-1"
  ∧ defaultProvider w' = defaultProvider w.
Proof.
  destruct (deleteProvider_is_local (js "openai-2") (js "anthropic-1")
              (snd (setDefaultProvider (js "anthropic-1")
                      (snd (saveProvider anthropic_1 (configured []))))))
    as (Hp & Hk & Hd & _); [discriminate|].
  split; [exact Hp|]. split; [exact Hk|]. apply Hd. discriminate.
Defined.


(** *** What the settings page shows *)

Lemma shortenKeyDisplay_mask (apiKey : jsstring) :
  apiKey ≠ [] →
  ProvidersSettings.shortenKeyDisplay (mask (Some apiKey))
  = if (12 <? length apiKey)%nat then
      take 4 apiKey ++ js "..." ++ drop (length apiKey - 4) apiKey
    else asterisks (length apiKey).
Proof.
  intros Hne.
  destruct (mask_length apiKey Hne) as (m & Hm & Hmne & Hlen).
  unfold ProvidersSettings.shortenKeyDisplay. rewrite Hm.
  destruct m as [|u m]; [done|].
  change (truthy (Some (u :: m))) with true.
  change (default [] (Some (u :: m))) with (u :: m).
  cbv iota. cbn [negb]. rewrite Hlen.
  rewrite (mask_nonempty apiKey Hne) in Hm.
  destruct (12 <? length apiKey)%nat eqn:E.
  - apply Nat.ltb_lt in E. injection Hm as Hm. rewrite <- Hm.
    unfold substring, substring_from. rewrite drop_0, Nat.sub_0_r.
    f_equal; [|f_equal].
    + rewrite take_app_le by (rewrite length_take; lia).
      by rewrite take_take.
    + rewrite drop_app_ge by (rewrite length_take; lia).
      rewrite length_take.
      rewrite drop_app_ge by (rewrite length_replicate; lia).
      rewrite length_replicate, drop_drop. f_equal. lia.
  - by injection Hm as <-.
Qed.

(** X15.  What the provider card shows for a record made by
    [getProviderWithKeyInfo]: with no storage fault pending, a key of
    more than 12 units is shown as its own first four and last four
    units around three dots, whatever its length; a shorter key as one
    asterisk per unit; and no key, or an empty one, as "No API key set".
    The text "No key" of [shortenKeyDisplay] is never shown. *)
Theorem key_label_of_record ss providerId w shown plain :
  faults w = [] →
  fst (getProviderWithKeyInfo ss providerId w) = Ok (Some shown) →
  fst (getApiKey ss providerId w) = Ok plain →
  ProvidersSettings.key_label shown
  = match plain with
    | Some ((_ :: _) as k) =>
        if (12 <? length k)%nat then
          take 4 k ++ js "..." ++ drop (length k - 4) k
        else asterisks (length k)
    | _ => js "No API key set"
    end.
Proof.
  intros Hf Hshown Hplain.
  destruct (getProviderWithKeyInfo_healthy ss providerId w Hf)
    as (w1 & Hone & _).
  rewrite Hone in Hshown. cbn [fst] in Hshown.
  assert (Hinfo : has_key shown = truthy (retrieved ss w providerId)
                  ∧ key_masked shown = mask (retrieved ss w providerId)).
  { revert Hshown. unfold shown_for.
    destruct (get (providers w) providerId) as [[p|name]|]; try done;
      by intros [= <-]. }
  destruct Hinfo as (Hkey & Hmask).
  destruct (getApiKey_healthy ss providerId w Hf) as (w2 & Hget & _).
  rewrite Hget in Hplain. cbn [fst] in Hplain. injection Hplain as <-.
  unfold ProvidersSettings.key_label. rewrite Hkey, Hmask.
  destruct (retrieved ss w providerId) as [[|u k]|]; [done| |done].
  change (truthy (Some (u :: k))) with true. cbv iota.
  rewrite (shortenKeyDisplay_mask (u :: k)) by done. reflexivity.
Qed.

Lemma key_label_of_record_witness :
  ProvidersSettings.key_label
    (for_config {| provider := anthropic_1; hasKey := true;
                   keyMasked := Some (js "sk-t**********7890") |})
  = js "sk-t...7890".
Proof.
  apply (key_label_of_record cipher (js "anthropic-1") (configured [])
           _ (Some (js "sk-test-1234567890"))).
  - reflexivity.
  - vm_compute. reflexivity.
  - vm_compute. reflexivity.
Defined.

End SecureStorageMore.

(* ===================================================================== *)
(** ** More about the update controller                                   *)
(* ===================================================================== *)

Module UpdaterMore.
Import Js Updater Fixtures UpdaterSpec Ipc.

Section More.
Context {UpdateInfo ProgressInfo UpdateDownloadedEvent UpdateCheckResult : Type}.
Variable event_info : UpdateDownloadedEvent → UpdateInfo.
Variable updateInfo : UpdateCheckResult → UpdateInfo.

Abbreviation Controller := (AppUpdater UpdateInfo ProgressInfo UpdateDownloadedEvent).
Abbreviation Event := (UpdaterEvent UpdateInfo ProgressInfo UpdateDownloadedEvent).
Abbreviation Req :=
  (Request UpdateInfo ProgressInfo UpdateDownloadedEvent UpdateCheckResult).

(** A listener changes the status record and the outputs, nothing else. *)
Lemma listener_settings (e : Event) (u : Controller) :
  let u' := snd (listener event_info e u) in
  mainWindow u' = mainWindow u ∧ autoDownload u' = autoDownload u
  ∧ autoInstallOnAppQuit u' = autoInstallOnAppQuit u
  ∧ channel u' = channel u ∧ version u' = version u.
Proof. by destruct (listener_runs event_info e u) as (s & -> & _). Qed.

Lemma after_settings (events : list Event) (u : Controller) :
  let u' := after event_info events u in
  mainWindow u' = mainWindow u ∧ autoDownload u' = autoDownload u
  ∧ autoInstallOnAppQuit u' = autoInstallOnAppQuit u
  ∧ channel u' = channel u ∧ version u' = version u.
Proof.
  revert u. induction events as [|e events IH]; intros u; [done|].
  cbn zeta. rewrite after_cons.
  destruct (IH (snd (listener event_info e u))) as (-> & -> & -> & -> & ->).
  apply listener_settings.
Qed.

(** What serving a request leaves behind: the controller after the
    events emitted meanwhile, with the setting the request writes and
    one console line if a check or a download was rejected. *)
Lemma handle_runs (r : Req) (u : Controller) :
  let u' := snd (handle event_info updateInfo r u) in
  let v := after event_info (events_of r) u in
  current u' = current v
  ∧ outputs u' = outputs v ++ failure_log r
  ∧ mainWindow u' = mainWindow u
  ∧ autoInstallOnAppQuit u' = autoInstallOnAppQuit u
  ∧ version u' = version u
  ∧ autoDownload u' = match r with
                      | update_setAutoDownload enable => enable
                      | _ => autoDownload u
                      end
  ∧ channel u' = match r with
                 | update_setChannel c => Some c
                 | _ => channel u
                 end.
Proof.
  destruct r as [| |c|c|c| |]; cbn zeta;
    try (cbn; rewrite ?app_nil_r; by repeat split).
  - cbn [handle events_of failure_log].
    destruct (after_settings (emitted c) u) as (Hw & Had & Hai & Hch & Hv).
    unfold try_catch, bind, checkForUpdates, try_catch, await, bind.
    destruct (for_of_listener event_info (emitted c) u) as (done & ->).
    unfold lift. destruct (settled c); cbn; rewrite ?app_nil_r; by repeat split.
  - cbn [handle events_of failure_log].
    destruct (after_settings (emitted c) u) as (Hw & Had & Hai & Hch & Hv).
    unfold try_catch, bind, downloadUpdate, try_catch, await, bind.
    destruct (for_of_listener event_info (emitted c) u) as (done & ->).
    unfold lift. destruct (settled c); cbn; rewrite ?app_nil_r; by repeat split.
  - cbn [handle events_of failure_log].
    destruct (after_settings (emitted c) u) as (Hw & Had & Hai & Hch & Hv).
    unfold bind, quitAndInstall, await, bind.
    destruct (for_of_listener event_info (emitted c) u) as (done & ->).
    unfold lift. destruct (settled c); cbn; rewrite ?app_nil_r; by repeat split.
Qed.

Lemma download_handled
    (c : Call UpdateInfo ProgressInfo UpdateDownloadedEvent unit)
    (u : Controller) :
  fst (handle event_info updateInfo (update_download c) u)
  = Ok match settled c with
       | Ok _ => reply_done true
       | Throw e => reply_failed false e
       end.
Proof.
  cbn [handle].
  unfold try_catch, bind, downloadUpdate, try_catch, await, bind.
  destruct (for_of_listener event_info (emitted c) u) as (done & ->).
  unfold lift. by destruct (settled c).
Qed.

(** *** The reply to [update:download] *)

(** X16.  Unlike a check, a download reports its failure: [downloadUpdate]
    rethrows what the call into the updater rejected with, after logging
    it once, so the handler of [update:download] replies [success: true]
    exactly when the call resolved and otherwise [success: false] with
    that error.  Either way the handler itself returns, and the events
    emitted meanwhile have been applied. *)
Theorem download_reply
    (c : Call UpdateInfo ProgressInfo UpdateDownloadedEvent unit)
    (u : Controller) :
  fst (downloadUpdate event_info c u) = settled c
  ∧ fst (handle event_info updateInfo (update_download c) u)
    = Ok match settled c with
         | Ok _ => reply_done true
         | Throw e => reply_failed false e
         end
  ∧ outputs (snd (handle event_info updateInfo (update_download c) u))
    = outputs (after event_info (emitted c) u)
      ++ match settled c with
         | Ok _ => []
         | Throw e => [log "[Updater] Download update failed:" e]
         end.
Proof.
  split; [|split].
  - unfold downloadUpdate, try_catch, await, bind.
    destruct (for_of_listener event_info (emitted c) u) as (done & ->).
    unfold lift. by destruct (settled c) as [[]|].
  - apply download_handled.
  - by destruct (handle_runs (update_download c) u) as (_ & -> & _).
Qed.

(** *** Settings *)

(** X17.  Serving a request never detaches the window, never turns off
    [autoInstallOnAppQuit] and never changes the version; it writes
    [autoDownload] only for [update:setAutoDownload] and the channel
    only for [update:setChannel].  The four requests that read or write
    a setting leave the status record and the outputs as they were: they
    notify nobody.  An install request changes them through the events
    [autoUpdater.quitAndInstall()] emits and in no other way, and its
    handler has no [try]: it replies [success: true] when the call
    returns and throws when the call throws. *)
Theorem requests_write_their_own_setting (r : Req) (u : Controller) :
  let u' := snd (handle event_info updateInfo r u) in
  mainWindow u' = mainWindow u
  ∧ autoInstallOnAppQuit u' = autoInstallOnAppQuit u
  ∧ version u' = version u
  ∧ autoDownload u' = match r with
                      | update_setAutoDownload enable => enable
                      | _ => autoDownload u
                      end
  ∧ channel u' = match r with
                 | update_setChannel c => Some c
                 | _ => channel u
                 end
  ∧ current u' = current (after event_info (events_of r) u)
  ∧ match r with
    | update_check _ | update_download _ => True
    | update_install c =>
        outputs u' = outputs (after event_info (emitted c) u)
        ∧ fst (handle event_info updateInfo r u)
          = match settled c with
            | Ok _ => Ok (reply_done true)
            | Throw e => Throw e
            end
    | _ => current u' = current u ∧ outputs u' = outputs u
    end.
Proof.
  destruct (handle_runs r u) as (Hc & Ho & Hw & Hai & Hv & Had & Hch).
  cbn zeta. repeat (split; [done|]).
  destruct r as [| |c|c|c| |]; try done; cbn [events_of failure_log] in *;
    rewrite ?after_nil, ?app_nil_r in *; try done.
  split; [done|]. cbn [handle]. unfold bind, quitAndInstall, await, bind.
  destruct (for_of_listener event_info (emitted c) u) as (done & ->).
  unfold lift. by destruct (settled c).
Qed.

(** X18.  From construction on, whatever events arrive and whatever
    requests are served, in any order, [autoInstallOnAppQuit] is on, the
    version is the one the application started with, and the outputs so
    far are never taken back. *)
Theorem settings_over_a_session v
    (steps : list (Event + Req)) :
  let run := fold_left (fun u step =>
                          match step with
                          | inl e => snd (listener event_info e u)
                          | inr r => snd (handle event_info updateInfo r u)
                          end) steps in
  ∀ u : Controller,
    autoInstallOnAppQuit (run u) = autoInstallOnAppQuit u
    ∧ version (run u) = version u
    ∧ mainWindow (run u) = mainWindow u
    ∧ (∃ more, outputs (run u) = outputs u ++ more)
    ∧ (u = constructor v →
       autoInstallOnAppQuit (run u) = true ∧ version (run u) = v).
Proof.
  cbn zeta. induction steps as [|step steps IH]; intros u.
  - cbn [fold_left]. do 3 (split; [done|]). split.
    + exists []. by rewrite app_nil_r.
    + by intros ->.
  - cbn [fold_left].
    set (u1 := match step with
               | inl e => snd (listener event_info e u)
               | inr r => snd (handle event_info updateInfo r u)
               end).
    assert (H1 : autoInstallOnAppQuit u1 = autoInstallOnAppQuit u
                 ∧ version u1 = version u ∧ mainWindow u1 = mainWindow u
                 ∧ ∃ more, outputs u1 = outputs u ++ more).
    { subst u1. destruct step as [e|r].
      - destruct (listener_runs event_info e u) as (s & -> & _).
        repeat split. by eexists.
      - destruct (handle_runs r u) as (_ & Ho & Hw & Hai & Hv & _).
        repeat split; try done. rewrite Ho.
        assert (Hrun : ∀ events (w : Controller),
                   ∃ more, outputs (after event_info events w)
                           = outputs w ++ more).
        { induction events as [|e events IHe]; intros w.
          - exists []. by rewrite app_nil_r.
          - rewrite after_cons.
            destruct (IHe (snd (listener event_info e w))) as (more & ->).
            destruct (listener_runs event_info e w) as (s & -> & _).
            cbn [snd outputs]. rewrite <- app_assoc. by eexists. }
        destruct (Hrun (events_of r) u) as (more & ->).
        rewrite <- app_assoc. by eexists. }
    destruct H1 as (Hai & Hv & Hw & more1 & Ho).
    destruct (IH u1) as (-> & -> & -> & (more & ->) & _).
    rewrite Hai, Hv, Hw, Ho. do 3 (split; [done|]). split.
    + rewrite <- app_assoc. by eexists.
    + by intros ->.
Qed.

(** *** Fields that are never cleared *)

Lemma error_after (events : list Event) (u : Controller) :
  error (current (after event_info events u))
  = last_error events (error (current u)).
Proof.
  revert u. induction events as [|e events IH]; intros u; [done|].
  rewrite after_cons, IH. unfold last_error. cbn [fold_left]. f_equal.
  destruct (listener_runs event_info e u) as (s & -> & ->). by destruct e.
Qed.

Lemma info_after (events : list Event) (u : Controller) :
  info (current (after event_info events u))
  = last_info event_info events (info (current u)).
Proof.
  revert u. induction events as [|e events IH]; intros u; [done|].
  rewrite after_cons, IH. unfold last_info. cbn [fold_left]. f_equal.
  destruct (listener_runs event_info e u) as (s & -> & ->). by destruct e.
Qed.

(** A failure, then a check that finds an update. *)
Lemma error_and_info_are_kept_run (events : list Event) (u : Controller)
    err i :
  let u' := after event_info
              (events ++ [error_event err; checking_for_update;
                          update_available i]) u in
  status (current u') = available
  ∧ info (current u') = Some i
  ∧ error (current u') = Some (message err).
Proof.
  cbn zeta. rewrite after_app.
  generalize (after event_info events u). intros w.
  rewrite !after_cons, after_nil.
  destruct (listener_runs event_info (error_event err) w) as (s1 & -> & ->).
  cbn [snd].
  match goal with
  | |- context [listener event_info checking_for_update ?w1] =>
      destruct (listener_runs event_info checking_for_update w1)
        as (s2 & -> & ->)
  end.
  cbn [snd].
  match goal with
  | |- context [listener event_info (update_available i) ?w2] =>
      destruct (listener_runs event_info (update_available i) w2)
        as (s3 & -> & ->)
  end.
  done.
Qed.

(** X19.  The error text and the update info of the status record are
    written and never cleared.  After any run of events the error is the
    message of the latest failure in the run, or what it was before if
    there was none; the info is the one of the latest event that carries
    one.  So once a failure has occurred the record carries an error
    text from then on: a later check that finds an update yields status
    [available] together with the message of the old failure. *)
Theorem error_and_info_are_kept (events : list Event) (u : Controller) :
  error (current (after event_info events u))
  = last_error events (error (current u))
  ∧ info (current (after event_info events u))
    = last_info event_info events (info (current u))
  ∧ (is_Some (error (current u)) →
     is_Some (error (current (after event_info events u))))
  ∧ (is_Some (info (current u)) →
     is_Some (info (current (after event_info events u))))
  ∧ (∀ err i,
       let u' := after event_info
                   (events ++ [error_event err; checking_for_update;
                               update_available i]) u in
       status (current u') = available
       ∧ error (current u') = Some (message err)).
Proof.
  split; [apply error_after|]. split; [apply info_after|].
  split; [|split].
  - rewrite error_after. generalize (error (current u)).
    induction events as [|e events IH]; intros old Hold; [done|].
    unfold last_error in *. cbn [fold_left]. apply IH. by destruct e.
  - rewrite info_after. generalize (info (current u)).
    induction events as [|e events IH]; intros old Hold; [done|].
    unfold last_info in *. cbn [fold_left]. apply IH. by destruct e.
  - intros err i.
    by destruct (error_and_info_are_kept_run events u err i)
      as (Hst & _ & Herr).
Qed.

(** X20.  The status record is complete.  After any run of events from
    construction the record has the fields its status calls for: an
    update info when an update was found, not found or downloaded, a
    progress while downloading, an error text after a failure; and the
    status is [idle] only as long as no event has arrived. *)
Theorem record_is_complete v (events : list Event) :
  let r := current (after event_info events (constructor v)) in
  (status r = idle ↔ events = [])
  ∧ (status r = available ∨ status r = not_available
     ∨ status r = downloaded → is_Some (info r))
  ∧ (status r = downloading → is_Some (progress r))
  ∧ (status r = errored → is_Some (error r)).
Proof.
  cbn zeta. destruct events as [|e events _] using rev_ind.
  - rewrite after_nil. cbn. split; [done|].
    split; [by intros [H|[H|H]]|]. by split.
  - rewrite after_app, after_cons, after_nil.
    destruct (listener_runs event_info e
                (after event_info events (constructor v)))
      as (r & -> & ->).
    split.
    { split; [by destruct e | by intros [_ ?]%app_eq_nil]. }
    destruct e; cbn;
      (split; [first [ by intros [H|[H|H]] | by eexists ]|]);
      split; first [ by intros H | by eexists ].
Qed.

(** *** The notification feed *)

Lemma sent_app (window : BrowserWindow)
    (xs ys : list (Output UpdateInfo ProgressInfo UpdateDownloadedEvent)) :
  sent window (xs ++ ys) = sent window xs ++ sent window ys.
Proof. unfold sent. by rewrite flat_map_app. Qed.

Lemma sent_listener (window : BrowserWindow) (e : Event) (u : Controller) :
  mainWindow u = Some window →
  sent window (outputs (snd (listener event_info e u)))
  = sent window (outputs u)
    ++ (if isDestroyed window then []
        else send "update:status-changed"
               (status_payload (current (snd (listener event_info e u))))
             :: option_list (forward window e)).
Proof.
  intros Hw. destruct (listener_runs event_info e u) as (s & -> & _).
  cbn [snd outputs current]. rewrite !sent_app. f_equal.
  unfold live. rewrite Hw.
  destruct (isDestroyed window) eqn:Hd; cbn [negb].
  - cbn. unfold forward. by rewrite Hd.
  - cbn. unfold forward. rewrite Hd. cbn. by rewrite ?app_nil_r.
Qed.

Lemma sent_after (window : BrowserWindow) (events : list Event)
    (u : Controller) :
  mainWindow u = Some window →
  sent window (outputs (after event_info events u))
  = sent window (outputs u)
    ++ (if isDestroyed window then []
        else notified event_info window events u).
Proof.
  revert u. induction events as [|e events IH]; intros u Hw.
  - rewrite after_nil. destruct (isDestroyed window); by rewrite app_nil_r.
  - rewrite after_cons.
    destruct (listener_settings e u) as (Hw' & _). cbn zeta in Hw'.
    rewrite IH by congruence. rewrite (sent_listener _ _ _ Hw).
    cbn [notified]. rewrite <- app_assoc. f_equal.
    destruct (isDestroyed window); [done|]. by rewrite <- app_comm_cons.
Qed.

(** X21.  What the window is sent over a run of events, the listeners
    of [registerUpdateHandlers] included: for each event, first the
    merged status record on [update:status-changed], then the event on
    its own channel, two messages an event and nothing else.  Once the
    window is destroyed nothing is sent. *)
Theorem notification_feed (window : BrowserWindow) (events : list Event)
    (u : Controller) :
  mainWindow u = Some window →
  sent window (outputs (after event_info events u))
  = sent window (outputs u)
    ++ (if isDestroyed window then []
        else notified event_info window events u)
  ∧ (isDestroyed window = false →
     length (notified event_info window events u) = (2 * length events)%nat).
Proof.
  intros Hw. split; [by apply sent_after|].
  intros Hd. revert u Hw. induction events as [|e events IH]; intros u Hw;
    [done|].
  cbn [notified length]. rewrite length_app. unfold forward. rewrite Hd.
  destruct (listener_settings e u) as (Hw' & _). cbn zeta in Hw'.
  rewrite IH by congruence. simpl. lia.
Qed.

End More.

(** An install requested before anything was downloaded: the status
    becomes [error], the window is sent the record and the error, and
    the reply still says success. *)
Example install_without_download :
  let r := handle id (@id string) (update_install premature_install)
             (controller (Some open_window) (at_status idle)) in
  fst r = Ok (reply_done true)
  ∧ current (snd r)
    = {| status := errored; info := None; progress := None;
         error := Some "No valid update available, can't quit and install"%string |}
  ∧ sent open_window (outputs (snd r))
    = [send "update:status-changed" (status_payload (current (snd r)));
       send "update:error"
         (text_payload "No valid update available, can't quit and install")].
Proof. repeat split. Qed.

Lemma notification_feed_witness :
  sent open_window
    (outputs (after (@id string)
                [checking_for_update; update_available "0.2.0"%string]
                (controller (Some open_window) (at_status idle))))
  = [send "update:status-changed" (status_payload (at_status checking));
     send "update:checking" no_payload;
     send "update:status-changed"
       (status_payload {| status := available; info := Some "0.2.0"%string;
                          progress := None; error := None |});
     send "update:available" (info_payload N string "0.2.0"%string)].
Proof.
  destruct (notification_feed (UpdateInfo := string) (ProgressInfo := N)
              (UpdateDownloadedEvent := string) id open_window
              [checking_for_update; update_available "0.2.0"%string]
              (controller (Some open_window) (at_status idle)))
    as [Hfeed _]; [reflexivity|].
  rewrite Hfeed. reflexivity.
Defined.

Lemma error_and_info_are_kept_witness :
  is_Some (error (current
     (after (@id string) [checking_for_update]
        (controller (Some open_window)
           {| status := errored; info := None; progress := @None N;
              error := Some "net::ERR_FAILED"%string |})))).
Proof.
  destruct (error_and_info_are_kept (UpdateInfo := string)
              (ProgressInfo := N) (UpdateDownloadedEvent := string) id
              [checking_for_update]
              (controller (Some open_window)
                 {| status := errored; info := None; progress := None;
                    error := Some "net::ERR_FAILED"%string |}))
    as (_ & _ & Hkept & _).
  apply Hkept. by eexists.
Defined.

Lemma record_is_complete_witness :
  is_Some (info (current
     (after (@id string)
        [checking_for_update; update_available "0.2.0"%string;
         download_progress 40%N; update_downloaded "0.2.0"%string]
        (constructor (ProgressInfo := N) "0.1.0")))).
Proof.
  destruct (record_is_complete (UpdateInfo := string) (ProgressInfo := N)
              (UpdateDownloadedEvent := string) id "0.1.0"
              [checking_for_update; update_available "0.2.0"%string;
               download_progress 40%N; update_downloaded "0.2.0"%string])
    as (_ & Hinfo & _).
  apply Hinfo. right. right. reflexivity.
Defined.

Lemma settings_over_a_session_witness :
  let u : AppUpdater string N string :=
    fold_left (fun u step =>
                 match step with
                 | inl e => snd (listener id e u)
                 | inr r => snd (handle id (@id string) r u)
                 end)
      [inr (update_setAutoDownload true);
       inl (error_event (mkError "net::ERR_FAILED"));
       inr (update_install premature_install)]
      (constructor "0.1.0") in
  autoInstallOnAppQuit u = true ∧ version u = "0.1.0"%string.
Proof.
  destruct (settings_over_a_session (UpdateInfo := string)
              (ProgressInfo := N) (UpdateDownloadedEvent := string)
              (UpdateCheckResult := string) id id "0.1.0"
              [inr (update_setAutoDownload true);
               inl (error_event (mkError "net::ERR_FAILED"));
               inr (update_install premature_install)]
              (constructor "0.1.0"))
    as (_ & _ & _ & _ & Hstart).
  apply Hstart. reflexivity.
Defined.

End UpdaterMore.

(* ===================================================================== *)
(** ** The update store and the controller                                *)
(* ===================================================================== *)

Module UpdateStoreSpec.
Import Js Updater Fixtures UpdaterSpec Ipc UpdaterMore.

Section StoreSpec.
Context {UpdateInfo ProgressInfo UpdateDownloadedEvent UpdateCheckResult : Type}.
Variable event_info : UpdateDownloadedEvent → UpdateInfo.
Variable updateInfo : UpdateCheckResult → UpdateInfo.
Variable String_of : JsError → string.

Abbreviation State := (UpdateStore.UpdateState UpdateInfo ProgressInfo).

Lemma receive_all_app
    (xs ys : list (Output UpdateInfo ProgressInfo UpdateDownloadedEvent))
    (s : State) :
  UpdateStore.receive_all event_info (xs ++ ys) s
  = match UpdateStore.receive_all event_info xs s with
    | Some s' => UpdateStore.receive_all event_info ys s'
    | None => None
    end.
Proof.
  revert s. induction xs as [|[ch d|e|t e] xs IH]; intros s; cbn; try done.
  destruct (UpdateStore.isInitialized s); [|done].
  by destruct (UpdateStore.receive event_info ch d s).
Qed.

(** The two messages of one event. *)
Lemma receive_event (window : BrowserWindow)
    (e : UpdaterEvent UpdateInfo ProgressInfo UpdateDownloadedEvent)
    (u : AppUpdater UpdateInfo ProgressInfo UpdateDownloadedEvent)
    (s : State) :
  isDestroyed window = false →
  UpdateStore.isInitialized s = true →
  UpdateStore.receive_all event_info (notified event_info window [e] u) s
  = Some (UpdateStore.shown e (current (snd (listener event_info e u))) s).
Proof.
  intros Hd Hi. cbn [notified]. unfold forward. rewrite Hd.
  destruct (listener_runs event_info e u) as (r & -> & ->).
  destruct s as [st v i p err init]. cbn in Hi. subst init.
  by destruct e.
Qed.

Lemma notified_cons (window : BrowserWindow)
    (e : UpdaterEvent UpdateInfo ProgressInfo UpdateDownloadedEvent)
    (events : list (UpdaterEvent UpdateInfo ProgressInfo
                      UpdateDownloadedEvent))
    (u : AppUpdater UpdateInfo ProgressInfo UpdateDownloadedEvent) :
  notified event_info window (e :: events) u
  = notified event_info window [e] u
    ++ notified event_info window events (snd (listener event_info e u)).
Proof. cbn [notified]. by rewrite app_nil_r, <- app_comm_cons. Qed.

Lemma receive_run (window : BrowserWindow)
    (events : list (UpdaterEvent UpdateInfo ProgressInfo
                      UpdateDownloadedEvent))
    (e : UpdaterEvent UpdateInfo ProgressInfo UpdateDownloadedEvent)
    (u : AppUpdater UpdateInfo ProgressInfo UpdateDownloadedEvent)
    (s : State) :
  isDestroyed window = false →
  UpdateStore.isInitialized s = true →
  UpdateStore.receive_all event_info
    (notified event_info window (events ++ [e]) u) s
  = Some (UpdateStore.shown e
            (current (after event_info (events ++ [e]) u)) s).
Proof.
  intros Hd Hi. revert u s Hi.
  induction events as [|e0 events IH]; intros u s Hi.
  - cbn [app]. rewrite after_cons, after_nil. by apply receive_event.
  - cbn [app]. rewrite notified_cons, receive_all_app.
    rewrite (receive_event _ _ _ _ Hd Hi), after_cons.
    rewrite IH by done. reflexivity.
Qed.

(** X22.  With the window attached and open and the listeners of the
    store installed, the store follows the controller event by event:
    after the messages of any run of events that ends with [e], the
    status and the update info of the store are those of the
    controller's record, whatever the store held before.  The progress
    is the controller's too, except that the store clears it when a
    download ends or fails; the error is the controller's, with an empty
    text read as none, except that the store clears it on a check and
    takes the message of a failure as it is.  The version and
    [isInitialized] are not touched. *)
Theorem store_follows_controller (window : BrowserWindow)
    (events : list (UpdaterEvent UpdateInfo ProgressInfo
                      UpdateDownloadedEvent))
    (e : UpdaterEvent UpdateInfo ProgressInfo UpdateDownloadedEvent)
    (u : AppUpdater UpdateInfo ProgressInfo UpdateDownloadedEvent)
    (s : State) :
  mainWindow u = Some window →
  isDestroyed window = false →
  UpdateStore.isInitialized s = true →
  ∃ messages,
    sent window (outputs (after event_info (events ++ [e]) u))
    = sent window (outputs u) ++ messages
    ∧ UpdateStore.receive_all event_info messages s
      = Some (UpdateStore.shown e
                (current (after event_info (events ++ [e]) u)) s).
Proof.
  intros Hw Hd Hi. eexists. split.
  - rewrite (sent_after event_info window _ u Hw), Hd. reflexivity.
  - by apply receive_run.
Qed.

(** X23.  An old failure comes back.  After a failure, a check clears
    the error in the store; but the controller never clears it, and the
    next status record brings it back: when the check then finds an
    update the store holds status [available] together with the message
    of the old failure.  (An empty message is read as none.) *)
Theorem old_error_returns (window : BrowserWindow)
    (events : list (UpdaterEvent UpdateInfo ProgressInfo
                      UpdateDownloadedEvent))
    err i
    (u : AppUpdater UpdateInfo ProgressInfo UpdateDownloadedEvent)
    (s : State) :
  mainWindow u = Some window →
  isDestroyed window = false →
  UpdateStore.isInitialized s = true →
  message err ≠ EmptyString →
  (∃ messages s1,
     sent window (outputs (after event_info
                    (events ++ [error_event err; checking_for_update]) u))
     = sent window (outputs u) ++ messages
     ∧ UpdateStore.receive_all event_info messages s = Some s1
     ∧ UpdateStore.status s1 = checking
     ∧ UpdateStore.error s1 = None)
  ∧ (∃ messages s2,
       sent window (outputs (after event_info
                      (events ++ [error_event err; checking_for_update;
                                  update_available i]) u))
       = sent window (outputs u) ++ messages
       ∧ UpdateStore.receive_all event_info messages s = Some s2
       ∧ UpdateStore.status s2 = available
       ∧ UpdateStore.updateInfo s2 = Some i
       ∧ UpdateStore.error s2 = Some (message err)).
Proof.
  intros Hw Hd Hi Hm. split.
  - do 2 eexists. split.
    { rewrite (sent_after event_info window _ u Hw), Hd. reflexivity. }
    split.
    { change (events ++ [error_event err; checking_for_update])
        with (events ++ [error_event err] ++ [checking_for_update]).
      rewrite app_assoc. by apply receive_run. }
    cbn [UpdateStore.shown UpdateStore.status UpdateStore.error].
    split; [|done]. rewrite after_app, after_cons, after_nil.
    by destruct (listener_runs event_info checking_for_update
                   (after event_info (events ++ [error_event err]) u))
      as (r & -> & ->).
  - do 2 eexists. split.
    { rewrite (sent_after event_info window _ u Hw), Hd. reflexivity. }
    split.
    { change (events ++ [error_event err; checking_for_update;
                         update_available i])
        with (events ++ [error_event err; checking_for_update]
                ++ [update_available i]).
      rewrite app_assoc. by apply receive_run. }
    cbn [UpdateStore.shown UpdateStore.status UpdateStore.error
         UpdateStore.updateInfo].
    rewrite <- app_assoc. cbn [app].
    destruct (error_and_info_are_kept_run event_info events u err i)
      as (Hst & Hinfo & Herr).
    rewrite Hst, Hinfo, Herr. repeat split.
    unfold UpdateStore.or_null. by destruct (message err).
Qed.

(** *** Requests *)

(** X24.  The store never learns from the reply that a check failed.
    The handler of [update:check] always replies [success: true], so
    once the request is settled [checkForUpdates] changes nothing: the
    state is what the messages received meanwhile made of [checking]
    with the error cleared.  If the check emitted no event the store
    stays in [checking], whether the call into the updater resolved or
    rejected. *)
Theorem check_reply_is_ignored
    (c : Call UpdateInfo ProgressInfo UpdateDownloadedEvent
           (option UpdateCheckResult))
    (u : AppUpdater UpdateInfo ProgressInfo UpdateDownloadedEvent)
    (meanwhile : State → State) (s : State) :
  let reply := fst (handle event_info updateInfo (update_check c) u) in
  UpdateStore.checkForUpdates String_of
    (fun s' => (reply, meanwhile s')) s
  = meanwhile (UpdateStore.with_status checking
                 (UpdateStore.with_error None s))
  ∧ UpdateStore.status
      (UpdateStore.checkForUpdates String_of (fun s' => (reply, s')) s)
    = checking
  ∧ UpdateStore.error
      (UpdateStore.checkForUpdates String_of (fun s' => (reply, s')) s)
    = None.
Proof.
  cbn zeta.
  assert (Hreply : ∃ i, fst (handle event_info updateInfo (update_check c) u)
                        = Ok (reply_check true i)).
  { cbn [handle].
    unfold try_catch, bind, checkForUpdates, try_catch, await, bind.
    destruct (for_of_listener event_info (emitted c) u) as (done & ->).
    unfold lift. destruct (settled c); by eexists. }
  destruct Hreply as (i & ->). by repeat split.
Qed.

(** X25.  A failed download is shown as failed whatever arrived
    meanwhile.  [downloadUpdate] sets [downloading] at once; when the
    handler of [update:download] replies [success: false] the store
    ends in status [error] with [String(error)] as the text, or with
    "Failed to download update" if that text is empty, and keeps the
    other fields as the messages left them.  When the handler replies
    [success: true] the reply changes nothing. *)
Theorem download_reply_is_shown
    (c : Call UpdateInfo ProgressInfo UpdateDownloadedEvent unit)
    (u : AppUpdater UpdateInfo ProgressInfo UpdateDownloadedEvent)
    (meanwhile : State → State) (s : State) :
  let reply := fst (handle event_info updateInfo (update_download c) u) in
  let before := meanwhile (UpdateStore.with_status downloading
                             (UpdateStore.with_error None s)) in
  UpdateStore.downloadUpdate String_of (fun s' => (reply, meanwhile s')) s
  = match settled c with
    | Ok _ => before
    | Throw e =>
        UpdateStore.with_status errored
          (UpdateStore.with_error
             (Some (UpdateStore.or_else (Some (String_of e))
                      "Failed to download update")) before)
    end.
Proof.
  cbn zeta.
  rewrite (download_handled event_info updateInfo c u).
  unfold UpdateStore.downloadUpdate, UpdateStore.settle.
  by destruct (settled c).
Qed.

(** *** Start *)

(** X26.  [init] brings the store in line with the controller and runs
    once.  Given the replies of the handlers of [update:version] and
    [update:status], the fresh store takes the version and the status
    record of the controller, an empty error text read as none.  If both
    requests are rejected the store still counts as initialized, with
    the version "0.0.0".  Whatever [init] returns is initialized, and on
    an initialized store [init] changes nothing, whatever the replies.
    Before [init], messages are not heard. *)
Theorem init_mirrors_controller
    (u : AppUpdater UpdateInfo ProgressInfo UpdateDownloadedEvent) :
  UpdateStore.init
    (fst (handle event_info updateInfo update_version u))
    (fst (handle event_info updateInfo update_status u))
    UpdateStore.initial
  = Some {| UpdateStore.status := status (current u);
            UpdateStore.currentVersion := version u;
            UpdateStore.updateInfo := info (current u);
            UpdateStore.progress := progress (current u);
            UpdateStore.error := UpdateStore.or_null (error (current u));
            UpdateStore.isInitialized := true |}
  ∧ (∀ e1 e2,
       UpdateStore.init (UpdateInfo := UpdateInfo)
         (ProgressInfo := ProgressInfo) (Throw e1) (Throw e2)
         UpdateStore.initial
       = Some (UpdateStore.with_isInitialized true UpdateStore.initial))
  ∧ (∀ version status (s s' : State),
       UpdateStore.init version status s = Some s' →
       UpdateStore.isInitialized s' = true
       ∧ ∀ version' status', UpdateStore.init version' status' s' = Some s')
  ∧ (∀ messages (s : State),
       UpdateStore.isInitialized s = false →
       UpdateStore.receive_all event_info messages s = Some s).
Proof.
  split; [done|]. split; [done|]. split.
  - intros v st s s' Hinit.
    assert (Hi : UpdateStore.isInitialized s' = true).
    { unfold UpdateStore.init in Hinit.
      destruct (UpdateStore.isInitialized s) eqn:Hs.
      - by injection Hinit as <-.
      - destruct v as [[]|]; destruct st as [[]|]; cbn in Hinit;
          try done; by injection Hinit as <-. }
    split; [done|]. intros v' st'. unfold UpdateStore.init. by rewrite Hi.
  - intros messages s Hi.
    induction messages as [|[ch d|e|t e] messages IH]; cbn; try done.
    by rewrite Hi.
Qed.

(** *** What the page shows *)

(** X27.  The progress of an old download is shown for a new one.  The
    store clears the progress when a download fails, but the controller
    keeps it and the next status record brings it back.  So after a
    download that failed at progress [p] and a check that found an
    update, the store holds [p] again; and when the user then starts the
    download the page shows the progress panel with [p] from the moment
    of the click, before the new download has reported anything. *)
Theorem old_progress_is_shown (window : BrowserWindow)
    (events : list (UpdaterEvent UpdateInfo ProgressInfo
                      UpdateDownloadedEvent))
    p err i
    (u : AppUpdater UpdateInfo ProgressInfo UpdateDownloadedEvent)
    (s : State) :
  mainWindow u = Some window →
  isDestroyed window = false →
  UpdateStore.isInitialized s = true →
  (∃ messages s1,
     sent window (outputs (after event_info
                    (events ++ [download_progress p; error_event err]) u))
     = sent window (outputs u) ++ messages
     ∧ UpdateStore.receive_all event_info messages s = Some s1
     ∧ UpdateStore.progress s1 = None)
  ∧ (∃ messages s2 clicked,
       sent window (outputs (after event_info
                      (events ++ [download_progress p; error_event err;
                                  checking_for_update; update_available i])
                      u))
       = sent window (outputs u) ++ messages
       ∧ UpdateStore.receive_all event_info messages s = Some s2
       ∧ UpdateStore.status s2 = available
       ∧ UpdateStore.progress s2 = Some p
       ∧ (∀ meanwhile,
            UpdateStore.downloadUpdate String_of
              (fun s' => (Ok (reply_done true), meanwhile s')) s2
            = meanwhile clicked)
       ∧ UpdateSettings.progress_panel clicked = Some p).
Proof.
  intros Hw Hd Hi. split.
  - do 2 eexists. split.
    { rewrite (sent_after event_info window _ u Hw), Hd. reflexivity. }
    split.
    { change (events ++ [download_progress p; error_event err])
        with (events ++ [download_progress p] ++ [error_event err]).
      rewrite app_assoc. by apply receive_run. }
    reflexivity.
  - do 3 eexists. split.
    { rewrite (sent_after event_info window _ u Hw), Hd. reflexivity. }
    split.
    { change (events ++ [download_progress p; error_event err;
                         checking_for_update; update_available i])
        with (events ++ [download_progress p; error_event err;
                         checking_for_update] ++ [update_available i]).
      rewrite app_assoc. by apply receive_run. }
    cbn [UpdateStore.shown UpdateStore.status UpdateStore.progress].
    rewrite <- app_assoc. cbn [app].
    assert (Hp : progress (current (after event_info
                   (events ++ [download_progress p; error_event err;
                               checking_for_update; update_available i]) u))
                 = Some p).
    { by rewrite (progress_after event_info), fold_left_app. }
    assert (Hst : status (current (after event_info
                    (events ++ [download_progress p; error_event err;
                                checking_for_update; update_available i]) u))
                  = available).
    { rewrite after_app, !after_cons, after_nil.
      match goal with
      | |- context [listener event_info (update_available i) ?w] =>
          by destruct (listener_runs event_info (update_available i) w)
            as (r & -> & ->)
      end. }
    rewrite Hp, Hst. split; [done|]. split; [done|]. split.
    + intros meanwhile. unfold UpdateStore.downloadUpdate.
      cbn [UpdateStore.settle UpdateStore.result_success success negb].
      reflexivity.
    + unfold UpdateSettings.progress_panel.
      cbn [UpdateStore.with_status UpdateStore.with_error UpdateStore.shown
           UpdateStore.status UpdateStore.progress].
      exact Hp.
Qed.

(** X28.  What the status line reads after an event.  With the window
    open and the listeners installed, after any run of events the line
    is given by the last event: the version found or downloaded is the
    one that event carried, so the line never reads "vundefined"; after
    a failure it is the message of the error, or "Update check failed"
    if the message is empty.  The error panel is shown only after a
    failure with a message. *)
Theorem status_line_after_event (version_of : UpdateInfo → string)
    (window : BrowserWindow)
    (events : list (UpdaterEvent UpdateInfo ProgressInfo
                      UpdateDownloadedEvent))
    (e : UpdaterEvent UpdateInfo ProgressInfo UpdateDownloadedEvent)
    (u : AppUpdater UpdateInfo ProgressInfo UpdateDownloadedEvent)
    (s : State) :
  mainWindow u = Some window →
  isDestroyed window = false →
  UpdateStore.isInitialized s = true →
  ∃ messages s',
    sent window (outputs (after event_info (events ++ [e]) u))
    = sent window (outputs u) ++ messages
    ∧ UpdateStore.receive_all event_info messages s = Some s'
    ∧ UpdateSettings.renderStatusText version_of s'
      = (match e with
         | checking_for_update => "Checking for updates..."
         | update_available i => "Update available: v" ++ version_of i
         | update_not_available _ => "You have the latest version"
         | download_progress _ => "Downloading update..."
         | update_downloaded ev =>
             "Ready to install: v" ++ version_of (event_info ev)
         | error_event err =>
             UpdateStore.or_else (Some (message err)) "Update check failed"
         end)%string
    ∧ UpdateSettings.error_panel s'
      = match e with
        | error_event err => UpdateStore.or_null (Some (message err))
        | _ => None
        end.
Proof.
  intros Hw Hd Hi. do 2 eexists. split.
  { rewrite (sent_after event_info window _ u Hw), Hd. reflexivity. }
  split; [by apply receive_run|].
  rewrite after_app, after_cons, after_nil.
  destruct (listener_runs event_info e (after event_info events u))
    as (r & -> & ->).
  by destruct e.
Qed.

End StoreSpec.

(** *** Samples *)

(** A store whose [init] has run. *)
Lemma store_follows_controller_witness :
  ∃ messages,
    sent open_window
      (outputs (after (@id string)
                  ([download_progress 40%N] ++ [update_downloaded "0.2.0"%string])
                  (controller (Some open_window) (at_status available))))
    = sent open_window
        (outputs (controller (Some open_window) (at_status available)))
      ++ messages
    ∧ UpdateStore.receive_all id messages
        (UpdateStore.with_isInitialized true UpdateStore.initial)
      = Some {| UpdateStore.status := downloaded;
                UpdateStore.currentVersion := "0.0.0";
                UpdateStore.updateInfo := Some "0.2.0"%string;
                UpdateStore.progress := None;
                UpdateStore.error := None;
                UpdateStore.isInitialized := true |}.
Proof.
  apply (store_follows_controller (UpdateInfo := string) (ProgressInfo := N)
           (UpdateDownloadedEvent := string) id open_window
           [download_progress 40%N] (update_downloaded "0.2.0"%string)
           (controller (Some open_window) (at_status available))
           (UpdateStore.with_isInitialized true UpdateStore.initial));
    reflexivity.
Defined.

Lemma old_error_returns_witness :
  ∃ messages s2,
    sent open_window
      (outputs (after (@id string)
                  ([] ++ [error_event (mkError "net::ERR_FAILED");
                          checking_for_update;
                          update_available "0.2.0"%string])
                  (controller (Some open_window) (at_status idle))))
    = sent open_window
        (outputs (controller (Some open_window) (at_status idle)))
      ++ messages
    ∧ UpdateStore.receive_all id messages
        (UpdateStore.with_isInitialized true
           (UpdateStore.initial (ProgressInfo := N)))
      = Some s2
    ∧ UpdateStore.status s2 = available
    ∧ UpdateStore.updateInfo s2 = Some "0.2.0"%string
    ∧ UpdateStore.error s2 = Some "net::ERR_FAILED"%string.
Proof.
  apply (old_error_returns (UpdateInfo := string) (ProgressInfo := N)
           (UpdateDownloadedEvent := string) id open_window []
           (mkError "net::ERR_FAILED") "0.2.0"%string
           (controller (Some open_window) (at_status idle))
           (UpdateStore.with_isInitialized true UpdateStore.initial));
    [reflexivity | reflexivity | reflexivity | discriminate].
Defined.

Lemma old_progress_is_shown_witness :
  ∃ messages s2 clicked,
    sent open_window
      (outputs (after (@id string)
                  ([] ++ [download_progress 40%N;
                          error_event (mkError "net::ERR_FAILED");
                          checking_for_update;
                          update_available "0.2.0"%string])
                  (controller (Some open_window) (at_status available))))
    = sent open_window
        (outputs (controller (Some open_window) (at_status available)))
      ++ messages
    ∧ UpdateStore.receive_all id messages
        (UpdateStore.with_isInitialized true UpdateStore.initial)
      = Some s2
    ∧ UpdateStore.status s2 = available
    ∧ UpdateStore.progress s2 = Some 40%N
    ∧ (∀ meanwhile,
         UpdateStore.downloadUpdate message
           (fun s' => (Ok (reply_done true), meanwhile s')) s2
         = meanwhile clicked)
    ∧ UpdateSettings.progress_panel clicked = Some 40%N.
Proof.
  apply (old_progress_is_shown (UpdateInfo := string) (ProgressInfo := N)
           (UpdateDownloadedEvent := string) id message open_window []
           40%N (mkError "net::ERR_FAILED") "0.2.0"%string
           (controller (Some open_window) (at_status available))
           (UpdateStore.with_isInitialized true UpdateStore.initial));
    reflexivity.
Defined.

Lemma status_line_after_event_witness :
  ∃ messages s',
    sent open_window
      (outputs (after (@id string)
                  ([checking_for_update] ++ [update_available "0.2.0"%string])
                  (controller (Some open_window) (at_status idle))))
    = sent open_window
        (outputs (controller (Some open_window) (at_status idle)))
      ++ messages
    ∧ UpdateStore.receive_all id messages
        (UpdateStore.with_isInitialized true
           (UpdateStore.initial (ProgressInfo := N)))
      = Some s'
    ∧ UpdateSettings.renderStatusText id s' = "Update available: v0.2.0"%string
    ∧ UpdateSettings.error_panel s' = None.
Proof.
  apply (status_line_after_event (UpdateInfo := string) (ProgressInfo := N)
           (UpdateDownloadedEvent := string) id id open_window
           [checking_for_update] (update_available "0.2.0"%string)
           (controller (Some open_window) (at_status idle))
           (UpdateStore.with_isInitialized true UpdateStore.initial));
    reflexivity.
Defined.

Lemma init_mirrors_controller_witness :
  let s : UpdateStore.UpdateState string N :=
    {| UpdateStore.status := downloaded;
       UpdateStore.currentVersion := "0.1.0";
       UpdateStore.updateInfo := None; UpdateStore.progress := None;
       UpdateStore.error := None; UpdateStore.isInitialized := true |} in
  (UpdateStore.isInitialized s = true
   ∧ ∀ version' status', UpdateStore.init version' status' s = Some s)
  ∧ UpdateStore.receive_all (@id string)
      [send "update:checking" no_payload]
      (UpdateStore.initial (UpdateInfo := string) (ProgressInfo := N))
    = Some UpdateStore.initial.
Proof.
  destruct (init_mirrors_controller (UpdateInfo := string)
              (ProgressInfo := N) (UpdateDownloadedEvent := string)
              (UpdateCheckResult := string) id id
              (controller (Some open_window) (at_status downloaded)))
    as (_ & _ & Honce & Hdeaf).
  split.
  - apply (Honce (fst (handle id (@id string) update_version
                         (controller (Some open_window)
                            (at_status downloaded))))
             (fst (handle id (@id string) update_status
                     (controller (Some open_window) (at_status downloaded))))
             UpdateStore.initial).
    reflexivity.
  - apply Hdeaf. reflexivity.
Defined.

End UpdateStoreSpec.
